(** * AILang: the command parser, the output-contract engine and their callers

    A shallow embedding of [src/ailang/parser.py] and
    [src/ailang/contracts.py], of [_transpile_ast] and [transpile] of
    [src/ailang/transpiler.py], and of [AILANG.ask_async] of
    [src/ailang/core.py].

    Python [str] values are modelled by [string]; a character is an [ascii],
    read as a code point in the range U+0000..U+00FF.  Python exceptions are
    values of [exn], and a computation that may raise returns a [result].
    Python dictionaries that are only read by key or written by key are
    [gmap]s; the schema of a contract, whose order drives the processing, is
    an association list, and so are the dictionaries written as literals. *)

From Stdlib Require Import String Ascii ZArith NArith List Bool Lia.
From Stdlib Require Import Floats DecimalString.
From stdpp Require Import gmap strings list fin_maps.

Set Warnings "-register-all".

(** ** Exceptions *)

Inductive exn : Type :=
| ParseError (msg : string)
| ContractError (msg : string)
| TypeError
| ValueError
| OverflowError
| ReError.

Inductive result (A : Type) : Type :=
| Ok (a : A)
| Raise (e : exn).

Arguments Ok {A} a.
Arguments Raise {A} e.

#[global] Instance result_ret : MRet result := λ A a, Ok a.

#[global] Instance result_bind : MBind result := λ A B k r,
  match r with
  | Ok a => k a
  | Raise e => Raise e
  end.

#[global] Instance result_fmap : FMap result := λ A B f r,
  match r with
  | Ok a => Ok (f a)
  | Raise e => Raise e
  end.

(** ** Text primitives of the Python runtime used by both modules *)

Module Text.

Definition code_point (c : ascii) : N := N_of_ascii c.

Definition between (lo hi : N) (c : ascii) : bool :=
  ((lo <=? code_point c) && (code_point c <=? hi))%N.

Definition is_char (n : N) (c : ascii) : bool := (code_point c =? n)%N.

(** [str.isspace] on one character, which is also what [\s] matches and what
    [str.strip] removes: TAB..CR, FS..US, SPACE, NEL and NBSP. *)
Definition is_space (c : ascii) : bool :=
  between 9 13 c || between 28 32 c || is_char 133 c || is_char 160 c.

(** What [\w] matches: the alphanumeric characters and the underscore. *)
Definition is_word (c : ascii) : bool :=
  between 48 57 c || between 65 90 c || between 97 122 c || is_char 95 c
  || is_char 170 c || is_char 178 c || is_char 179 c || is_char 181 c
  || is_char 185 c || is_char 186 c || between 188 190 c
  || between 192 214 c || between 216 246 c || between 248 255 c.

Definition dquote : ascii := "034"%char.
Definition backslash : ascii := "092"%char.
Definition newline : ascii := "010"%char.

Definition is_empty (s : string) : bool :=
  match s with
  | EmptyString => true
  | String _ _ => false
  end.

(** [all_chars p s]: every character of [s] satisfies [p]. *)
Fixpoint all_chars (p : ascii → bool) (s : string) : bool :=
  match s with
  | EmptyString => true
  | String c s' => p c && all_chars p s'
  end.

(** [head_is p s]: [s] is not empty and its first character satisfies [p]. *)
Definition head_is (p : ascii → bool) (s : string) : bool :=
  match s with
  | EmptyString => false
  | String c _ => p c
  end.

(** The last character of a string, if any. *)
Fixpoint last_char (s : string) : option ascii :=
  match s with
  | EmptyString => None
  | String c EmptyString => Some c
  | String _ s' => last_char s'
  end.

Fixpoint lstrip (s : string) : string :=
  match s with
  | EmptyString => EmptyString
  | String c s' => if is_space c then lstrip s' else s
  end.

Fixpoint rstrip (s : string) : string :=
  match s with
  | EmptyString => EmptyString
  | String c s' =>
      match rstrip s' with
      | EmptyString => if is_space c then EmptyString else String c EmptyString
      | r => String c r
      end
  end.

(** [s.strip()] *)
Definition strip (s : string) : string := rstrip (lstrip s).

(** [span p s]: the longest prefix of [s] whose characters satisfy [p], and
    what follows it. *)
Fixpoint span (p : ascii → bool) (s : string) : string * string :=
  match s with
  | EmptyString => (EmptyString, EmptyString)
  | String c s' =>
      if p c then let '(run, rest) := span p s' in (String c run, rest)
      else (EmptyString, s)
  end.

(** [strip_prefix p s]: [Some t] when [s = p +:+ t]. *)
Fixpoint strip_prefix (p s : string) : option string :=
  match p, s with
  | EmptyString, _ => Some s
  | String a p', String b s' => if Ascii.eqb a b then strip_prefix p' s' else None
  | String _ _, EmptyString => None
  end.

(** [s[:n]] for a natural [n]. *)
Fixpoint str_take (n : nat) (s : string) : string :=
  match n, s with
  | S n', String c s' => String c (str_take n' s')
  | _, _ => EmptyString
  end.

(** [s[:k]] for any integer [k]: a negative [k] counts from the end. *)
Definition slice_to (s : string) (k : Z) : string :=
  if (k <? 0)%Z
  then str_take (Z.to_nat (Z.max 0 (Z.of_nat (String.length s) + k))) s
  else str_take (Z.to_nat k) s.

(** [s.split(sep)] for a separator that is one character satisfying [sep]. *)
Fixpoint split_where (sep : ascii → bool) (s : string) : list string :=
  match s with
  | EmptyString => [EmptyString]
  | String c s' =>
      if sep c then EmptyString :: split_where sep s'
      else match split_where sep s' with
           | piece :: pieces => String c piece :: pieces
           | [] => [String c EmptyString]
           end
  end.

(** [sep.join(items)] *)
Fixpoint join (sep : string) (items : list string) : string :=
  match items with
  | [] => EmptyString
  | [x] => x
  | x :: rest => x +:+ sep +:+ join sep rest
  end.

(** [str(n)] for an integer. *)
Definition str_of_Z (z : Z) : string := NilZero.string_of_int (Z.to_int z).

(** [entries.get(key)] for a dictionary written as a literal: the value of
    the first entry with that key.  The keys of the dictionaries below are
    all different. *)
Fixpoint assoc {A : Type} (key : string) (entries : list (string * A)) : option A :=
  match entries with
  | [] => None
  | (k, a) :: later => if String.eqb k key then Some a else assoc key later
  end.

(** [str.isdigit]: the digits and the superscript digits of the range. *)
Definition is_digit (c : ascii) : bool :=
  between 48 57 c || is_char 178 c || is_char 179 c || is_char 185 c.

Definition isdigit (s : string) : bool := negb (is_empty s) && all_chars is_digit s.

(** [s.startswith(prefix)] *)
Definition startswith (prefix s : string) : bool :=
  match strip_prefix prefix s with
  | Some _ => true
  | None => false
  end.

(** [s.replace(old, new)] when [old] is empty: [new] before every character
    and at the end. *)
Fixpoint interleave (new s : string) : string :=
  match s with
  | EmptyString => new
  | String c s' => new +:+ String c (interleave new s')
  end.

(** [s.replace(old, new)] for a non-empty [old]: the occurrences are
    replaced from left to right and do not overlap.  Every step consumes a
    character of [s], so [fuel] at the length of [s] is enough. *)
Fixpoint replace_from (fuel : nat) (old new s : string) : string :=
  match fuel with
  | O => s
  | S fuel' =>
      match strip_prefix old s with
      | Some rest => new +:+ replace_from fuel' old new rest
      | None =>
          match s with
          | EmptyString => EmptyString
          | String c s' => String c (replace_from fuel' old new s')
          end
      end
  end.

Definition replace (old new s : string) : string :=
  if is_empty old then interleave new s
  else replace_from (String.length s) old new s.

(** [sorted(items)] for strings, which Python orders by code point. *)
Fixpoint insert_sorted (x : string) (sorted : list string) : list string :=
  match sorted with
  | [] => [x]
  | y :: later => if String.leb x y then x :: sorted else y :: insert_sorted x later
  end.

Definition sorted (items : list string) : list string := foldr insert_sorted [] items.

End Text.

Import Text.

(** ** [parser.py] *)

Module Parser.

(** The dataclass [AILangAST]. *)
Inductive AILangAST : Type := mkAST {
  action : string;
  subject : string;
  specifiers : list string;
  must : list string;
  maybe : list string;
  priority : list string;
  avoid : list string;
  chain : option AILangAST;
  parallel : list string;
  persona : option string;
  variables : gmap string string
}.

(** *** [_split_chain]: the quote- and bracket-aware segmentation *)

(** The local variables of the loop of [_split_chain]. *)
Record scanner : Type := mkScanner {
  parts : list string;
  current : string;
  depth : Z;
  in_quotes : bool
}.

Definition scan_start : scanner :=
  {| parts := []; current := ""; depth := 0; in_quotes := false |}.

(** Membership of a one-character string in the opening and in the closing
    bracket characters. *)
Definition is_opener (c : ascii) : bool :=
  (c =? "[")%char || (c =? "{")%char || (c =? "(")%char.

Definition is_closer (c : ascii) : bool :=
  (c =? "]")%char || (c =? "}")%char || (c =? ")")%char.

(** [i == 0 or command[i - 1]] is not a backslash, with [prev] the character
    at [i - 1]. *)
Definition unescaped (prev : option ascii) : bool :=
  match prev with
  | None => true
  | Some p => negb (p =? backslash)%char
  end.

Definition push (s : string) (c : ascii) : string := s +:+ String c EmptyString.

(** One iteration of the [while] loop, on the character [c] that follows
    [prev]. *)
Definition scan_step (prev : option ascii) (st : scanner) (c : ascii) : scanner :=
  if (c =? dquote)%char && unescaped prev then
    {| parts := parts st; current := push (current st) c;
       depth := depth st; in_quotes := negb (in_quotes st) |}
  else if is_opener c && negb (in_quotes st) then
    {| parts := parts st; current := push (current st) c;
       depth := depth st + 1; in_quotes := in_quotes st |}
  else if is_closer c && negb (in_quotes st) then
    {| parts := parts st; current := push (current st) c;
       depth := depth st - 1; in_quotes := in_quotes st |}
  else if (c =? ">")%char && (depth st =? 0)%Z && negb (in_quotes st) then
    {| parts := parts st ++ [strip (current st)]; current := "";
       depth := depth st; in_quotes := in_quotes st |}
  else
    {| parts := parts st; current := push (current st) c;
       depth := depth st; in_quotes := in_quotes st |}.

(** The loop itself, from a state [st] reached just after [prev]. *)
Fixpoint scan (prev : option ascii) (st : scanner) (command : string) : scanner :=
  match command with
  | EmptyString => st
  | String c rest => scan (Some c) (scan_step prev st c) rest
  end.

Definition _split_chain (command : string) : list string :=
  let st := scan None scan_start command in
  if is_empty (strip (current st)) then parts st
  else parts st ++ [strip (current st)].

(** The state of the loop when it is about to read [command[i]]. *)
Definition state_at (command : string) (i : nat) : scanner :=
  scan None scan_start (str_take i command).

(** *** The regular expressions of the parser

    A [matcher] tries one pattern at the start of a string and returns the
    captured text with what follows the match.  None of the patterns below
    can match the empty string, and in each of them the greedy choice is the
    only one that can succeed, so no backtracking is modelled. *)

Definition matcher : Type := string → option (string * string).

(** [re.findall]: leftmost, non-overlapping matches, left to right. *)
Fixpoint findall_from (fuel : nat) (m : matcher) (s : string) : list string :=
  match fuel with
  | O => []
  | S fuel' =>
      match m s with
      | Some (group, rest) => group :: findall_from fuel' m rest
      | None =>
          match s with
          | EmptyString => []
          | String _ s' => findall_from fuel' m s'
          end
      end
  end.

Definition findall (m : matcher) (s : string) : list string :=
  findall_from (S (String.length s)) m s.

(** [re.search]: the leftmost match. *)
Fixpoint search (m : matcher) (s : string) : option (string * string) :=
  match m s with
  | Some found => Some found
  | None =>
      match s with
      | EmptyString => None
      | String _ s' => search m s'
      end
  end.

(** [c(\w+)] for a sigil [c]: [!], [~], [^] or [_]. *)
Definition sigil_word (sigil : ascii) : matcher := λ s,
  match s with
  | String c s' =>
      if (c =? sigil)%char then
        let '(w, rest) := span is_word s' in
        if is_empty w then None else Some (w, rest)
      else None
  | EmptyString => None
  end.

(** [\[([^\]]+)\]] *)
Definition bracketed : matcher := λ s,
  match s with
  | String c s' =>
      if (c =? "[")%char then
        let '(body, tail) := span (λ x, negb (x =? "]")%char) s' in
        match tail with
        | String _ rest => if is_empty body then None else Some (body, rest)
        | EmptyString => None
        end
      else None
  | EmptyString => None
  end.

(** [\{(\w+)\}] *)
Definition placeholder : matcher := λ s,
  match s with
  | String c s' =>
      if (c =? "{")%char then
        let '(w, tail) := span is_word s' in
        match tail with
        | String d rest =>
            if (d =? "}")%char && negb (is_empty w) then Some (w, rest) else None
        | EmptyString => None
        end
      else None
  | EmptyString => None
  end.

(** A double quote, a captured run of zero or more characters other than
    the double quote, and a double quote. *)
Definition quoted : matcher := λ s,
  match s with
  | String c s' =>
      if (c =? dquote)%char then
        let '(body, tail) := span (λ x, negb (x =? dquote)%char) s' in
        match tail with
        | String _ rest => Some (body, rest)
        | EmptyString => None
        end
      else None
  | EmptyString => None
  end.

(** The starred group of the parallel pattern, zero or more times
    [\s*&\s*\w+]: the text the repetition consumes and what follows. *)
Fixpoint parallel_more (fuel : nat) (s : string) : string * string :=
  match fuel with
  | O => (EmptyString, s)
  | S fuel' =>
      let '(ws1, s1) := span is_space s in
      match s1 with
      | String c s2 =>
          if (c =? "&")%char then
            let '(ws2, s3) := span is_space s2 in
            let '(w, s4) := span is_word s3 in
            if is_empty w then (EmptyString, s)
            else
              let '(more, rest) := parallel_more fuel' s4 in
              (ws1 +:+ "&" +:+ ws2 +:+ w +:+ more, rest)
          else (EmptyString, s)
      | EmptyString => (EmptyString, s)
      end
  end.

(** The parallel pattern: [&], [\s*], then the group made of [\w+] and of
    [\s*&\s*\w+] zero or more times.  The text returned is [group(0)], the
    whole match. *)
Definition parallel_run : matcher := λ s,
  match s with
  | String c s1 =>
      if (c =? "&")%char then
        let '(ws, s2) := span is_space s1 in
        let '(w, s3) := span is_word s2 in
        if is_empty w then None
        else
          let '(more, rest) := parallel_more (String.length s3) s3 in
          Some ("&" +:+ ws +:+ w +:+ more, rest)
      else None
  | EmptyString => None
  end.

(** [before_last c s]: the text of [s] before the last occurrence of [c]. *)
Fixpoint before_last (c : ascii) (s : string) : option string :=
  match s with
  | EmptyString => None
  | String a s' =>
      match before_last c s' with
      | Some p => Some (String a p)
      | None => if (a =? c)%char then Some EmptyString else None
      end
  end.

(** [re.match] of the persona pattern [@as\s+Q([^Q]+)Q\s*\{(.+)\}], Q being
    the double quote character, under [re.DOTALL]: the two groups.  The
    greedy [(.+)] runs to the last closing brace. *)
Definition persona_block (command : string) : option (string * string) :=
  rest ← strip_prefix "@as" command;
  let '(ws, rest) := span is_space rest in
  if is_empty ws then None else
  match rest with
  | String q rest =>
      if negb (q =? dquote)%char then None else
      let '(name, rest) := span (λ x, negb (x =? dquote)%char) rest in
      if is_empty name then None else
      match rest with
      | String _ rest =>
          let '(_, rest) := span is_space rest in
          match rest with
          | String b rest =>
              if negb (b =? "{")%char then None else
              body ← before_last "}" rest;
              if is_empty body then None else Some (name, body)
          | EmptyString => None
          end
      | EmptyString => None
      end
  | EmptyString => None
  end.

(** *** [_parse_single] *)

(** The subject and the remainder [rest] after it (lines 127-137). *)
Definition take_subject (rest : string) : string * string :=
  match quoted rest with
  | Some (text, after) => (text, strip after)
  | None =>
      match placeholder rest with
      | Some (name, after) => ("{" +:+ name +:+ "}", strip after)
      | None => (EmptyString, rest)
      end
  end.

(** The value of [rest] from which the specifiers, the modifiers and the
    parallel outputs of a segment are read. *)
Definition remainder (command : string) : string :=
  (take_subject (strip (span is_word command).2)).2.

(** The comprehension of line 152: the pieces of [group0] between the [&]
    characters, stripped, the empty ones left out. *)
Definition parallel_items (group0 : string) : list string :=
  filter (λ p, is_empty p = false)
    (strip <$> split_where (λ c, (c =? "&")%char) group0).

Definition find_parallel (rest : string) : list string :=
  match search parallel_run rest with
  | Some (group0, _) => parallel_items group0
  | None => []
  end.

Definition _parse_single (command : string) : result AILangAST :=
  let '(action, after) := span is_word command in
  if is_empty action then
    Raise (ParseError ("Could not find action in: " +:+ command))
  else
    let rest := strip after in
    let '(subject, rest) := take_subject rest in
    Ok {| action := action;
          subject := subject;
          specifiers := findall bracketed rest;
          must := findall (sigil_word "!") rest;
          maybe := findall (sigil_word "~") rest;
          priority := findall (sigil_word "^") rest;
          avoid := findall (sigil_word "_") rest;
          chain := None;
          parallel := find_parallel rest;
          persona := None;
          variables :=
            foldl (λ vars var, <[var := ""]> vars) ∅ (findall placeholder command) |}.

(** *** [parse] *)

Definition set_persona (p : option string) (ast : AILangAST) : AILangAST :=
  {| action := action ast; subject := subject ast; specifiers := specifiers ast;
     must := must ast; maybe := maybe ast; priority := priority ast;
     avoid := avoid ast; chain := chain ast; parallel := parallel ast;
     persona := p; variables := variables ast |}.

Definition set_chain (c : option AILangAST) (ast : AILangAST) : AILangAST :=
  {| action := action ast; subject := subject ast; specifiers := specifiers ast;
     must := must ast; maybe := maybe ast; priority := priority ast;
     avoid := avoid ast; chain := c; parallel := parallel ast;
     persona := persona ast; variables := variables ast |}.

(** The persona handling of lines 59-66: the persona found and the command
    that is then segmented. *)
Definition unwrap_persona (command : string) : option string * string :=
  let command := strip command in
  match persona_block command with
  | Some (name, body) => (Some name, strip body)
  | None => (None, command)
  end.

(** [parse] calls itself on the segments after the first; [fuel] bounds the
    depth of that recursion and [None] means it was exhausted. *)
Fixpoint parse_within (fuel : nat) (command : string) : option (result AILangAST) :=
  match fuel with
  | O => None
  | S fuel' =>
      let '(persona, command) := unwrap_persona command in
      match _split_chain command with
      | first :: second :: rest =>
          match _parse_single first with
          | Raise e => Some (Raise e)
          | Ok ast =>
              match parse_within fuel' (join " > " (second :: rest)) with
              | None => None
              | Some (Raise e) => Some (Raise e)
              | Some (Ok next) =>
                  Some (Ok (set_chain (Some next) (set_persona persona ast)))
              end
          end
      | _ => Some (set_persona persona <$> _parse_single command)
      end
  end.

(** The number of occurrences of [c] in [s]. *)
Fixpoint count_char (c : ascii) (s : string) : nat :=
  match s with
  | EmptyString => O
  | String a s' => (if (a =? c)%char then 1 else 0) + count_char c s'
  end.

(** Every recursive call of [parse] receives a command with fewer [>]
    characters, so this much fuel is never exhausted. *)
Definition parse (command : string) : option (result AILangAST) :=
  parse_within (S (count_char ">" command)) command.

(** The nodes reachable from [ast] through [chain], [ast] excluded. *)
Fixpoint chained (ast : AILangAST) : list AILangAST :=
  match chain ast with
  | Some next => next :: chained next
  | None => []
  end.

(** *** [validate] *)

(** The set [valid_actions]. *)
Definition valid_actions : list string :=
  ["write"; "rewrite"; "summarize"; "expand"; "translate"; "explain"; "list";
   "compare"; "reply"; "title"; "img"; "edit_img"; "describe_img"; "style";
   "logo"; "icon"; "diagram"; "mockup"; "code"; "fix"; "refactor"; "test";
   "review"; "convert"; "api"; "query"; "regex"; "docs"; "analyze"; "evaluate";
   "predict"; "diagnose"; "recommend"; "rank"; "verify"; "extract"; "classify";
   "sentiment"; "brainstorm"; "name"; "story"; "joke"; "poem"; "script"; "pitch";
   "slogan"; "recipe"; "playlist"; "format"; "merge"; "split"; "filter"; "sort";
   "dedupe"; "validate"; "map"; "template"; "parse"; "research"; "plan";
   "generate"].

(** The warnings about a tree: only the action and the subject of its head
    are looked at. *)
Definition validate (ast : AILangAST) : list string :=
  let warnings := [] in
  let warnings :=
    if bool_decide (action ast ∈ valid_actions) then warnings
    else
      let sample := join ", " (take 5 (sorted valid_actions)) in
      warnings ++ ["Unknown action '" +:+ action ast +:+ "'. Did you mean one of: "
                   +:+ sample +:+ "...?"] in
  let warnings :=
    if is_empty (subject ast) && negb (bool_decide (action ast ∈ ["list"; "brainstorm"]))
    then warnings ++ ["Action '" +:+ action ast +:+ "' typically requires a subject."]
    else warnings in
  warnings.

(** *** Notions used to state the properties of the parser *)

(** The character that precedes the position reached after reading [s]
    from a position preceded by [prev]. *)
Definition last_or (prev : option ascii) (s : string) : option ascii :=
  match last_char s with
  | Some c => Some c
  | None => prev
  end.

(** [s] between double quotes. *)
Definition quote (s : string) : string := String dquote (s +:+ String dquote "").

(** One further output of a parallel run: the white space before the [&],
    the white space after it, and the identifier. *)
Definition run_item : Type := string * string * string.

Definition item_word (it : run_item) : string := it.2.

Definition item_ok (it : run_item) : Prop :=
  all_chars is_space it.1.1 = true
  ∧ all_chars is_space it.1.2 = true
  ∧ all_chars is_word it.2 = true
  ∧ it.2 ≠ "".

(** The text of a run after its first identifier. *)
Fixpoint run_text (items : list run_item) : string :=
  match items with
  | [] => ""
  | (ws1, ws2, w) :: more => ws1 +:+ "&" +:+ ws2 +:+ w +:+ run_text more
  end.

(** [s] goes on with one more [&] and identifier. *)
Definition continues (s : string) : bool :=
  match (span is_space s).2 with
  | String c s' => (c =? "&")%char && head_is is_word (span is_space s').2
  | EmptyString => false
  end.

Definition not_amp (c : ascii) : bool := negb (c =? "&")%char.

(** The [>] characters of a list of segments once joined again: those of
    each segment and one for each segment. *)
Definition weight (segments : list string) : nat :=
  sum_list_with (λ seg, S (count_char ">" seg)) segments.

(** The depth counter and the quote flag of the scanner. *)
Definition flags : Type := Z * bool.

Definition flags_of (st : scanner) : flags := (depth st, in_quotes st).

Definition clean : flags := (0%Z, false).

(** What one character does to the flags; [None] when it closes the current
    segment. *)
Definition flag_step (prev : option ascii) (f : flags) (c : ascii) : option flags :=
  if (c =? dquote)%char && unescaped prev then Some (f.1, negb f.2)
  else if is_opener c && negb f.2 then Some (f.1 + 1, f.2)%Z
  else if is_closer c && negb f.2 then Some (f.1 - 1, f.2)%Z
  else if (c =? ">")%char && (f.1 =? 0)%Z && negb f.2 then None
  else Some f.

(** The flags after a text that closes no segment. *)
Fixpoint flag_run (prev : option ascii) (f : flags) (s : string) : option flags :=
  match s with
  | EmptyString => Some f
  | String c s' =>
      match flag_step prev f c with
      | Some f' => flag_run (Some c) f' s'
      | None => None
      end
  end.

(** A trimmed text that, read from the start of a segment, closes no segment
    and leaves the flags [f]. *)
Definition quiet (s : string) (f : flags) : Prop :=
  strip s = s ∧ ∀ prev, unescaped prev = true → flag_run prev clean s = Some f.

(** Segments that can follow one another in a chain: all but the last leave
    the scanner outside quotes and brackets. *)
Fixpoint chainable (segments : list string) : Prop :=
  match segments with
  | [] => True
  | [s] => ∃ f, quiet s f
  | s :: later => quiet s clean ∧ chainable later
  end.

(** The segments of a command, as [_split_chain] returns them from the final
    state of its loop. *)
Definition finish (st : scanner) : list string :=
  if is_empty (strip (current st)) then parts st
  else parts st ++ [strip (current st)].

(** What [_split_chain] makes of segments joined again: a last empty segment
    is lost. *)
Definition rejoined (segments : list string) : list string :=
  match last segments with
  | Some EmptyString => removelast segments
  | _ => segments
  end.

(** What the loop maintains: the closed segments are quiet and leave clean
    flags, and the current segment has closed nothing since it started. *)
Definition scan_inv (prev : option ascii) (st : scanner) : Prop :=
  Forall (λ s, quiet s clean) (parts st)
  ∧ ∃ p0, unescaped p0 = true ∧ prev = last_or p0 (current st)
          ∧ flag_run p0 clean (current st) = Some (flags_of st).

(** A name: a non-empty run of word characters. *)
Definition name_ok (w : string) : Prop := w ≠ "" ∧ all_chars is_word w = true.

(** A text in which the character [c] does not occur. *)
Definition without (c : ascii) (s : string) : Prop :=
  all_chars (λ x, negb (x =? c)%char) s = true.

(** What the patterns of the parser guarantee about the fields of a node. *)
Definition node_ok (ast : AILangAST) : Prop :=
  name_ok (action ast)
  ∧ without dquote (subject ast)
  ∧ Forall (λ s, s ≠ "" ∧ without "]" s) (specifiers ast)
  ∧ Forall name_ok (must ast)
  ∧ Forall name_ok (maybe ast)
  ∧ Forall name_ok (priority ast)
  ∧ Forall name_ok (avoid ast)
  ∧ Forall name_ok (parallel ast)
  ∧ (∀ who, persona ast = Some who → who ≠ "" ∧ without dquote who)
  ∧ (∀ name value, variables ast !! name = Some value → name_ok name ∧ value = "").

(** [node] is what [_parse_single] built for [seg], the chain and the
    persona that [parse] sets afterwards put aside. *)
Definition parsed_from (node : AILangAST) (seg : string) : Prop :=
  _parse_single seg = Ok (set_chain None (set_persona None node)).

End Parser.

(** ** [contracts.py] *)

Module Contracts.

(** The Python values a decoded JSON document is made of. *)
Inductive value : Type :=
| VNone
| VBool (b : bool)
| VInt (n : Z)
| VFloat (x : float)
| VStr (s : string)
| VList (items : list value)
| VDict (entries : gmap string value).

(** The primitives of the Python runtime and of its [re] and [json] modules
    that the contract engine calls and that are not modelled here.  Every
    statement about the engine holds for all of them. *)
Class Runtime : Type := {
  (** [repr(v)] *)
  repr : value → string;
  (** [int(s)] for a string; [None] is a [ValueError] *)
  int_of_str : string → option Z;
  (** [float(s)] for a string; [None] is a [ValueError] *)
  float_of_str : string → option float;
  (** [float(n)] for an integer; [None] is an [OverflowError] *)
  float_of_int : Z → option float;
  (** [int(x)] for a float *)
  int_of_float : float → result Z;
  (** [round(x, ndigits)] *)
  round_to : float → Z → float;
  (** [re.match(pattern, s)] found a match *)
  re_match : string → string → result bool;
  (** [re.sub(pattern, repl, s)] *)
  re_sub : string → string → string → string;
  (** [json.loads(s)]; [inl msg] is a [JSONDecodeError] whose text is [msg] *)
  json_loads : string → string + value;
  (** the keys of a dictionary in iteration order *)
  dict_keys : gmap string value → list string
}.

(** The dataclasses derived from [TypeConstraint]. *)
Inductive TypeConstraint : Type :=
| Str (max min : option Z) (pattern : option string)
| Int (min max : option Z)
| Float (min max : option float) (precision : option Z)
| Bool
| Code (language : string)
| List_ (item_type : option TypeConstraint) (min_items max_items exact_items : option Z)
| Optional_ (inner_type : TypeConstraint)
| Enum_ (choices : list string).

(** [isinstance(type_constraint, Optional_)] *)
Definition is_Optional (t : TypeConstraint) : bool :=
  match t with
  | Optional_ _ => true
  | _ => false
  end.

(** [v is None] *)
Definition is_None (v : value) : bool :=
  match v with
  | VNone => true
  | _ => false
  end.

(** [v == s] for a string literal [s]: only an equal string compares equal. *)
Definition eq_str (v : value) (s : string) : bool :=
  match v with
  | VStr t => String.eqb t s
  | _ => false
  end.

(** [type(v).__name__] *)
Definition type_name (v : value) : string :=
  match v with
  | VNone => "NoneType"
  | VBool _ => "bool"
  | VInt _ => "int"
  | VFloat _ => "float"
  | VStr _ => "str"
  | VList _ => "list"
  | VDict _ => "dict"
  end.

(** [s.lower()] *)
Definition lower_char (c : ascii) : ascii :=
  if between 65 90 c || between 192 214 c || between 216 222 c
  then ascii_of_N (code_point c + 32)
  else c.

Fixpoint lower (s : string) : string :=
  match s with
  | EmptyString => EmptyString
  | String c s' => String (lower_char c) (lower s')
  end.

(** A numeric attribute [b] used as [b and test(b)]: unset and zero are both
    falsy. *)
Definition set_and (b : option Z) (test : Z → bool) : bool :=
  match b with
  | Some n => negb (n =? 0)%Z && test n
  | None => false
  end.

(** A numeric attribute [b] used as [b is not None and test(b)]. *)
Definition given_and (b : option Z) (test : Z → bool) : bool :=
  match b with
  | Some n => test n
  | None => false
  end.

(** The truthiness of a numeric attribute. *)
Definition truthy (b : option Z) : bool := set_and b (λ _, true).

(** [all(f(item) for item in items)] *)
Fixpoint py_all (f : value → result bool) (items : list value) : result bool :=
  match items with
  | [] => Ok true
  | item :: rest => b ← f item; if b : bool then py_all f rest else Ok false
  end.

(** [[f(item) for item in items]] *)
Fixpoint py_map (f : value → result value) (items : list value) : result (list value) :=
  match items with
  | [] => Ok []
  | item :: rest => v ← f item; vs ← py_map f rest; Ok (v :: vs)
  end.

Definition len (s : string) : Z := Z.of_nat (String.length s).

Section Engine.

Context `{Runtime}.

(** [str(v)] *)
Definition py_str (v : value) : string :=
  match v with
  | VStr s => s
  | _ => repr v
  end.

(** [int(v)] *)
Definition py_int (v : value) : result Z :=
  match v with
  | VInt n => Ok n
  | VBool b => Ok (if b then 1 else 0)%Z
  | VFloat x => int_of_float x
  | VStr s => from_option Ok (Raise ValueError) (int_of_str s)
  | VNone | VList _ | VDict _ => Raise TypeError
  end.

(** [float(v)] *)
Definition py_float (v : value) : result float :=
  match v with
  | VFloat x => Ok x
  | VInt n => from_option Ok (Raise OverflowError) (float_of_int n)
  | VBool b => Ok (if b then 1 else 0)%float
  | VStr s => from_option Ok (Raise ValueError) (float_of_str s)
  | VNone | VList _ | VDict _ => Raise TypeError
  end.

(** [bool(v)] *)
Definition py_bool (v : value) : bool :=
  match v with
  | VNone => false
  | VBool b => b
  | VInt n => negb (n =? 0)%Z
  | VFloat x => negb (PrimFloat.eqb x 0)
  | VStr s => negb (is_empty s)
  | VList items => negb (bool_decide (items = []))
  | VDict entries => negb (bool_decide (dict_keys entries = []))
  end.

(** Iterating over a value, as a comprehension or [list(v)] does. *)
Definition py_iter (v : value) : result (list value) :=
  match v with
  | VList items => Ok items
  | VStr s => Ok ((λ c, VStr (String c EmptyString)) <$> list_ascii_of_string s)
  | VDict entries => Ok (VStr <$> dict_keys entries)
  | VNone | VBool _ | VInt _ | VFloat _ => Raise TypeError
  end.

(** The [try] of [Int.validate] and [Float.validate]: [ValueError] and
    [TypeError] are caught, anything else propagates. *)
Definition caught (e : exn) : bool :=
  match e with
  | ValueError | TypeError => true
  | _ => false
  end.

(** *** [to_prompt] *)

Fixpoint to_prompt (t : TypeConstraint) : string :=
  match t with
  | Str max min _ =>
      join " "
        (["text"]
         ++ (if truthy max then ["(maximum " +:+ str_of_Z (default 0%Z max) +:+ " characters)"] else [])
         ++ (if truthy min then ["(minimum " +:+ str_of_Z (default 0%Z min) +:+ " characters)"] else []))
  | Int min max =>
      join " "
        ("integer number" ::
         match min, max with
         | Some lo, Some hi => ["(between " +:+ str_of_Z lo +:+ " and " +:+ str_of_Z hi +:+ ")"]
         | Some lo, None => ["(minimum " +:+ str_of_Z lo +:+ ")"]
         | None, Some hi => ["(maximum " +:+ str_of_Z hi +:+ ")"]
         | None, None => []
         end)
  | Float _ _ precision =>
      join " "
        ("decimal number" ::
         (if truthy precision
          then ["(to " +:+ str_of_Z (default 0%Z precision) +:+ " decimal places)"] else []))
  | Bool => "boolean (true/false)"
  | Code language => "code in " +:+ language +:+ " (just the code, no markdown fences)"
  | List_ item_type min_items max_items exact_items =>
      join " "
        ("list" ::
         (if truthy exact_items then
            ["of exactly " +:+ str_of_Z (default 0%Z exact_items) +:+ " items"]
          else if truthy min_items && truthy max_items then
            ["of " +:+ str_of_Z (default 0%Z min_items) +:+ "-"
               +:+ str_of_Z (default 0%Z max_items) +:+ " items"]
          else if truthy min_items then
            ["of at least " +:+ str_of_Z (default 0%Z min_items) +:+ " items"]
          else if truthy max_items then
            ["of at most " +:+ str_of_Z (default 0%Z max_items) +:+ " items"]
          else [])
         ++ match item_type with
            | Some item => ["where each item is " +:+ to_prompt item]
            | None => []
            end)
  | Optional_ inner_type => to_prompt inner_type +:+ " (or null if not applicable)"
  | Enum_ choices => "one of: " +:+ join ", " choices
  end.

(** *** [validate] *)

Definition Str_validate (max min : option Z) (pattern : option string)
    (v : value) : result bool :=
  match v with
  | VStr s =>
      if set_and max (λ m, len s >? m)%Z then Ok false
      else if set_and min (λ m, len s <? m)%Z then Ok false
      else
        match pattern with
        | Some p => if is_empty p then Ok true else re_match p s
        | None => Ok true
        end
  | _ => Ok false
  end.

Definition Int_validate (min max : option Z) (v : value) : result bool :=
  match py_int v with
  | Ok n =>
      if given_and min (λ m, n <? m)%Z then Ok false
      else if given_and max (λ m, n >? m)%Z then Ok false
      else Ok true
  | Raise e => if caught e then Ok false else Raise e
  end.

Definition Float_validate (min max : option float) (precision : option Z)
    (v : value) : result bool :=
  match py_float v with
  | Ok _ => Ok true
  | Raise e => if caught e then Ok false else Raise e
  end.

Definition Bool_validate (v : value) : result bool :=
  match v with
  | VBool _ => Ok true
  | VStr s => Ok (bool_decide (lower s ∈ ["true"; "false"; "yes"; "no"; "1"; "0"]))
  | _ => Ok false
  end.

Definition Code_validate (v : value) : result bool :=
  match v with
  | VStr _ => Ok true
  | _ => Ok false
  end.

Fixpoint validate (t : TypeConstraint) (v : value) : result bool :=
  match t with
  | Str max min pattern => Str_validate max min pattern v
  | Int min max => Int_validate min max v
  | Float min max precision => Float_validate min max precision v
  | Bool => Bool_validate v
  | Code _ => Code_validate v
  | List_ item_type min_items max_items exact_items =>
      match v with
      | VList items =>
          let n := Z.of_nat (length items) in
          if set_and exact_items (λ k, negb (n =? k))%Z then Ok false
          else if set_and min_items (λ k, n <? k)%Z then Ok false
          else if set_and max_items (λ k, n >? k)%Z then Ok false
          else
            match item_type with
            | Some item => py_all (validate item) items
            | None => Ok true
            end
      | _ => Ok false
      end
  | Optional_ inner_type =>
      match v with
      | VNone => Ok true
      | _ => validate inner_type v
      end
  | Enum_ choices => Ok (bool_decide (py_str v ∈ choices))
  end.

(** *** [parse] *)

Definition Str_parse (max : option Z) (v : value) : result value :=
  let s := py_str v in
  if set_and max (λ m, len s >? m)%Z
  then Ok (VStr (slice_to s (default 0%Z max - 3) +:+ "..."))
  else Ok (VStr s).

Definition Int_parse (v : value) : result value := VInt <$> py_int v.

Definition Float_parse (precision : option Z) (v : value) : result value :=
  x ← py_float v;
  if truthy precision then Ok (VFloat (round_to x (default 0%Z precision)))
  else Ok (VFloat x).

Definition Bool_parse (v : value) : result value :=
  match v with
  | VBool b => Ok (VBool b)
  | VStr s => Ok (VBool (bool_decide (lower s ∈ ["true"; "yes"; "1"])))
  | _ => Ok (VBool (py_bool v))
  end.

Definition Code_parse (v : value) : result value :=
  let s := py_str v in
  let s := re_sub "^```\w*\n?" "" s in
  let s := re_sub "\n?```$" "" s in
  Ok (VStr (strip s)).

(** The first statement of [List_.parse]: a string is decoded as JSON, or
    else split at newlines and commas. *)
Definition List_decode (v : value) : value :=
  match v with
  | VStr s =>
      match json_loads s with
      | inr decoded => decoded
      | inl _ =>
          VList (VStr <$> filter (λ p, is_empty p = false)
                   (strip <$> split_where (λ c, (c =? newline)%char || (c =? ",")%char) s))
      end
  | _ => v
  end.

Fixpoint parse (t : TypeConstraint) (v : value) : result value :=
  match t with
  | Str max _ _ => Str_parse max v
  | Int _ _ => Int_parse v
  | Float _ _ precision => Float_parse precision v
  | Bool => Bool_parse v
  | Code _ => Code_parse v
  | List_ item_type _ _ _ =>
      items ← py_iter (List_decode v);
      match item_type with
      | Some item => VList <$> py_map (parse item) items
      | None => Ok (VList items)
      end
  | Optional_ inner_type =>
      if is_None v || eq_str v "null" || eq_str v ""
      then Ok VNone
      else parse inner_type v
  | Enum_ _ => Ok (VStr (py_str v))
  end.

(** *** [OutputContract.parse_response] *)

(** The loop over [self.schema.items()] of lines 392-408, from the fields
    still to process and the [result] dictionary built so far. *)
Fixpoint parse_fields (schema : list (string * TypeConstraint))
    (data res : gmap string value) : result (gmap string value) :=
  match schema with
  | [] => Ok res
  | (name, type_constraint) :: later =>
      match data !! name with
      | None =>
          if is_Optional type_constraint
          then parse_fields later data (<[name := VNone]> res)
          else Raise (ContractError ("Missing required field: " +:+ name))
      | Some v =>
          valid ← validate type_constraint v;
          if valid : bool then
            parsed ← parse type_constraint v;
            parse_fields later data (<[name := parsed]> res)
          else
            Raise (ContractError
                     ("Field '" +:+ name +:+ "' failed validation: expected "
                      +:+ to_prompt type_constraint +:+ ", got " +:+ repr v))
      end
  end.

(** Lines 376-381: the response trimmed and freed of its code fence. *)
Definition unfence (response : string) : string :=
  let response := strip response in
  match strip_prefix "```" response with
  | Some _ => re_sub "\n?```$" "" (re_sub "^```\w*\n?" "" response)
  | None => response
  end.

Definition parse_response (schema : list (string * TypeConstraint))
    (response : string) : result (gmap string value) :=
  match json_loads (unfence response) with
  | inl e => Raise (ContractError ("Response is not valid JSON: " +:+ e))
  | inr (VDict data) => parse_fields schema data ∅
  | inr other =>
      Raise (ContractError ("Response must be a JSON object, got " +:+ type_name other))
  end.

(** A field of the schema is processed without error when it is absent and
    optional, or present, valid and parsed. *)
Definition field_passes (data : gmap string value)
    (field : string * TypeConstraint) : Prop :=
  match data !! field.1 with
  | None => is_Optional field.2 = true
  | Some v => validate field.2 v = Ok true ∧ ∃ parsed, parse field.2 v = Ok parsed
  end.

End Engine.

(** *** [OutputContract.to_prompt_instructions] *)

Definition to_prompt_instructions (schema : list (string * TypeConstraint)) : string :=
  let lines := ["Respond with a JSON object containing exactly these fields:"; ""] in
  let lines :=
    lines ++ ((λ '(name, type_constraint),
                 "- " +:+ String dquote name +:+ String dquote ": "
                 +:+ to_prompt type_constraint)
              <$> schema) in
  let lines := lines ++ [""; "Return ONLY the JSON object, no other text or markdown."] in
  join (String newline "") lines.

(** *** Notions used to state the properties of the engine *)

(** A bound with the value 0 replaced by no bound. *)
Definition unset_zero (b : option Z) : option Z :=
  match b with
  | Some 0%Z => None
  | _ => b
  end.

(** A constraint with every zero bound of a [Str] or of a [List_] unset, at
    any depth. *)
Fixpoint relax (t : TypeConstraint) : TypeConstraint :=
  match t with
  | Str max min pattern => Str (unset_zero max) (unset_zero min) pattern
  | List_ item_type min_items max_items exact_items =>
      List_ (match item_type with
             | Some item => Some (relax item)
             | None => None
             end)
        (unset_zero min_items) (unset_zero max_items) (unset_zero exact_items)
  | Optional_ inner_type => Optional_ (relax inner_type)
  | _ => t
  end.

(** The same with the zero bounds of an [Int] unset as well. *)
Fixpoint relax_all (t : TypeConstraint) : TypeConstraint :=
  match t with
  | Str max min pattern => Str (unset_zero max) (unset_zero min) pattern
  | Int min max => Int (unset_zero min) (unset_zero max)
  | List_ item_type min_items max_items exact_items =>
      List_ (match item_type with
             | Some item => Some (relax_all item)
             | None => None
             end)
        (unset_zero min_items) (unset_zero max_items) (unset_zero exact_items)
  | Optional_ inner_type => Optional_ (relax_all inner_type)
  | _ => t
  end.

(** The Python type that a constraint stands for: [w] is a value of it. *)
Fixpoint shaped (t : TypeConstraint) (w : value) : bool :=
  match t, w with
  | (Str _ _ _ | Code _ | Enum_ _), VStr _ => true
  | Int _ _, VInt _ => true
  | Float _ _ _, VFloat _ => true
  | Bool, VBool _ => true
  | List_ None _ _ _, VList _ => true
  | List_ (Some item) _ _ _, VList items => forallb (shaped item) items
  | Optional_ inner, _ => is_None w || shaped inner w
  | _, _ => false
  end.

(** The constraints made of [Str] and of lists. *)
Fixpoint textual (t : TypeConstraint) : bool :=
  match t with
  | Str _ _ _ => true
  | List_ None _ _ _ => true
  | List_ (Some item) _ _ _ => textual item
  | _ => false
  end.

(** What a constraint promises about a field of a result: the bounds that
    are enforced, that is those of [Int] and the non-zero ones of [Str] and
    [List_]; the pattern; the choices.  A [Float] promises a float and no
    range. *)
Fixpoint conforms `{Runtime} (t : TypeConstraint) (w : value) : Prop :=
  match t with
  | Str max min pattern =>
      ∃ s, w = VStr s
           ∧ (∀ m, max = Some m → m ≠ 0 → len s ≤ m)%Z
           ∧ (∀ m, min = Some m → m ≠ 0 → m ≤ len s)%Z
           ∧ (∀ p, pattern = Some p → p ≠ "" → re_match p s = Ok true)
  | Int min max =>
      ∃ n, w = VInt n
           ∧ (∀ m, min = Some m → m ≤ n)%Z ∧ (∀ m, max = Some m → n ≤ m)%Z
  | Float _ _ _ => ∃ x, w = VFloat x
  | Bool => ∃ b, w = VBool b
  | Code _ => ∃ s, w = VStr s ∧ strip s = s
  | List_ item_type min_items max_items exact_items =>
      ∃ items, w = VList items
               ∧ (∀ k, exact_items = Some k → k ≠ 0 → Z.of_nat (length items) = k)%Z
               ∧ (∀ k, min_items = Some k → k ≠ 0 → k ≤ Z.of_nat (length items))%Z
               ∧ (∀ k, max_items = Some k → k ≠ 0 → Z.of_nat (length items) ≤ k)%Z
               ∧ match item_type with
                 | Some item => Forall (conforms item) items
                 | None => True
                 end
  | Optional_ inner_type => w = VNone ∨ conforms inner_type w
  | Enum_ choices => ∃ s, w = VStr s ∧ s ∈ choices
  end.

(** The separators at which [List_.parse] splits a text. *)
Definition list_sep (c : ascii) : bool := (c =? newline)%char || (c =? ",")%char.

(** An item of a list written as text: not empty, trimmed, and free of the
    separators. *)
Definition list_item (p : string) : Prop :=
  p ≠ "" ∧ strip p = p ∧ all_chars (λ c, negb (list_sep c)) p = true.

(** A runtime in which every conversion from text fails, no pattern matches
    and nothing decodes.  It serves to evaluate the engine on inputs that do
    not reach those primitives. *)
Definition bare_runtime : Runtime := {|
  repr := λ _, "<value>";
  int_of_str := λ _, None;
  float_of_str := λ _, None;
  float_of_int := λ _, None;
  int_of_float := λ _, Raise ValueError;
  round_to := λ x _, x;
  re_match := λ _ _, Ok false;
  re_sub := λ _ _ s, s;
  json_loads := λ _, inl "no decoder";
  dict_keys := λ entries, (map_to_list entries).*1
|}.


End Contracts.

(** ** [transpiler.py]

    [_transpile_ast] and [transpile].  A prompt is an [option]: [None]
    stands for a run that yields no prompt in this model, which is the
    [IndexError] of [chain_prompt[0]] on an empty prompt, a template on which
    [str.format] does anything else than fill in its [subject] fields, or
    an action whose capitalised form has a character above U+00FF. *)

Module Transpiler.

Import Parser.

(** *** Text primitives of the Python runtime used by the transpiler *)

(** The title-case form of a character, with which [str.capitalize] starts
    its result; [None] for the two characters of the range whose title case
    lies above U+00FF. *)
Definition title_char (c : ascii) : option string :=
  if between 97 122 c || between 224 246 c || between 248 254 c
  then Some (String (ascii_of_N (code_point c - 32)) EmptyString)
  else if is_char 223 c then Some "Ss"
  else if is_char 181 c || is_char 255 c then None
  else Some (String c EmptyString).

(** [s.capitalize()] *)
Definition capitalize (s : string) : option string :=
  match s with
  | EmptyString => Some EmptyString
  | String c rest => (λ first, first +:+ Contracts.lower rest) <$> title_char c
  end.

(** [template.format(subject=subject)] for a template whose replacement
    fields are all the field [subject] without conversion or format
    specification; doubled braces stand for a brace.  [None] for any other
    template: Python raises on some of them and formats the others in ways
    not modelled here.  Every step consumes a character of the template. *)
Fixpoint format_from (fuel : nat) (template subject : string) : option string :=
  match fuel with
  | O => None
  | S fuel' =>
      match template with
      | EmptyString => Some EmptyString
      | String c rest =>
          if (c =? "{")%char then
            match strip_prefix "subject}" rest with
            | Some after => (λ text, subject +:+ text) <$> format_from fuel' after subject
            | None =>
                match rest with
                | String "{" after => String "{" <$> format_from fuel' after subject
                | _ => None
                end
            end
          else if (c =? "}")%char then
            match rest with
            | String "}" after => String "}" <$> format_from fuel' after subject
            | _ => None
            end
          else String c <$> format_from fuel' rest subject
      end
  end.

Definition format_subject (template subject : string) : option string :=
  format_from (S (String.length template)) template subject.

(** *** The tables *)

Definition ACTION_TEMPLATES : list (string * string) :=
  [("write", "Write {subject}");
   ("rewrite", "Rewrite the following: {subject}");
   ("summarize", "Summarize {subject}");
   ("expand", "Expand on {subject} with more detail");
   ("translate", "Translate {subject}");
   ("explain", "Explain {subject}");
   ("list", "List {subject}");
   ("compare", "Compare {subject}");
   ("reply", "Write a reply to {subject}");
   ("title", "Generate a title for {subject}");
   ("img", "Generate an image of {subject}");
   ("logo", "Design a logo for {subject}");
   ("icon", "Create an icon for {subject}");
   ("diagram", "Create a diagram showing {subject}");
   ("mockup", "Create a UI mockup for {subject}");
   ("code", "Write code for {subject}");
   ("fix", "Fix the following code: {subject}");
   ("refactor", "Refactor the following code: {subject}");
   ("test", "Write tests for {subject}");
   ("review", "Review this code: {subject}");
   ("convert", "Convert this code: {subject}");
   ("api", "Design an API for {subject}");
   ("query", "Write a database query for {subject}");
   ("regex", "Create a regex pattern for {subject}");
   ("docs", "Write documentation for {subject}");
   ("analyze", "Analyze {subject}");
   ("evaluate", "Evaluate {subject}");
   ("predict", "Predict {subject}");
   ("diagnose", "Diagnose issues in {subject}");
   ("recommend", "Recommend {subject}");
   ("rank", "Rank {subject}");
   ("verify", "Verify {subject}");
   ("extract", "Extract {subject}");
   ("classify", "Classify {subject}");
   ("sentiment", "Analyze the sentiment of {subject}");
   ("brainstorm", "Brainstorm ideas for {subject}");
   ("name", "Generate names for {subject}");
   ("story", "Write a story about {subject}");
   ("joke", "Write a joke about {subject}");
   ("poem", "Write a poem about {subject}");
   ("script", "Write a script for {subject}");
   ("pitch", "Create a pitch for {subject}");
   ("slogan", "Create a slogan for {subject}");
   ("recipe", "Create a recipe for {subject}");
   ("playlist", "Create a playlist for {subject}");
   ("format", "Format {subject}");
   ("merge", "Merge {subject}");
   ("split", "Split {subject}");
   ("filter", "Filter {subject}");
   ("sort", "Sort {subject}");
   ("dedupe", "Remove duplicates from {subject}");
   ("validate", "Validate {subject}");
   ("parse", "Parse {subject}")].

Definition MUST_EXPANSIONS : list (string * string) :=
  [("short", "Keep it concise and brief.");
   ("brief", "Keep it brief.");
   ("concise", "Be concise.");
   ("detailed", "Include thorough details.");
   ("long", "Make it comprehensive and detailed.");
   ("simple", "Use simple, easy-to-understand language.");
   ("technical", "Use technical terminology.");
   ("formal", "Use a formal tone.");
   ("casual", "Use a casual, conversational tone.");
   ("professional", "Maintain a professional tone.");
   ("friendly", "Use a friendly, approachable tone.");
   ("examples", "Include examples.");
   ("typed", "Include type annotations.");
   ("tested", "Include unit tests.");
   ("commented", "Include code comments.");
   ("explained", "Explain your reasoning.");
   ("photo", "Make it photorealistic.");
   ("art", "Make it artistic/illustrated.");
   ("minimal", "Use a minimalist style.");
   ("honest", "Be honest and direct.");
   ("creative", "Be creative and original.");
   ("accurate", "Ensure accuracy.");
   ("structured", "Use a clear structure with sections.");
   ("bullets", "Format as bullet points.");
   ("numbered", "Format as a numbered list.");
   ("bare", "Return only the result, no explanations.")].

Definition PRIORITY_EXPANSIONS : list (string * string) :=
  [("speed", "Optimize for speed/performance.");
   ("fast", "Optimize for speed.");
   ("performance", "Prioritize performance.");
   ("quality", "Prioritize quality over speed.");
   ("readable", "Prioritize readability.");
   ("clarity", "Prioritize clarity.");
   ("security", "Focus on security.");
   ("memory", "Optimize for memory efficiency.");
   ("creative", "Prioritize creativity.");
   ("accuracy", "Prioritize accuracy.");
   ("seo", "Optimize for SEO.");
   ("engagement", "Optimize for engagement.");
   ("conversion", "Optimize for conversion.");
   ("cinematic", "Use cinematic composition and lighting.");
   ("detailed", "Include rich details.");
   ("vibrant", "Use vibrant colors.")].

Definition AVOID_EXPANSIONS : list (string * string) :=
  [("verbose", "Avoid being verbose.");
   ("technical", "Avoid technical jargon.");
   ("jargon", "Avoid jargon.");
   ("emoji", "Do not use emojis.");
   ("text", "Do not include text in the image.");
   ("generic", "Avoid generic or clich" +:+ String "233" " approaches.");
   ("boring", "Don't be boring.");
   ("repetitive", "Avoid repetition.");
   ("complex", "Avoid unnecessary complexity.");
   ("deps", "Avoid external dependencies.");
   ("offensive", "Avoid offensive content.")].

(** *** [_transpile_ast] *)

(** The sentence for a specifier (lines 178-188). *)
Definition specifier_sentence (action spec : string) : string :=
  if bool_decide (action ∈ ["code"; "convert"; "query"]) then "Use " +:+ spec +:+ "."
  else if String.eqb action "translate" then "Translate to " +:+ spec +:+ "."
  else if String.eqb action "img" then "Style: " +:+ spec +:+ "."
  else if isdigit spec then "Provide " +:+ spec +:+ " items."
  else "Format: " +:+ spec +:+ ".".

(** The sentences for the modifiers (lines 191-219). *)
Definition must_sentence (modifier : string) : string :=
  match assoc modifier MUST_EXPANSIONS with
  | Some text => text
  | None =>
      if startswith "under_" modifier
      then "Keep it under " +:+ replace "under_" "" modifier +:+ " characters."
      else "Must be " +:+ modifier +:+ "."
  end.

Definition maybe_sentence (modifier : string) : string :=
  match assoc modifier MUST_EXPANSIONS with
  | Some text => "If possible, " +:+ Contracts.lower text
  | None => "Optionally, make it " +:+ modifier +:+ "."
  end.

Definition priority_sentence (modifier : string) : string :=
  match assoc modifier PRIORITY_EXPANSIONS with
  | Some text => text
  | None => "Prioritize " +:+ modifier +:+ "."
  end.

Definition avoid_sentence (modifier : string) : string :=
  match assoc modifier AVOID_EXPANSIONS with
  | Some text => text
  | None => "Avoid " +:+ modifier +:+ "."
  end.

(** The template of an action (line 167): the one of the table, or else the
    capitalised action followed by the [subject] field. *)
Definition template_of (action : string) : option string :=
  match assoc action ACTION_TEMPLATES with
  | Some template => Some template
  | None => (λ name, name +:+ " {subject}") <$> capitalize action
  end.

(** The subject with the variables replaced, one after the other in the
    order of [variables] (lines 171-172). *)
Definition substitute (variables : list (string * string)) (subject : string) : string :=
  foldl (λ subject '(var_name, var_value),
           replace ("{" +:+ var_name +:+ "}") var_value subject)
        subject variables.

(** The base sentence (line 174). *)
Definition base_of (template subject : string) : option string :=
  if is_empty subject then Some (replace " {subject}" "" template)
  else format_subject template subject.

(** The sentences appended after the base sentence, but for the chain
    (lines 178-223). *)
Definition sentences (ast : AILangAST) : list string :=
  (specifier_sentence (action ast) <$> specifiers ast)
  ++ (must_sentence <$> must ast)
  ++ (maybe_sentence <$> maybe ast)
  ++ (priority_sentence <$> priority ast)
  ++ (avoid_sentence <$> avoid ast)
  ++ (if bool_decide (parallel ast = []) then []
      else ["Also provide: " +:+ join ", " (parallel ast) +:+ "."]).

(** The sentence of the persona (lines 163-164). *)
Definition introduction (ast : AILangAST) : list string :=
  match persona ast with
  | Some who => if is_empty who then [] else ["You are " +:+ who +:+ "."]
  | None => []
  end.

(** The prompt of the chain with its first character in lower case
    (line 228); [None] is the [IndexError] on an empty prompt. *)
Definition lower_first (s : string) : option string :=
  match s with
  | EmptyString => None
  | String c rest => Some (String (Contracts.lower_char c) rest)
  end.

Fixpoint _transpile_ast (ast : AILangAST) (variables : list (string * string))
    : option string :=
  template ← template_of (action ast);
  base ← base_of template (substitute variables (subject ast));
  let parts := introduction ast ++ [base] ++ sentences ast in
  match chain ast with
  | Some next =>
      chain_prompt ← _transpile_ast next variables;
      rest ← lower_first chain_prompt;
      Some (join " " (parts ++ ["Then, " +:+ rest]))
  | None => Some (join " " parts)
  end.

(** *** [transpile] *)

Definition transpile (command : string) (variables : list (string * string))
    : option (result string) :=
  r ← parse command;
  match r with
  | Ok ast => Ok <$> _transpile_ast ast variables
  | Raise e => Some (Raise e)
  end.

(** *** Notions used to state the properties of the transpiler *)



(** The sentence that a persona puts before a prompt, with the space that
    follows it. *)
Definition opening (who : option string) : string :=
  match who with
  | Some name => if is_empty name then "" else "You are " +:+ name +:+ ". "
  | None => ""
  end.

(** The prompts of the nodes of a chain put together: each prompt after
    the first starts in lower case after [Then, ]. *)
Fixpoint then_link (prompts : list string) : option string :=
  match prompts with
  | [] => None
  | [prompt] => Some prompt
  | prompt :: later =>
      rest ← then_link later;
      rest ← lower_first rest;
      Some (prompt +:+ " Then, " +:+ rest)
  end.

End Transpiler.

(** ** [core.py]: [AILANG.ask_async] *)

Module Core.

Import Contracts.




Section Ask.

Context `{Runtime}.

(** The provider: [complete prompt] answers with a response or raises, and
    leaves the provider in a new state. *)
Context {Provider : Type} (complete : string → Provider → result string * Provider).




End Ask.


End Core.

(** * Properties

    ** The text primitives *)

Module TextFacts.

Section Strings.

Implicit Types (s t : string) (c : ascii) (p : ascii → bool).

Lemma append_nil_l s : "" +:+ s = s.
Proof. reflexivity. Qed.

Lemma append_cons c s t : String c s +:+ t = String c (s +:+ t).
Proof. reflexivity. Qed.

Lemma append_nil_r s : s +:+ "" = s.
Proof. induction s as [|c s IH]; [done | by rewrite append_cons, IH]. Qed.

Lemma append_assoc s t u : (s +:+ t) +:+ u = s +:+ t +:+ u.
Proof. induction s as [|c s IH]; [done | by rewrite !append_cons, IH]. Qed.

Lemma length_append s t : String.length (s +:+ t) = String.length s + String.length t.
Proof. induction s as [|c s IH]; [done | by rewrite append_cons; simpl; rewrite IH]. Qed.

Lemma is_empty_true s : is_empty s = true ↔ s = "".
Proof. destruct s; simpl; split; congruence. Qed.

Lemma is_empty_false s : is_empty s = false ↔ s ≠ "".
Proof. destruct s; simpl; split; congruence. Qed.

Lemma all_chars_app p s t :
  all_chars p (s +:+ t) = all_chars p s && all_chars p t.
Proof.
  induction s as [|c s IH]; [done|].
  rewrite append_cons. simpl. by rewrite IH, andb_assoc.
Qed.

(** [span] cuts its argument in two, the first part made of characters
    satisfying [p] and the second not starting with one. *)
Lemma span_spec p s :
  s = (span p s).1 +:+ (span p s).2
  ∧ all_chars p (span p s).1 = true
  ∧ head_is p (span p s).2 = false.
Proof.
  induction s as [|c s IH]; simpl; [done|].
  destruct (p c) eqn:Hc.
  - destruct (span p s) as [run rest]; simpl in *.
    destruct IH as (Hs & Hr & Ht).
    by rewrite append_cons, <- Hs, Hc, Hr, Ht.
  - simpl. by rewrite Hc.
Qed.

(** Conversely, such a cut is the one [span] computes. *)
Lemma span_app p s t :
  all_chars p s = true → head_is p t = false → span p (s +:+ t) = (s, t).
Proof.
  intros Hs Ht. induction s as [|c s IH].
  - rewrite append_nil_l. destruct t as [|d t]; simpl in *; [done | by rewrite Ht].
  - simpl in Hs. apply andb_true_iff in Hs as [Hc Hs]. rewrite append_cons. simpl.
    by rewrite Hc, IH.
Qed.

Lemma span_head p s : is_empty (span p s).1 = negb (head_is p s).
Proof.
  destruct s as [|c s]; simpl; [done|].
  destruct (p c); [by destruct (span p s) | done].
Qed.

Lemma lstrip_head s : head_is is_space (lstrip s) = false.
Proof.
  induction s as [|c s IH]; simpl; [done|].
  destruct (is_space c) eqn:Hc; simpl; [done | by rewrite Hc].
Qed.

Lemma lstrip_id s : head_is is_space s = false → lstrip s = s.
Proof. destruct s as [|c s]; simpl; [done | by intros ->]. Qed.

Lemma rstrip_head s : head_is is_space s = false → head_is is_space (rstrip s) = false.
Proof.
  destruct s as [|c s]; simpl; [done|]. intros Hc.
  destruct (rstrip s); simpl; by rewrite Hc.
Qed.

Lemma rstrip_last s c : last_char (rstrip s) = Some c → is_space c = false.
Proof.
  revert c. induction s as [|a s IH]; simpl; intros c; [done|].
  destruct (rstrip s) as [|b r] eqn:Hr.
  - destruct (is_space a) eqn:Ha; simpl; [done | congruence].
  - intros Hc. apply IH. by destruct r.
Qed.

Lemma rstrip_id s :
  (∀ c, last_char s = Some c → is_space c = false) → rstrip s = s.
Proof.
  induction s as [|a s IH]; simpl; intros Hl; [done|].
  destruct s as [|b s].
  - simpl. by rewrite (Hl a).
  - rewrite IH by done. done.
Qed.

(** The result of [strip] has no white space at either end. *)
Lemma strip_trimmed s :
  head_is is_space (strip s) = false
  ∧ ∀ c, last_char (strip s) = Some c → is_space c = false.
Proof.
  split.
  - apply rstrip_head, lstrip_head.
  - apply rstrip_last.
Qed.

Lemma strip_id s :
  head_is is_space s = false →
  (∀ c, last_char s = Some c → is_space c = false) → strip s = s.
Proof. intros Hh Hl. unfold strip. rewrite lstrip_id by done. by apply rstrip_id. Qed.

Lemma strip_idemp s : strip (strip s) = strip s.
Proof. destruct (strip_trimmed s). by apply strip_id. Qed.

Lemma length_str_take n s : String.length (str_take n s) = n `min` String.length s.
Proof.
  revert s. induction n as [|n IH]; intros [|c s]; simpl; try done.
  by rewrite IH.
Qed.

End Strings.

End TextFacts.

(** ** The parser *)

Module ParserFacts.

Import Parser TextFacts.

Section SingleCommand.

Lemma parse_single_bad command :
  head_is is_word command = false →
  _parse_single command = Raise (ParseError ("Could not find action in: " +:+ command)).
Proof.
  intros Hh. unfold _parse_single.
  pose proof (span_head is_word command) as He.
  destruct (span is_word command) as [w after]; simpl in He.
  by rewrite He, Hh.
Qed.

Lemma parse_single_good command :
  head_is is_word command = true →
  ∃ ast, _parse_single command = Ok ast ∧ action ast = (span is_word command).1.
Proof.
  intros Hh. unfold _parse_single.
  pose proof (span_head is_word command) as He.
  destruct (span is_word command) as [w after]; simpl in He.
  rewrite He, Hh. simpl.
  destruct (take_subject (strip after)) as [subj rest]. eauto.
Qed.

End SingleCommand.

(** C6.  [_parse_single] raises exactly when the segment does not start with
    a word character, the empty segment included, and what it raises is the
    [ParseError] naming the segment.  When the segment starts with a word
    character it returns a node whose [action] is the longest leading run of
    word characters: the segment is that action followed by a text that does
    not start with a word character.  Any such run is accepted, no list of
    known actions is consulted. *)
Theorem parse_single_action (command : string) :
  ((∃ e, _parse_single command = Raise e) ↔ head_is is_word command = false)
  ∧ (head_is is_word command = false →
     _parse_single command
     = Raise (ParseError ("Could not find action in: " +:+ command)))
  ∧ (head_is is_word command = true →
     ∃ ast rest,
       _parse_single command = Ok ast
       ∧ command = action ast +:+ rest
       ∧ action ast ≠ ""
       ∧ all_chars is_word (action ast) = true
       ∧ head_is is_word rest = false).
Proof.
  split; [|split].
  - split.
    + intros [e He]. destruct (head_is is_word command) eqn:Hh; [|done].
      destruct (parse_single_good command Hh) as (ast & Hast & _). congruence.
    + intros Hh. eexists. by apply parse_single_bad.
  - apply parse_single_bad.
  - intros Hh. destruct (parse_single_good command Hh) as (ast & Hast & Hact).
    destruct (span_spec is_word command) as (Hcut & Hall & Hrest).
    exists ast, (span is_word command).2. rewrite Hact.
    repeat split; try done.
    apply is_empty_false. by rewrite span_head, Hh.
Qed.

Section SplitChain.

Implicit Types (s t command : string) (c : ascii) (st : scanner) (prev : option ascii).


Lemma last_char_cons c s : ∃ x, last_char (String c s) = Some x.
Proof.
  revert c. induction s as [|a s IH]; intros c; [by exists c|].
  destruct (IH a) as [x Hx]. exists x. by rewrite <- Hx.
Qed.

Lemma last_or_cons prev c s : last_or prev (String c s) = last_or (Some c) s.
Proof.
  unfold last_or. destruct s as [|a s]; [done|].
  destruct (last_char_cons a s) as [x Hx].
  change (last_char (String c (String a s))) with (last_char (String a s)).
  by rewrite Hx.
Qed.

Lemma scan_app prev st s t :
  scan prev st (s +:+ t) = scan (last_or prev s) (scan prev st s) t.
Proof.
  revert prev st. induction s as [|c s IH]; intros prev st; [done|].
  rewrite append_cons, last_or_cons. simpl. apply IH.
Qed.

Lemma str_take_all s : str_take (String.length s) s = s.
Proof. induction s as [|c s IH]; simpl; [done | by rewrite IH]. Qed.

Lemma str_take_ge n s : String.length s ≤ n → str_take n s = s.
Proof.
  revert n. induction s as [|c s IH]; intros [|n] Hn; simpl in *; try done; try lia.
  rewrite IH; [done | lia].
Qed.

Lemma str_take_snoc i s c :
  String.get i s = Some c → str_take (S i) s = str_take i s +:+ String c "".
Proof.
  revert i. induction s as [|a s IH]; intros [|i] Hg; simpl in Hg; try done.
  - by inversion Hg.
  - change (str_take (S (S i)) (String a s)) with (String a (str_take (S i) s)).
    change (str_take (S i) (String a s)) with (String a (str_take i s)).
    rewrite append_cons. f_equal. by apply IH.
Qed.

Lemma get_none i s : String.get i s = None → String.length s ≤ i.
Proof.
  revert i. induction s as [|a s IH]; intros [|i] Hg; simpl in *; try done; try lia.
  specialize (IH i Hg). lia.
Qed.

Lemma str_take_app_l n s t : str_take (String.length s + n) (s +:+ t) = s +:+ str_take n t.
Proof. induction s as [|c s IH]; [done|]. rewrite !append_cons. simpl. by rewrite IH. Qed.

Lemma str_take_app_le n s t : n ≤ String.length s → str_take n (s +:+ t) = str_take n s.
Proof.
  revert n. induction s as [|c s IH]; intros [|n] Hn; simpl in Hn; try lia.
  - done.
  - by rewrite append_cons.
  - rewrite append_cons. simpl. rewrite IH; [done | lia].
Qed.

Lemma all_chars_take p n s : all_chars p s = true → all_chars p (str_take n s) = true.
Proof.
  revert n. induction s as [|c s IH]; intros [|n] Hs; simpl in *; try done.
  apply andb_true_iff in Hs as [-> Hs]. by apply IH.
Qed.

(** One step of the loop either leaves [parts] alone or closes the current
    segment, and it closes it only on a [>] read at depth zero outside
    quotes. *)
Lemma scan_step_parts prev st c :
  parts (scan_step prev st c) = parts st
  ∨ (c = ">"%char ∧ depth st = 0%Z ∧ in_quotes st = false
     ∧ parts (scan_step prev st c) = parts st ++ [strip (current st)]).
Proof.
  unfold scan_step.
  destruct ((c =? dquote)%char && unescaped prev); [by left|].
  destruct (is_opener c && negb (in_quotes st)); [by left|].
  destruct (is_closer c && negb (in_quotes st)); [by left|].
  destruct ((c =? ">")%char && (depth st =? 0)%Z && negb (in_quotes st)) eqn:Hgt;
    [|by left].
  right. apply andb_true_iff in Hgt as [Hgt Hq].
  apply andb_true_iff in Hgt as [Hc Hd].
  apply Ascii.eqb_eq in Hc. apply Z.eqb_eq in Hd. apply negb_true_iff in Hq.
  done.
Qed.

(** A character other than the double quote leaves the quote flag alone. *)
Lemma scan_step_in_quotes prev st c :
  (c =? dquote)%char = false → in_quotes (scan_step prev st c) = in_quotes st.
Proof.
  intros Hc. unfold scan_step. rewrite Hc. simpl.
  by repeat match goal with |- context [if ?b then _ else _] => destruct b end.
Qed.

Lemma scan_in_quotes prev st s :
  all_chars (λ x, negb (x =? dquote)%char) s = true →
  in_quotes (scan prev st s) = in_quotes st.
Proof.
  revert prev st. induction s as [|c s IH]; intros prev st Hs; simpl in *; [done|].
  apply andb_true_iff in Hs as [Hc Hs]. apply negb_true_iff in Hc.
  rewrite IH by done. by apply scan_step_in_quotes.
Qed.

(** The state after [S i] characters is one step away from the state after
    [i] characters. *)
Lemma state_at_S command i c :
  String.get i command = Some c →
  state_at command (S i)
  = scan_step (last_or None (str_take i command)) (state_at command i) c.
Proof.
  intros Hg. unfold state_at. rewrite (str_take_snoc _ _ _ Hg). by rewrite scan_app.
Qed.

Lemma state_at_parts command i :
  parts (state_at command (S i)) = parts (state_at command i)
  ∨ (String.get i command = Some ">"%char
     ∧ depth (state_at command i) = 0%Z
     ∧ in_quotes (state_at command i) = false
     ∧ parts (state_at command (S i))
       = parts (state_at command i) ++ [strip (current (state_at command i))]).
Proof.
  destruct (String.get i command) as [c|] eqn:Hg.
  - rewrite (state_at_S _ _ _ Hg).
    destruct (scan_step_parts (last_or None (str_take i command)) (state_at command i) c)
      as [Hsame | (-> & Hd & Hq & Hp)]; [by left | by right].
  - left. apply get_none in Hg. unfold state_at.
    rewrite !str_take_ge by lia. done.
Qed.

Lemma split_chain_parts command :
  ∃ tail, _split_chain command
          = parts (state_at command (String.length command)) ++ tail
          ∧ length tail ≤ 1.
Proof.
  unfold _split_chain, state_at. rewrite str_take_all.
  destruct (is_empty _).
  - exists []. rewrite app_nil_r. split; [done | simpl; lia].
  - eexists [_]. split; [done | simpl; lia].
Qed.

(** Inside a quoted literal the quote flag is set. *)
Lemma state_at_quoted pre body post k :
  in_quotes (scan None scan_start pre) = false →
  unescaped (last_char pre) = true →
  all_chars (λ x, negb (x =? dquote)%char) body = true →
  k ≤ String.length body →
  in_quotes (state_at (pre +:+ String dquote body +:+ post) (String.length pre + S k))
  = true.
Proof.
  intros Hpre Hesc Hbody Hk. unfold state_at.
  rewrite str_take_app_l. simpl. rewrite scan_app. simpl.
  rewrite str_take_app_le by done.
  rewrite scan_in_quotes by by apply all_chars_take.
  unfold scan_step.
  assert (unescaped (last_or None pre) = true) as ->.
  { unfold last_or. by destruct (last_char pre). }
  rewrite Ascii.eqb_refl. simpl. by rewrite Hpre.
Qed.

Lemma scan_step_trimmed prev st c :
  Forall (λ seg, strip seg = seg) (parts st) →
  Forall (λ seg, strip seg = seg) (parts (scan_step prev st c)).
Proof.
  intros Hst.
  destruct (scan_step_parts prev st c) as [-> | (_ & _ & _ & ->)]; [done|].
  apply Forall_app. split; [done|]. apply Forall_singleton, strip_idemp.
Qed.

Lemma scan_trimmed prev st s :
  Forall (λ seg, strip seg = seg) (parts st) →
  Forall (λ seg, strip seg = seg) (parts (scan prev st s)).
Proof.
  revert prev st. induction s as [|c s IH]; intros prev st Hst; simpl; [done|].
  by apply IH, scan_step_trimmed.
Qed.

Lemma split_chain_trimmed command :
  Forall (λ seg, strip seg = seg) (_split_chain command).
Proof.
  unfold _split_chain.
  assert (Forall (λ seg, strip seg = seg) (parts (scan None scan_start command))) as Hp.
  { apply scan_trimmed. constructor. }
  destruct (is_empty _); [done|].
  apply Forall_app. split; [done|]. apply Forall_singleton, strip_idemp.
Qed.

End SplitChain.


(** The segment of the first test of the parser: the action is [write]. *)
Lemma parse_single_action_witness :
  ∃ ast rest,
    _parse_single ("write " +:+ quote "hello") = Ok ast
    ∧ "write " +:+ quote "hello" = action ast +:+ rest
    ∧ action ast = "write".
Proof.
  destruct (proj2 (proj2 (parse_single_action ("write " +:+ quote "hello"))) eq_refl)
    as (ast & rest & Hast & Hcut & _).
  exists ast, rest. split; [exact Hast|]. split; [exact Hcut|].
  vm_compute in Hast. by inversion Hast.
Defined.

(** C2.  [_split_chain] closes a segment only on a [>] that the scanner reads
    outside quotes with its depth counter at zero: from one position of the
    command to the next the list of closed segments is unchanged, unless the
    character read is [>], the depth is zero and the quote flag is off, in
    which case the current segment, stripped, is appended.  The segments
    returned are those closed at the end of the command, followed by at most
    one last segment.  Inside a quoted literal the quote flag is on, so no
    position between the quotes closes a segment.  In particular the command
    [analyze Qa > bQ > fix], Q being the double quote, yields exactly the two
    segments [analyze Qa > bQ] and [fix]. *)
Theorem split_chain_respects_quotes_and_brackets :
  (∀ command i,
     parts (state_at command (S i)) = parts (state_at command i)
     ∨ (String.get i command = Some ">"%char
        ∧ depth (state_at command i) = 0%Z
        ∧ in_quotes (state_at command i) = false
        ∧ parts (state_at command (S i))
          = parts (state_at command i) ++ [strip (current (state_at command i))]))
  ∧ (∀ command, ∃ tail,
       _split_chain command = parts (state_at command (String.length command)) ++ tail
       ∧ length tail ≤ 1)
  ∧ (∀ pre body post k,
       in_quotes (scan None scan_start pre) = false →
       unescaped (last_char pre) = true →
       all_chars (λ x, negb (x =? dquote)%char) body = true →
       k < String.length body →
       let command := pre +:+ String dquote body +:+ post in
       let i := String.length pre + S k in
       in_quotes (state_at command i) = true
       ∧ parts (state_at command (S i)) = parts (state_at command i))
  ∧ _split_chain ("analyze " +:+ quote "a > b" +:+ " > fix")
    = ["analyze " +:+ quote "a > b"; "fix"].
Proof.
  split; [apply state_at_parts|].
  split; [apply split_chain_parts|].
  split; [|reflexivity].
  intros pre body post k Hpre Hesc Hbody Hk command i.
  assert (in_quotes (state_at command i) = true) as Hq.
  { apply state_at_quoted; [done..|lia]. }
  split; [done|].
  destruct (state_at_parts command i) as [Hsame | (_ & _ & Hq' & _)]; [done|].
  congruence.
Qed.

(** The [>] at position 11 of that command lies inside the quoted literal. *)
Lemma split_chain_respects_quotes_witness :
  let command := "analyze " +:+ quote "a > b" +:+ " > fix" in
  in_quotes (state_at command 11) = true
  ∧ String.get 11 command = Some ">"%char
  ∧ parts (state_at command 12) = parts (state_at command 11).
Proof.
  pose proof (proj1 (proj2 (proj2 split_chain_respects_quotes_and_brackets))
                "analyze " "a > b" (String dquote " > fix") 2) as H.
  simpl in H. 
  destruct H as [H1 H2]; [reflexivity | reflexivity | reflexivity | lia |].
  split; [exact H1|]. split; [reflexivity | exact H2].
Defined.

(** C5.  Every segment returned by [_split_chain] is trimmed, but an empty
    segment is dropped only at the end of the command: a segment closed by a
    chain operator is appended without being tested, so [a > > b] yields the
    three segments [a], the empty string and [b], and [> a] starts with an
    empty segment, whereas the empty last segment of [a >] is dropped. *)
Theorem split_chain_keeps_inner_empty_segments :
  (∀ command seg, seg ∈ _split_chain command → strip seg = seg)
  ∧ _split_chain "a > > b" = ["a"; ""; "b"]
  ∧ _split_chain "> a" = [""; "a"]
  ∧ _split_chain "a >" = ["a"].
Proof.
  split; [|by repeat split].
  intros command seg Hin.
  by apply (proj1 (Forall_forall _ _) (split_chain_trimmed command)).
Qed.


Section ParallelOutputs.

Implicit Types (s t : string) (c : ascii) (items more : list run_item).

Lemma space_not_word c : is_space c = true → is_word c = false.
Proof. destruct c as [[] [] [] [] [] [] [] []]; vm_compute; congruence. Qed.

Lemma space_not_amp c : is_space c = true → not_amp c = true.
Proof. destruct c as [[] [] [] [] [] [] [] []]; vm_compute; congruence. Qed.

Lemma word_not_amp c : is_word c = true → not_amp c = true.
Proof. destruct c as [[] [] [] [] [] [] [] []]; vm_compute; congruence. Qed.

Lemma all_chars_impl (p q : ascii → bool) s :
  (∀ c, p c = true → q c = true) → all_chars p s = true → all_chars q s = true.
Proof.
  intros Hpq. induction s as [|c s IH]; simpl; [done|].
  intros [Hc Hs]%andb_true_iff. by rewrite (Hpq c Hc), IH.
Qed.

Lemma head_is_app p s t :
  head_is p (s +:+ t) = if is_empty s then head_is p t else head_is p s.
Proof. by destruct s. Qed.

Lemma head_word_not_space s : head_is is_word s = true → head_is is_space s = false.
Proof.
  destruct s as [|c s]; simpl; [done|]. intros Hw.
  destruct (is_space c) eqn:Hs; [|done].
  apply space_not_word in Hs. congruence.
Qed.

Lemma all_head p s : all_chars p s = true → s ≠ "" → head_is p s = true.
Proof. destruct s as [|c s]; simpl; [done|]. by intros [? _]%andb_true_iff. Qed.

Lemma all_last p s c : all_chars p s = true → last_char s = Some c → p c = true.
Proof.
  induction s as [|a s IH]; [done|]. simpl. intros [Ha Hs]%andb_true_iff.
  destruct s as [|b s]; [congruence | by apply IH].
Qed.

Lemma search_here (m : matcher) s found : m s = Some found → search m s = Some found.
Proof. intros Hm. destruct s; simpl; by rewrite Hm. Qed.

(** [search] walks over a prefix in which the pattern cannot start. *)
Lemma search_skip s t :
  all_chars not_amp s = true → search parallel_run (s +:+ t) = search parallel_run t.
Proof.
  induction s as [|c s IH]; [done|].
  intros Hall. simpl in Hall. apply andb_true_iff in Hall as [Hc Hs].
  rewrite append_cons. simpl.
  unfold not_amp in Hc. apply negb_true_iff in Hc. rewrite Hc. by apply IH.
Qed.

Lemma run_text_head items post :
  Forall item_ok items → head_is is_word post = false →
  head_is is_word (run_text items +:+ post) = false.
Proof.
  intros Hok Hpost. destruct items as [|[[ws1 ws2] w] more]; [done|].
  apply Forall_cons in Hok as [(Hws1 & _) _]. simpl in *.
  rewrite append_assoc, head_is_app. destruct ws1 as [|c ws1]; [done|].
  simpl in *. apply andb_true_iff in Hws1 as [Hc _]. by apply space_not_word.
Qed.

(** The repetition of the pattern consumes exactly the items of the run. *)
Lemma parallel_more_run items post fuel :
  Forall item_ok items → head_is is_word post = false → continues post = false →
  String.length (run_text items +:+ post) ≤ fuel →
  parallel_more fuel (run_text items +:+ post) = (run_text items, post).
Proof.
  intros Hok Hpost Hstop. revert fuel.
  induction items as [|[[ws1 ws2] w] more IH]; intros fuel Hfuel.
  - simpl. rewrite append_nil_l. destruct fuel as [|fuel]; [done|]. simpl.
    unfold continues in Hstop.
    destruct (span is_space post) as [ws s1]; simpl in Hstop.
    destruct s1 as [|c s2]; [done|].
    destruct (c =? "&")%char; [|done]. simpl in Hstop.
    destruct (span is_space s2) as [ws' s3]; simpl in Hstop.
    pose proof (span_head is_word s3) as Hw. rewrite Hstop in Hw.
    destruct (span is_word s3) as [w s4]; simpl in Hw. by rewrite Hw.
  - apply Forall_cons in Hok as [(Hws1 & Hws2 & Hw & Hne) Hok]. simpl in *.
    destruct fuel as [|fuel].
    { rewrite !append_assoc, !length_append in Hfuel. simpl in Hfuel. lia. }
    simpl. rewrite !append_assoc.
    rewrite (span_app is_space ws1) by done. rewrite append_cons, append_nil_l. simpl.
    rewrite (span_app is_space ws2); [|done|].
    2:{ rewrite head_is_app, (proj2 (is_empty_false w) Hne).
        apply head_word_not_space. by apply all_head. }
    rewrite (span_app is_word w); [|done|].
    2:{ by apply run_text_head. }
    rewrite (proj2 (is_empty_false w) Hne).
    rewrite (IH Hok fuel).
    + done.
    + rewrite !append_assoc, !length_append in Hfuel. simpl in Hfuel.
      rewrite length_append. lia.
Qed.

Lemma split_where_plain s : all_chars not_amp s = true →
  split_where (λ c, (c =? "&")%char) s = [s].
Proof.
  induction s as [|c s IH]; [done|]. simpl. intros [Hc Hs]%andb_true_iff.
  unfold not_amp in Hc. apply negb_true_iff in Hc. by rewrite Hc, IH.
Qed.

Lemma split_where_amp s t : all_chars not_amp s = true →
  split_where (λ c, (c =? "&")%char) (s +:+ "&" +:+ t)
  = s :: split_where (λ c, (c =? "&")%char) t.
Proof.
  induction s as [|c s IH]; [done|].
  intros Hall. simpl in Hall. apply andb_true_iff in Hall as [Hc Hs].
  rewrite append_cons. simpl.
  unfold not_amp in Hc. apply negb_true_iff in Hc. by rewrite Hc, IH.
Qed.

Lemma lstrip_app_space s t : all_chars is_space s = true → lstrip (s +:+ t) = lstrip t.
Proof.
  induction s as [|c s IH]; [done|].
  intros Hall. simpl in Hall. apply andb_true_iff in Hall as [Hc Hs].
  rewrite append_cons. simpl. by rewrite Hc, IH.
Qed.

Lemma rstrip_space s : all_chars is_space s = true → rstrip s = "".
Proof.
  induction s as [|c s IH]; [done|]. simpl. intros [Hc Hs]%andb_true_iff.
  by rewrite IH, Hc.
Qed.

Lemma rstrip_app_space s t : all_chars is_space t = true → rstrip (s +:+ t) = rstrip s.
Proof.
  intros Ht. induction s as [|c s IH].
  - rewrite append_nil_l. by apply rstrip_space.
  - rewrite append_cons. simpl. by rewrite IH.
Qed.

(** An identifier padded with white space strips to the identifier. *)
Lemma strip_padded a w b :
  all_chars is_space a = true → all_chars is_space b = true →
  all_chars is_word w = true → w ≠ "" → strip (a +:+ w +:+ b) = w.
Proof.
  intros Ha Hb Hw Hne. unfold strip. rewrite lstrip_app_space by done.
  rewrite lstrip_id.
  2:{ rewrite head_is_app, (proj2 (is_empty_false w) Hne).
      apply head_word_not_space. by apply all_head. }
  rewrite rstrip_app_space by done. apply rstrip_id.
  intros c Hc. destruct (is_space c) eqn:Hs; [|done].
  apply space_not_word in Hs. by rewrite (all_last _ _ _ Hw Hc) in Hs.
Qed.

Lemma parallel_items_run ws2 w more :
  all_chars is_space ws2 = true → all_chars is_word w = true → w ≠ "" →
  Forall item_ok more →
  filter (λ p, is_empty p = false)
    (strip <$> split_where (λ c, (c =? "&")%char) (ws2 +:+ w +:+ run_text more))
  = w :: (item_word <$> more).
Proof.
  intros Hws2 Hw Hne Hok. revert ws2 w Hws2 Hw Hne.
  induction Hok as [|[[ws1 ws2'] w'] more (Hws1 & Hws2' & Hw' & Hne') Hok IH];
    intros ws2 w Hws2 Hw Hne.
  - simpl. rewrite split_where_plain.
    2:{ rewrite !all_chars_app. simpl.
        rewrite (all_chars_impl _ _ _ space_not_amp Hws2).
        by rewrite (all_chars_impl _ _ _ word_not_amp Hw). }
    simpl. rewrite strip_padded by done.
    rewrite filter_cons_True by by apply is_empty_false. done.
  - simpl in *.
    replace (ws2 +:+ w +:+ ws1 +:+ "&" +:+ ws2' +:+ w' +:+ run_text more)
      with ((ws2 +:+ w +:+ ws1) +:+ "&" +:+ ws2' +:+ w' +:+ run_text more)
      by by rewrite !append_assoc.
    rewrite split_where_amp.
    2:{ rewrite !all_chars_app.
        rewrite (all_chars_impl _ _ _ space_not_amp Hws2).
        rewrite (all_chars_impl _ _ _ space_not_amp Hws1).
        by rewrite (all_chars_impl _ _ _ word_not_amp Hw). }
    rewrite fmap_cons, strip_padded by done.
    rewrite filter_cons_True by by apply is_empty_false.
    f_equal. by apply IH.
Qed.

(** What [find_parallel] returns on a run that follows an identifier. *)
Lemma find_parallel_run pre w1 items post :
  all_chars not_amp pre = true → all_chars is_word w1 = true →
  items ≠ [] → Forall item_ok items →
  head_is is_word post = false → continues post = false →
  find_parallel (pre +:+ w1 +:+ run_text items +:+ post) = item_word <$> items.
Proof.
  intros Hpre Hw1 Hne Hok Hpost Hstop.
  destruct items as [|[[ws1 ws2] w] more]; [done|].
  apply Forall_cons in Hok as [(Hws1 & Hws2 & Hw & Hwne) Hok]. simpl in *.
  unfold find_parallel.
  replace (pre +:+ w1 +:+ (ws1 +:+ "&" +:+ ws2 +:+ w +:+ run_text more) +:+ post)
    with ((pre +:+ w1 +:+ ws1) +:+ "&" +:+ ws2 +:+ w +:+ run_text more +:+ post)
    by by rewrite !append_assoc.
  rewrite search_skip.
  2:{ rewrite !all_chars_app. rewrite Hpre.
      rewrite (all_chars_impl _ _ _ word_not_amp Hw1).
      by rewrite (all_chars_impl _ _ _ space_not_amp Hws1). }
  rewrite append_cons, append_nil_l.
  assert (parallel_run (String "&" (ws2 +:+ w +:+ run_text more +:+ post))
          = Some ("&" +:+ ws2 +:+ w +:+ run_text more, post)) as Hrun.
  { simpl. rewrite (span_app is_space ws2); [|done|].
    2:{ rewrite head_is_app, (proj2 (is_empty_false w) Hwne).
        apply head_word_not_space. by apply all_head. }
    rewrite (span_app is_word w); [|done|by apply run_text_head].
    rewrite (proj2 (is_empty_false w) Hwne).
    by rewrite parallel_more_run. }
  rewrite (search_here _ _ _ Hrun). unfold parallel_items.
  rewrite append_cons, append_nil_l. simpl split_where.
  rewrite fmap_cons. change (strip "") with "".
  rewrite filter_cons_False by (by intros ?).
  by apply parallel_items_run.
Qed.

Lemma parse_single_parallel command ast :
  _parse_single command = Ok ast → parallel ast = find_parallel (remainder command).
Proof.
  unfold _parse_single, remainder.
  destruct (span is_word command) as [w after]. simpl.
  destruct (is_empty w); [done|].
  destruct (take_subject (strip after)) as [subj rest]. simpl.
  by intros [= <-].
Qed.

End ParallelOutputs.

(** C8, as the code has it.  When the remainder of a segment is a text
    without [&], an identifier [w1], and a run of one or more further
    identifiers each introduced by [&], with optional white space around the
    [&], and the text after the run neither extends the last identifier nor
    goes on with another [&] and identifier, the [parallel] field is the list
    of the identifiers that follow an [&], in order: [w1], which precedes the
    first [&], is not part of it. *)
Theorem parallel_omits_first_identifier command ast pre w1 items post :
  _parse_single command = Ok ast →
  remainder command = pre +:+ w1 +:+ run_text items +:+ post →
  all_chars not_amp pre = true →
  all_chars is_word w1 = true →
  items ≠ [] →
  Forall item_ok items →
  head_is is_word post = false →
  continues post = false →
  parallel ast = item_word <$> items.
Proof.
  intros Hast Hrest Hpre Hw1 Hne Hok Hpost Hstop.
  rewrite (parse_single_parallel _ _ Hast), Hrest.
  by apply find_parallel_run.
Qed.


Section Termination.

Implicit Types (s t command : string) (c : ascii) (st : scanner).

Lemma count_app c s t : count_char c (s +:+ t) = count_char c s + count_char c t.
Proof.
  induction s as [|a s IH]; [done|]. rewrite append_cons. simpl. rewrite IH. lia.
Qed.

Lemma count_lstrip c s : count_char c (lstrip s) ≤ count_char c s.
Proof.
  induction s as [|a s IH]; simpl; [done|].
  destruct (is_space a); simpl; lia.
Qed.

Lemma count_rstrip c s : count_char c (rstrip s) ≤ count_char c s.
Proof.
  induction s as [|a s IH]; simpl; [done|].
  destruct (rstrip s) as [|b r]; simpl in *.
  - destruct (is_space a); simpl; lia.
  - lia.
Qed.

Lemma count_strip c s : count_char c (strip s) ≤ count_char c s.
Proof.
  unfold strip. etrans; [apply count_rstrip | apply count_lstrip].
Qed.

Lemma count_span c p s : count_char c (span p s).2 ≤ count_char c s.
Proof.
  induction s as [|a s IH]; simpl; [done|].
  destruct (p a); [|simpl; lia].
  destruct (span p s) as [run rest]; simpl in *. lia.
Qed.

Lemma count_strip_prefix c p s t :
  strip_prefix p s = Some t → count_char c t ≤ count_char c s.
Proof.
  revert s. induction p as [|a p IH]; intros [|b s] Hp; simpl in *; try done.
  - by inversion Hp.
  - inversion Hp. simpl. lia.
  - destruct (Ascii.eqb a b); [|done]. specialize (IH _ Hp). lia.
Qed.

Lemma count_before_last c d s p :
  before_last d s = Some p → count_char c p ≤ count_char c s.
Proof.
  revert p. induction s as [|a s IH]; intros p Hp; simpl in *; [done|].
  destruct (before_last d s) as [q|].
  - inversion Hp; subst. specialize (IH q eq_refl). simpl. lia.
  - destruct (a =? d)%char; [|done]. inversion Hp. simpl. lia.
Qed.

Lemma count_persona_block c command name body :
  persona_block command = Some (name, body) →
  count_char c body ≤ count_char c command.
Proof.
  unfold persona_block. intros Hp.
  destruct (strip_prefix "@as" command) as [r1|] eqn:H1; simpl in Hp; [|done].
  apply (count_strip_prefix c) in H1.
  pose proof (count_span c is_space r1) as H2.
  destruct (span is_space r1) as [ws r2]. simpl in H2.
  destruct (is_empty ws); [done|].
  destruct r2 as [|q r3]; [done|].
  destruct (negb (q =? dquote)%char); [done|].
  pose proof (count_span c (λ x, negb (x =? dquote)%char) r3) as H3.
  destruct (span _ r3) as [nm r4]. simpl in H3.
  destruct (is_empty nm); [done|].
  destruct r4 as [|q' r5]; [done|].
  pose proof (count_span c is_space r5) as H5.
  destruct (span is_space r5) as [ws' r6]. simpl in H5.
  destruct r6 as [|b r7]; [done|].
  destruct (negb (b =? "{")%char); [done|].
  destruct (before_last "}" r7) as [bd|] eqn:H7; simpl in Hp; [|done].
  apply (count_before_last c) in H7.
  destruct (is_empty bd); [done|]. inversion Hp; subst.
  simpl in *. lia.
Qed.

Lemma count_unwrap_persona command :
  count_char ">" (unwrap_persona command).2 ≤ count_char ">" command.
Proof.
  unfold unwrap_persona.
  pose proof (count_strip ">" command) as Hs.
  destruct (persona_block (strip command)) as [[name body]|] eqn:Hp; simpl; [|done].
  apply (count_persona_block ">") in Hp.
  pose proof (count_strip ">" body). lia.
Qed.

Lemma weight_cons seg l : weight (seg :: l) = S (count_char ">" seg) + weight l.
Proof. reflexivity. Qed.

Lemma weight_app l1 l2 : weight (l1 ++ l2) = weight l1 + weight l2.
Proof. apply sum_list_with_app. Qed.

Lemma scan_step_weight prev st c :
  weight (parts (scan_step prev st c)) + count_char ">" (current (scan_step prev st c))
  ≤ weight (parts st) + count_char ">" (current st) + count_char ">" (String c "").
Proof.
  unfold scan_step, push.
  repeat match goal with |- context [if ?b then _ else _] => destruct b eqn:? end;
    simpl parts; simpl current; rewrite ?count_app; try lia.
  rewrite weight_app. unfold weight at 2. simpl.
  apply andb_true_iff in Heqb2 as [[Hc _]%andb_true_iff _].
  rewrite Hc. pose proof (count_strip ">" (current st)). lia.
Qed.

Lemma scan_weight prev st s :
  weight (parts (scan prev st s)) + count_char ">" (current (scan prev st s))
  ≤ weight (parts st) + count_char ">" (current st) + count_char ">" s.
Proof.
  revert prev st. induction s as [|c s IH]; intros prev st; [simpl; lia|].
  change (scan prev st (String c s)) with (scan (Some c) (scan_step prev st c) s).
  etrans; [apply IH|]. pose proof (scan_step_weight prev st c) as Hstep.
  change (String c s) with (String c "" +:+ s). rewrite count_app. lia.
Qed.

Lemma split_chain_weight command : weight (_split_chain command) ≤ S (count_char ">" command).
Proof.
  unfold _split_chain. pose proof (scan_weight None scan_start command) as Hw.
  change (weight (parts scan_start)) with 0 in Hw.
  change (count_char ">" (current scan_start)) with 0 in Hw.
  destruct (is_empty _); [lia|].
  rewrite weight_app. unfold weight at 2. simpl.
  pose proof (count_strip ">" (current (scan None scan_start command))). lia.
Qed.

Lemma join_weight seg later : S (count_char ">" (join " > " (seg :: later))) = weight (seg :: later).
Proof.
  revert seg. induction later as [|seg' later IH]; intros seg.
  - unfold weight. simpl. lia.
  - change (join " > " (seg :: seg' :: later))
      with (seg +:+ " > " +:+ join " > " (seg' :: later)).
    rewrite !count_app. specialize (IH seg').
    unfold weight in *. simpl in *. lia.
Qed.

(** One unfolding of [parse_within]. *)
Lemma parse_within_S fuel command :
  parse_within (S fuel) command
  = let '(persona, body) := unwrap_persona command in
    match _split_chain body with
    | first :: second :: rest =>
        match _parse_single first with
        | Raise e => Some (Raise e)
        | Ok ast =>
            match parse_within fuel (join " > " (second :: rest)) with
            | None => None
            | Some (Raise e) => Some (Raise e)
            | Some (Ok next) =>
                Some (Ok (set_chain (Some next) (set_persona persona ast)))
            end
        end
    | _ => Some (set_persona persona <$> _parse_single body)
    end.
Proof. reflexivity. Qed.

(** [parse_within] answers as soon as the fuel exceeds the number of [>]
    characters of the command. *)
Lemma parse_within_enough fuel command :
  count_char ">" command < fuel → ∃ r, parse_within fuel command = Some r.
Proof.
  revert command. induction fuel as [|fuel IH]; intros command Hfuel; [lia|].
  rewrite parse_within_S. pose proof (count_unwrap_persona command) as Hu.
  destruct (unwrap_persona command) as [name body]. simpl in Hu.
  pose proof (split_chain_weight body) as Hw.
  destruct (_split_chain body) as [|first [|second later]]; [eauto | eauto |].
  destruct (_parse_single first) as [ast|e]; [|eauto].
  destruct (IH (join " > " (second :: later))) as [r Hr].
  - pose proof (join_weight second later) as Hj.
    rewrite !weight_cons in Hw. rewrite weight_cons in Hj. lia.
  - rewrite Hr. destruct r; eauto.
Qed.

(** [parse] always answers: the recursion of the source terminates. *)
Lemma parse_total command : ∃ r, parse command = Some r.
Proof. apply parse_within_enough. lia. Qed.

End Termination.

(** [parse] calls itself on the segments after the first, and so looks for a
    persona block again at the start of the second segment: the command
    [write QintroQ > @as QcriticQ { review }], Q being the double quote, is
    accepted and its chained node carries the persona [critic], while its
    head node carries none. *)
Example parse_chained_persona :
  let command := "write " +:+ quote "intro" +:+ " > @as " +:+ quote "critic" +:+ " { review }" in
  ∃ ast next,
    parse command = Some (Ok ast)
    ∧ persona ast = None
    ∧ chain ast = Some next
    ∧ action next = "review"
    ∧ persona next = Some "critic".
Proof. simpl. eexists _, _. vm_compute. repeat split. Qed.

Section Rejoin.

Implicit Types (s t : string) (c : ascii) (st : scanner) (prev : option ascii) (f : flags).

Lemma space_plain c : is_space c = true →
  (c =? dquote)%char = false ∧ is_opener c = false ∧ is_closer c = false
  ∧ (c =? ">")%char = false ∧ (c =? backslash)%char = false.
Proof. destruct c as [[] [] [] [] [] [] [] []]; vm_compute; try congruence; done. Qed.

Lemma scan_step_quiet prev st c f' :
  flag_step prev (flags_of st) c = Some f' →
  scan_step prev st c
  = {| parts := parts st; current := push (current st) c;
       depth := f'.1; in_quotes := f'.2 |}.
Proof.
  unfold flag_step, scan_step, flags_of. simpl.
  repeat match goal with |- context [if ?b then _ else _] => destruct b end;
    intros [= <-]; done.
Qed.

Lemma scan_step_split prev st c :
  flag_step prev (flags_of st) c = None →
  c = ">"%char ∧ flags_of st = clean
  ∧ scan_step prev st c
    = {| parts := parts st ++ [strip (current st)]; current := "";
         depth := 0; in_quotes := false |}.
Proof.
  unfold flag_step, scan_step, flags_of, clean. simpl.
  destruct ((c =? dquote)%char && unescaped prev); [done|].
  destruct (is_opener c && negb (in_quotes st)); [done|].
  destruct (is_closer c && negb (in_quotes st)); [done|].
  destruct ((c =? ">")%char && (depth st =? 0)%Z && negb (in_quotes st)) eqn:Hc; [|done].
  intros _.
  apply andb_true_iff in Hc as [[Hg%Ascii.eqb_eq Hd%Z.eqb_eq]%andb_true_iff Hq%negb_true_iff].
  by rewrite Hd, Hq.
Qed.

(** A text that closes no segment is appended to the current segment. *)
Lemma scan_quiet prev st s f' :
  flag_run prev (flags_of st) s = Some f' →
  scan prev st s
  = {| parts := parts st; current := current st +:+ s;
       depth := f'.1; in_quotes := f'.2 |}.
Proof.
  revert prev st. induction s as [|c s IH]; intros prev st Hrun.
  - simpl in *. inversion Hrun. rewrite append_nil_r. by destruct st.
  - simpl in Hrun. destruct (flag_step prev (flags_of st) c) as [f1|] eqn:Hstep; [|done].
    simpl. rewrite (scan_step_quiet _ _ _ _ Hstep).
    rewrite IH by (by destruct f1). simpl. unfold push.
    by rewrite append_assoc.
Qed.

Lemma flag_run_app prev f s t :
  flag_run prev f (s +:+ t)
  = match flag_run prev f s with
    | Some f' => flag_run (last_or prev s) f' t
    | None => None
    end.
Proof.
  revert prev f. induction s as [|c s IH]; intros prev f; [done|].
  rewrite append_cons, last_or_cons. simpl.
  destruct (flag_step prev f c); [apply IH | done].
Qed.

Lemma flag_step_space prev f c : is_space c = true → flag_step prev f c = Some f.
Proof.
  intros (Hq & Ho & Hc & Hg & _)%space_plain. unfold flag_step.
  by rewrite Hq, Ho, Hc, Hg.
Qed.

Lemma flag_run_space prev f s : all_chars is_space s = true → flag_run prev f s = Some f.
Proof.
  revert prev. induction s as [|c s IH]; intros prev Hs; [done|].
  simpl in *. apply andb_true_iff in Hs as [Hc Hs].
  rewrite flag_step_space by done. by apply IH.
Qed.

Lemma unescaped_space prev s :
  unescaped prev = true → all_chars is_space s = true → unescaped (last_or prev s) = true.
Proof.
  intros Hp Hs. unfold last_or. destruct (last_char s) as [c|] eqn:Hl; [|done].
  pose proof (all_last _ _ _ Hs Hl) as Hc. apply space_plain in Hc as (_ & _ & _ & _ & Hb).
  simpl. by rewrite Hb.
Qed.

(** Only whether the previous character escapes matters, and only for the
    first character. *)
Lemma flag_run_prev prev prev' f s :
  unescaped prev = unescaped prev' → flag_run prev f s = flag_run prev' f s.
Proof.
  intros Hp. destruct s as [|c s]; [done|]. simpl.
  unfold flag_step. by rewrite Hp.
Qed.

(** A text is its stripped form between two runs of white space. *)
Lemma strip_cut s :
  ∃ ws1 ws2, s = ws1 +:+ strip s +:+ ws2
             ∧ all_chars is_space ws1 = true ∧ all_chars is_space ws2 = true.
Proof.
  assert (∀ t, ∃ ws, t = ws +:+ lstrip t ∧ all_chars is_space ws = true) as Hl.
  { induction t as [|c t (ws & Ht & Hws)]; [by exists ""|]. simpl.
    destruct (is_space c) eqn:Hc.
    - exists (String c ws). rewrite append_cons, <- Ht. simpl. by rewrite Hc.
    - by exists "". }
  assert (∀ t, ∃ ws, t = rstrip t +:+ ws ∧ all_chars is_space ws = true) as Hr.
  { induction t as [|c t (ws & Ht & Hws)]; [by exists ""|]. simpl.
    destruct (rstrip t) as [|b r] eqn:Hrt.
    - rewrite append_nil_l in Ht. subst ws. destruct (is_space c) eqn:Hc.
      + exists (String c t). split; [done|]. simpl. by rewrite Hc.
      + exists t. by rewrite append_cons, append_nil_l.
    - exists ws. rewrite append_cons. split; [by f_equal | done]. }
  destruct (Hl s) as (ws1 & H1 & Hws1). destruct (Hr (lstrip s)) as (ws2 & H2 & Hws2).
  exists ws1, ws2. unfold strip. by rewrite <- H2.
Qed.

(** Stripping a text that closes no segment changes neither that nor the
    flags it leaves. *)
Lemma flag_run_strip prev prev' f s :
  unescaped prev = true → unescaped prev' = true →
  flag_run prev clean s = Some f → flag_run prev' clean (strip s) = Some f.
Proof.
  intros Hp Hp' Hrun. destruct (strip_cut s) as (ws1 & ws2 & Hs & Hws1 & Hws2).
  rewrite Hs in Hrun. rewrite flag_run_app, flag_run_space in Hrun by done.
  rewrite flag_run_app in Hrun.
  rewrite (flag_run_prev _ prev') in Hrun
    by (by rewrite Hp', unescaped_space).
  destruct (flag_run prev' clean (strip s)) as [f1|]; [|done].
  rewrite flag_run_space in Hrun by done. by inversion Hrun.
Qed.

Lemma last_or_snoc prev s c : last_or prev (s +:+ String c "") = Some c.
Proof.
  revert prev. induction s as [|a s IH]; intros prev; [done|].
  rewrite append_cons, last_or_cons. apply IH.
Qed.

Lemma scan_inv_step prev st c : scan_inv prev st → scan_inv (Some c) (scan_step prev st c).
Proof.
  intros (Hparts & p0 & Hp0 & Hprev & Hrun).
  destruct (flag_step prev (flags_of st) c) as [f'|] eqn:Hstep.
  - rewrite (scan_step_quiet _ _ _ _ Hstep). split; [done|]. simpl.
    exists p0. split; [done|]. unfold push. split; [by rewrite last_or_snoc|].
    rewrite flag_run_app, Hrun, <- Hprev. simpl. rewrite Hstep. by destruct f'.
  - destruct (scan_step_split _ _ _ Hstep) as (-> & Hclean & ->). split; simpl.
    + apply Forall_app. split; [done|]. apply Forall_singleton. split.
      * apply strip_idemp.
      * intros prev' Hprev'. apply (flag_run_strip p0); [done..|]. by rewrite Hrun, Hclean.
    + by exists (Some ">"%char).
Qed.

Lemma scan_inv_scan prev st s : scan_inv prev st → scan_inv (last_or prev s) (scan prev st s).
Proof.
  revert prev st. induction s as [|c s IH]; intros prev st Hinv; [done|].
  rewrite last_or_cons. simpl. by apply IH, scan_inv_step.
Qed.

Lemma chainable_closed l : Forall (λ s, quiet s clean) l → chainable l.
Proof.
  induction 1 as [|s l Hs Hl IH]; [done|].
  destruct l; [by exists clean | done].
Qed.

Lemma chainable_snoc l s f : Forall (λ s, quiet s clean) l → quiet s f → chainable (l ++ [s]).
Proof.
  intros Hl Hs. induction Hl as [|a l Ha Hl IH]; [by exists f|].
  simpl. destruct (l ++ [s]) eqn:Heq; [by destruct l | done].
Qed.

Lemma chainable_tail s l : chainable (s :: l) → chainable l.
Proof. destruct l; [done | by intros [_ ?]]. Qed.

(** The segments of any command can be chained. *)
Lemma split_chain_chainable command : chainable (_split_chain command).
Proof.
  unfold _split_chain.
  destruct (scan_inv_scan None scan_start command) as (Hparts & p0 & Hp0 & _ & Hrun).
  { split; [constructor|]. by exists None. }
  destruct (is_empty _); [by apply chainable_closed|].
  apply (chainable_snoc _ _ (flags_of (scan None scan_start command))); [done|].
  split; [apply strip_idemp|].
  intros prev Hprev. by apply (flag_run_strip p0).
Qed.

Lemma lstrip_app_r s t :
  lstrip (s +:+ t) = if all_chars is_space s then lstrip t else lstrip s +:+ t.
Proof.
  induction s as [|c s IH]; [done|]. rewrite append_cons. simpl.
  destruct (is_space c); [apply IH | done].
Qed.

Lemma lstrip_space s : all_chars is_space s = true → lstrip s = "".
Proof.
  induction s as [|c s IH]; [done|]. simpl.
  intros [Hc Hs]%andb_true_iff. rewrite Hc. by apply IH.
Qed.

(** White space around a text does not change its stripped form. *)
Lemma strip_pad ws s ws' :
  all_chars is_space ws = true → all_chars is_space ws' = true →
  strip (ws +:+ s +:+ ws') = strip s.
Proof.
  intros Hws Hws'. unfold strip. rewrite lstrip_app_space by done.
  rewrite lstrip_app_r. destruct (all_chars is_space s) eqn:Hs.
  - by rewrite !lstrip_space.
  - by apply rstrip_app_space.
Qed.

Lemma finish_scan command : _split_chain command = finish (scan None scan_start command).
Proof. reflexivity. Qed.

(** Scanning joined segments closes each of them again. *)
Lemma rejoin_scan l prev st :
  l ≠ [] → chainable l →
  unescaped prev = true → flags_of st = clean → all_chars is_space (current st) = true →
  finish (scan prev st (join " > " l)) = parts st ++ rejoined l.
Proof.
  intros Hne. revert prev st.
  induction l as [|s l IH]; intros prev st Hl Hprev Hst Hcur; [done|].
  destruct l as [|s' rest].
  - destruct Hl as (f & Hstrip & Hrun). simpl join.
    rewrite (scan_quiet prev st s f) by (rewrite Hst; by apply Hrun).
    assert (strip (current st +:+ s) = s) as Hs.
    { rewrite <- (append_nil_r s) at 1. by rewrite strip_pad. }
    unfold finish, rejoined. simpl. rewrite Hs.
    destruct s; simpl; [by rewrite app_nil_r | done].
  - destruct Hl as [[Hstrip Hrun] Hl].
    change (join " > " (s :: s' :: rest))
      with (s +:+ String " " (String ">" (String " " (join " > " (s' :: rest))))).
    rewrite scan_app, (scan_quiet prev st s clean) by (rewrite Hst; by apply Hrun).
    simpl scan.
    rewrite (IH ltac:(done) (Some " "%char)); [|done..].
    assert (strip ((current st +:+ s) +:+ " ") = s) as Hs.
    { by rewrite append_assoc, strip_pad. }
    simpl. unfold push. rewrite Hs, <- (app_assoc (parts st)). f_equal.
    unfold rejoined. rewrite last_cons_cons.
    destruct (last (s' :: rest)) as [[|]|]; done.
Qed.

(** Two runs of the loop that differ by white space at the start of the
    current segment. *)
Lemma scan_frame s prev prev' st st' ws :
  unescaped prev = unescaped prev' →
  parts st = parts st' → flags_of st = flags_of st' →
  current st = ws +:+ current st' → all_chars is_space ws = true →
  parts (scan prev st s) = parts (scan prev' st' s)
  ∧ flags_of (scan prev st s) = flags_of (scan prev' st' s)
  ∧ ∃ ws', current (scan prev st s) = ws' +:+ current (scan prev' st' s)
           ∧ all_chars is_space ws' = true.
Proof.
  revert prev prev' st st' ws.
  induction s as [|c s IH]; intros prev prev' st st' ws Hp Hparts Hflags Hcur Hws.
  - simpl. eauto.
  - simpl.
    assert (flag_step prev (flags_of st) c = flag_step prev' (flags_of st') c) as Hsame.
    { rewrite Hflags. unfold flag_step. by rewrite Hp. }
    destruct (flag_step prev' (flags_of st') c) as [f'|] eqn:Hstep.
    + rewrite (scan_step_quiet _ _ _ _ Hsame), (scan_step_quiet _ _ _ _ Hstep).
      apply (IH _ _ _ _ ws); simpl; [done..| |done].
      unfold push. by rewrite Hcur, append_assoc.
    + destruct (scan_step_split _ _ _ Hsame) as (_ & _ & ->).
      destruct (scan_step_split _ _ _ Hstep) as (_ & _ & ->).
      apply (IH _ _ _ _ ""); simpl; [done| |done..].
      rewrite Hparts, Hcur. rewrite <- (append_nil_r (current st')) at 1.
      by rewrite strip_pad.
Qed.

(** [_split_chain] does not see the white space around a command. *)
Lemma split_chain_strip command : _split_chain (strip command) = _split_chain command.
Proof.
  destruct (strip_cut command) as (ws1 & ws2 & Hcut & Hws1 & Hws2).
  rewrite Hcut at 2. rewrite !finish_scan, !scan_app.
  rewrite (scan_quiet None scan_start ws1 clean) by (by apply flag_run_space).
  simpl current.
  destruct (scan_frame (strip command) (last_or None ws1) None
              {| parts := parts scan_start; current := ws1; depth := clean.1;
                 in_quotes := clean.2 |} scan_start ws1)
    as (Hparts & Hflags & ws' & Hcur & Hws'); try done.
  { by rewrite unescaped_space. }
  { by rewrite append_nil_r. }
  set (a := scan (last_or None ws1) _ (strip command)) in *.
  set (b := scan None scan_start (strip command)) in *.
  rewrite (scan_quiet _ a ws2 (flags_of a)) by (by apply flag_run_space).
  unfold finish. simpl. rewrite Hparts, Hcur, append_assoc, strip_pad by done.
  rewrite <- (append_nil_l (current b)) at 1.
  rewrite <- (append_nil_r (current b)) at 1.
  by rewrite (strip_pad "" (current b) "").
Qed.

(** The segments after the first come back when they are joined and split
    again, but for a last empty one. *)
Lemma split_chain_rejoin command first later :
  _split_chain command = first :: later → later ≠ [] →
  _split_chain (strip (join " > " later)) = rejoined later.
Proof.
  intros Hsplit Hne. pose proof (split_chain_chainable command) as Hc.
  rewrite Hsplit in Hc. apply chainable_tail in Hc.
  rewrite split_chain_strip, finish_scan.
  by rewrite (rejoin_scan later None scan_start).
Qed.

Lemma rstrip_cut s : ∃ ws, s = rstrip s +:+ ws ∧ all_chars is_space ws = true.
Proof.
  induction s as [|c s (ws & Hs & Hws)]; [by exists ""|]. simpl.
  destruct (rstrip s) as [|b r] eqn:Hr.
  - rewrite append_nil_l in Hs. subst ws. destruct (is_space c) eqn:Hc.
    + exists (String c s). split; [done|]. simpl. by rewrite Hc.
    + exists s. by rewrite append_cons, append_nil_l.
  - exists ws. rewrite append_cons. split; [by f_equal | done].
Qed.

Lemma strip_prefix_app_some p s t u :
  strip_prefix p s = Some t → strip_prefix p (s +:+ u) = Some (t +:+ u).
Proof.
  revert s. induction p as [|a p IH]; intros s Hp.
  - simpl in *. by inversion Hp.
  - destruct s as [|b s]; [done|]. rewrite append_cons. simpl in *.
    destruct (Ascii.eqb a b); [by apply IH | done].
Qed.

Lemma strip_prefix_rstrip_none p s :
  strip_prefix p s = None → strip_prefix p (rstrip s) = None.
Proof.
  intros Hs. destruct (strip_prefix p (rstrip s)) as [t|] eqn:Hr; [|done].
  destruct (rstrip_cut s) as (ws & Hcut & _). rewrite Hcut in Hs.
  by rewrite (strip_prefix_app_some _ _ _ ws Hr) in Hs.
Qed.

(** A text that does not start with [p] still does not when it is followed
    by a text starting with a character foreign to [p]. *)
Lemma strip_prefix_app_none p s t :
  strip_prefix p s = None →
  (∀ c, head_is (Ascii.eqb c) t = true → all_chars (λ x, negb (x =? c)%char) p = true) →
  strip_prefix p (s +:+ t) = None.
Proof.
  revert s. induction p as [|a p IH]; intros s Hs Ht; [done|].
  destruct s as [|b s].
  - rewrite append_nil_l. destruct t as [|c t]; [done|]. simpl.
    specialize (Ht c). simpl in Ht. rewrite Ascii.eqb_refl in Ht.
    specialize (Ht eq_refl). apply andb_true_iff in Ht as [Hac _].
    apply negb_true_iff in Hac. by rewrite Hac.
  - rewrite append_cons. simpl in *. destruct (Ascii.eqb a b); [|done].
    apply IH; [done|]. intros c Hc. specialize (Ht c Hc). simpl in Ht.
    by apply andb_true_iff in Ht as [_ ?].
Qed.

(** Joined segments whose first does not start with [@as] hold no persona
    block. *)
Lemma no_wrapper_joined seg rest :
  strip seg = seg → strip_prefix "@as" seg = None →
  persona_block (strip (join " > " (seg :: rest))) = None.
Proof.
  intros Hstrip Hseg.
  assert (strip_prefix "@as" (strip (join " > " (seg :: rest))) = None) as Hno;
    [|unfold persona_block; by rewrite Hno].
  assert (∃ t, join " > " (seg :: rest) = seg +:+ t
               ∧ (t = "" ∨ ∃ t', t = String " " (String ">" t'))) as (t & -> & Ht).
  { destruct rest as [|s' rest]; [exists ""; by rewrite append_nil_r; auto|].
    eexists. split; [reflexivity|]. right. by eexists. }
  unfold strip. apply strip_prefix_rstrip_none.
  destruct seg as [|a seg].
  - rewrite append_nil_l. destruct Ht as [-> | [t' ->]]; [done|].
    change (lstrip (String " " (String ">" t'))) with (String ">" t'). done.
  - pose proof (strip_trimmed (String a seg)) as [Hhead _]. rewrite Hstrip in Hhead.
    rewrite lstrip_id by (by rewrite append_cons).
    apply strip_prefix_app_none; [done|].
    intros c Hc. destruct Ht as [-> | [t' ->]]; [done|].
    simpl in Hc. apply Ascii.eqb_eq in Hc as ->. done.
Qed.

Lemma parse_single_fresh command ast :
  _parse_single command = Ok ast → chain ast = None ∧ persona ast = None.
Proof.
  unfold _parse_single. destruct (span is_word command) as [w after].
  destruct (is_empty w); [done|].
  destruct (take_subject (strip after)) as [subj rest]. by intros [= <-].
Qed.

Lemma chained_unfold ast :
  chained ast = match chain ast with
                | Some next => next :: chained next
                | None => []
                end.
Proof. by destruct ast. Qed.

Lemma Forall_tail_rejoined (P : string → Prop) l :
  Forall P (tail l) → Forall P (tail (rejoined l)).
Proof.
  unfold rejoined. destruct (last l) as [[|]|]; try done.
  intros Hl. destruct l as [|a l]; [done|]. simpl in *.
  destruct l as [|b l]; [done|]. simpl.
  clear a. revert b Hl. induction l as [|c l IH]; intros b Hl; [done|].
  apply Forall_cons in Hl as [Hb Hl]. constructor; [done | by apply IH].
Qed.

(** The persona of the head is the one of the leading wrapper, and no chained
    node has one, when no segment after the first starts with [@as]. *)
Lemma chained_persona_within fuel command ast :
  parse_within fuel command = Some (Ok ast) →
  Forall (λ seg, strip_prefix "@as" seg = None)
         (tail (_split_chain (unwrap_persona command).2)) →
  persona ast = (unwrap_persona command).1
  ∧ Forall (λ node, persona node = None) (chained ast).
Proof.
  revert command ast. induction fuel as [|fuel IH]; intros command ast Hparse Hsegs; [done|].
  rewrite parse_within_S in Hparse.
  destruct (unwrap_persona command) as [p body]. cbn [fst snd] in *.
  pose proof (split_chain_trimmed body) as Htrim.
  destruct (_split_chain body) as [|first [|second rest]] eqn:Hsplit.
  - destruct (_parse_single body) as [a|e] eqn:Ha; [|done].
    simpl in Hparse. inversion Hparse; subst ast.
    destruct (parse_single_fresh _ _ Ha) as [Hc _].
    split; [done|]. rewrite chained_unfold. simpl. by rewrite Hc.
  - destruct (_parse_single body) as [a|e] eqn:Ha; [|done].
    simpl in Hparse. inversion Hparse; subst ast.
    destruct (parse_single_fresh _ _ Ha) as [Hc _].
    split; [done|]. rewrite chained_unfold. simpl. by rewrite Hc.
  - destruct (_parse_single first) as [a|e]; [|done].
    destruct (parse_within fuel (join " > " (second :: rest))) as [[next|e]|] eqn:Hnext;
      [|done..].
    inversion Hparse; subst ast. split; [done|].
    rewrite chained_unfold. simpl.
    apply Forall_cons in Hsegs as [Hsecond Hrest].
    apply Forall_cons in Htrim as [_ [Hstrip _]%Forall_cons].
    assert (unwrap_persona (join " > " (second :: rest))
            = (None, strip (join " > " (second :: rest)))) as Hu.
    { unfold unwrap_persona. by rewrite (no_wrapper_joined _ _ Hstrip Hsecond). }
    destruct (IH _ _ Hnext) as [Hp Hchained].
    + rewrite Hu. cbn [snd].
      rewrite (split_chain_rejoin _ _ _ Hsplit) by done.
      by apply Forall_tail_rejoined.
    + constructor; [|done]. by rewrite Hp, Hu.
Qed.

End Rejoin.

(** C3, as the code has it.  For every command that [parse] accepts, the
    persona of the head node is the one of the leading persona wrapper, if
    any, and every node reachable through [chain] has no persona, provided
    that no segment after the first, among the segments of the command
    without its leading wrapper, starts with [@as]. *)
Theorem chained_nodes_without_persona command ast :
  parse command = Some (Ok ast) →
  Forall (λ seg, strip_prefix "@as" seg = None)
         (tail (_split_chain (unwrap_persona command).2)) →
  persona ast = (unwrap_persona command).1
  ∧ Forall (λ node, persona node = None) (chained ast).
Proof. apply chained_persona_within. Qed.

(** C3 as stated fails: [parse] accepts
    [write QintroQ > @as QcriticQ { review }], Q being the double quote, and
    the node chained to its head carries the persona [critic]. *)
Lemma chained_persona_counterexample :
  ¬ (∀ command ast,
       parse command = Some (Ok ast) →
       Forall (λ node, persona node = None) (chained ast)).
Proof.
  intros Hclaim.
  destruct (parse ("write " +:+ quote "intro" +:+ " > @as " +:+ quote "critic" +:+ " { review }"))
    as [[ast|e]|] eqn:Hparse; [|by vm_compute in Hparse..].
  specialize (Hclaim _ ast Hparse).
  vm_compute in Hparse. inversion Hparse; subst ast.
  apply Forall_cons in Hclaim as [Hp _]. discriminate Hp.
Qed.

(** The three-stage pipeline of the tests of the parser: no node has a
    persona. *)
Lemma chained_nodes_without_persona_witness :
  ∃ ast,
    parse "summarize {doc} > translate[es] > format[json]" = Some (Ok ast)
    ∧ persona ast = None
    ∧ Forall (λ node, persona node = None) (chained ast).
Proof.
  destruct (parse "summarize {doc} > translate[es] > format[json]")
    as [[ast|e]|] eqn:Hparse; [|by vm_compute in Hparse..].
  exists ast. split; [reflexivity|].
  apply (chained_nodes_without_persona _ ast Hparse).
  vm_compute. repeat constructor.
Defined.

(** C8 as stated fails: for [report QsalesQ summary & chart & table], Q being
    the double quote, the [parallel] field is not the whole run
    [summary; chart; table]. *)
Lemma parallel_first_identifier_counterexample :
  ¬ (∀ command ast pre w1 items post,
       _parse_single command = Ok ast →
       remainder command = pre +:+ w1 +:+ run_text items +:+ post →
       all_chars not_amp pre = true →
       all_chars is_word w1 = true →
       items ≠ [] →
       Forall item_ok items →
       head_is is_word post = false →
       continues post = false →
       parallel ast = w1 :: (item_word <$> items)).
Proof.
  intros Hclaim.
  destruct (_parse_single ("report " +:+ quote "sales" +:+ " summary & chart & table"))
    as [ast|e] eqn:Hast; [|by vm_compute in Hast].
  specialize (Hclaim _ ast "" "summary" [(" ", " ", "chart"); (" ", " ", "table")] ""
                Hast).
  rewrite (parse_single_parallel _ _ Hast) in Hclaim.
  vm_compute in Hclaim.
  assert (Forall item_ok [(" ", " ", "chart"); (" ", " ", "table")]) as Hok.
  { repeat constructor; by vm_compute. }
  specialize (Hclaim eq_refl eq_refl eq_refl ltac:(done) Hok eq_refl eq_refl).
  discriminate Hclaim.
Qed.

(** On that segment the [parallel] field is [chart; table]. *)
Lemma parallel_omits_first_identifier_witness :
  ∃ ast,
    _parse_single ("report " +:+ quote "sales" +:+ " summary & chart & table") = Ok ast
    ∧ parallel ast = ["chart"; "table"].
Proof.
  destruct (_parse_single ("report " +:+ quote "sales" +:+ " summary & chart & table"))
    as [ast|e] eqn:Hast; [|by vm_compute in Hast].
  exists ast. split; [done|].
  apply (parallel_omits_first_identifier _ ast "" "summary"
           [(" ", " ", "chart"); (" ", " ", "table")] "" Hast).
  - reflexivity.
  - reflexivity.
  - reflexivity.
  - done.
  - repeat constructor; by vm_compute.
  - reflexivity.
  - reflexivity.
Defined.

Section Recursion.

Implicit Types (s t command : string) (c : ascii).

(** More fuel does not change the answer. *)
Lemma parse_within_more fuel fuel' command r :
  parse_within fuel command = Some r → fuel ≤ fuel' → parse_within fuel' command = Some r.
Proof.
  revert fuel' command r. induction fuel as [|fuel IH]; intros fuel' command r Hr Hle; [done|].
  destruct fuel' as [|fuel']; [lia|].
  rewrite parse_within_S in *.
  destruct (unwrap_persona command) as [p body].
  destruct (_split_chain body) as [|first [|second rest]]; [done..|].
  destruct (_parse_single first) as [ast|e]; [|done].
  destruct (parse_within fuel (join " > " (second :: rest))) as [r'|] eqn:Hnext; [|done].
  rewrite (IH fuel' _ _ Hnext) by lia. done.
Qed.

Lemma parse_within_parse fuel command :
  count_char ">" command < fuel → parse_within fuel command = parse command.
Proof.
  intros Hfuel. destruct (parse_total command) as [r Hr]. rewrite Hr.
  apply (parse_within_more _ _ _ _ Hr). unfold lt in Hfuel. done.
Qed.

(** The recursion of [parse], as the source has it. *)
Lemma parse_unfold command :
  parse command
  = let '(persona, body) := unwrap_persona command in
    match _split_chain body with
    | first :: second :: rest =>
        match _parse_single first with
        | Raise e => Some (Raise e)
        | Ok ast =>
            match parse (join " > " (second :: rest)) with
            | None => None
            | Some (Raise e) => Some (Raise e)
            | Some (Ok next) =>
                Some (Ok (set_chain (Some next) (set_persona persona ast)))
            end
        end
    | _ => Some (set_persona persona <$> _parse_single body)
    end.
Proof.
  unfold parse at 1. rewrite parse_within_S.
  pose proof (count_unwrap_persona command) as Hu.
  destruct (unwrap_persona command) as [p body]. simpl in Hu.
  pose proof (split_chain_weight body) as Hw.
  destruct (_split_chain body) as [|first [|second rest]]; [done..|].
  destruct (_parse_single first) as [ast|e]; [|done].
  rewrite parse_within_parse; [done|].
  pose proof (join_weight second rest) as Hj.
  rewrite !weight_cons in Hw. rewrite weight_cons in Hj. lia.
Qed.

(** Induction along the recursive calls of [parse]. *)
Lemma parse_rec (P : string → Prop) :
  (∀ command,
     (∀ first second rest,
        _split_chain (unwrap_persona command).2 = first :: second :: rest →
        P (join " > " (second :: rest))) →
     P command) →
  ∀ command, P command.
Proof.
  intros Hstep command.
  remember (count_char ">" command) as n eqn:Hn.
  revert command Hn. induction (lt_wf n) as [n _ IH]. intros command ->.
  apply Hstep. intros first second rest Hsplit.
  apply (IH (count_char ">" (join " > " (second :: rest)))); [|done].
  pose proof (count_unwrap_persona command) as Hu.
  pose proof (split_chain_weight (unwrap_persona command).2) as Hw.
  rewrite Hsplit in Hw. pose proof (join_weight second rest) as Hj.
  rewrite !weight_cons in Hw. rewrite weight_cons in Hj. lia.
Qed.


Lemma strip_space s : all_chars is_space s = true → strip s = "".
Proof. intros Hs. unfold strip. by rewrite lstrip_space. Qed.

(** A command made of white space only, the empty command included, has no
    action. *)
Lemma parse_blank command :
  all_chars is_space command = true →
  parse command = Some (Raise (ParseError "Could not find action in: ")).
Proof.
  intros Hs. rewrite parse_unfold. unfold unwrap_persona. by rewrite strip_space.
Qed.

Lemma parse_strip command : parse (strip command) = parse command.
Proof.
  rewrite (parse_unfold (strip command)), (parse_unfold command).
  unfold unwrap_persona. by rewrite strip_idemp.
Qed.

Lemma parse_persona command ast :
  parse command = Some (Ok ast) → persona ast = (unwrap_persona command).1.
Proof.
  rewrite parse_unfold. destruct (unwrap_persona command) as [who body].
  destruct (_split_chain body) as [|first [|second rest]].
  - destruct (_parse_single body); [|done]. by intros [= <-].
  - destruct (_parse_single body); [|done]. by intros [= <-].
  - destruct (_parse_single first); [|done].
    destruct (parse (join " > " (second :: rest))) as [[next|]|]; [|done..].
    by intros [= <-].
Qed.

End Recursion.

Section Persona.

Implicit Types (s t command : string) (c : ascii) (p : ascii → bool).

Lemma set_persona_twice (who who' : option string) ast :
  set_persona who (set_persona who' ast) = set_persona who ast.
Proof. done. Qed.

Lemma set_persona_chain (who : option string) next ast :
  set_persona who (set_chain next ast) = set_chain next (set_persona who ast).
Proof. done. Qed.

(** A persona wrapper changes nothing but the persona of the head. *)
Lemma parse_wrapped command name body :
  persona_block (strip command) = Some (name, body) →
  persona_block (strip body) = None →
  parse command
  = (λ r : result AILangAST, set_persona (Some name) <$> r) <$> parse body.
Proof.
  intros Hwrap Hbody. rewrite (parse_unfold command), (parse_unfold body).
  unfold unwrap_persona. rewrite Hwrap, Hbody.
  destruct (_split_chain (strip body)) as [|first [|second rest]].
  - simpl. by destruct (_parse_single (strip body)).
  - simpl. by destruct (_parse_single (strip body)).
  - destruct (_parse_single first) as [ast|e]; [|done].
    by destruct (parse (join " > " (second :: rest))) as [[next|e]|].
Qed.

Lemma span_app_rest p s t run c rest :
  span p s = (run, String c rest) → span p (s +:+ t) = (run, String c rest +:+ t).
Proof.
  revert run. induction s as [|a s IH]; intros run Hs; [done|].
  rewrite append_cons. simpl in *. destruct (p a).
  - destruct (span p s) as [run' rest'] eqn:Hspan. inversion Hs; subst.
    by rewrite (IH run').
  - by inversion Hs.
Qed.

Lemma before_last_none c s :
  before_last c s = None ↔ all_chars (λ x, negb (x =? c)%char) s = true.
Proof.
  induction s as [|a s IH]; simpl; [done|].
  destruct (before_last c s) as [b|].
  - split; [done|]. intros [_ Hs]%andb_true_iff. by apply IH in Hs.
  - destruct (a =? c)%char; simpl; [done|]. split; [intros _; by apply IH | done].
Qed.

Lemma before_last_app c s t b :
  before_last c s = Some b → all_chars (λ x, negb (x =? c)%char) t = true →
  before_last c (s +:+ t) = Some b.
Proof.
  intros Hs Ht. revert b Hs. induction s as [|a s IH]; intros b Hs; [done|].
  rewrite append_cons. simpl in *.
  destruct (before_last c s) as [b'|] eqn:Hb.
  - by rewrite (IH b').
  - assert (before_last c (s +:+ t) = None) as ->; [|done].
    apply before_last_none. rewrite all_chars_app, Ht. by rewrite (proj1 (before_last_none c s) Hb).
Qed.

(** A text without a closing brace after a persona wrapper does not change
    what the wrapper matches. *)
Lemma persona_block_app command t name body :
  persona_block command = Some (name, body) →
  all_chars (λ x, negb (x =? "}")%char) t = true →
  persona_block (command +:+ t) = Some (name, body).
Proof.
  unfold persona_block. intros Hp Ht.
  destruct (strip_prefix "@as" command) as [r1|] eqn:H1; simpl in Hp; [|done].
  rewrite (strip_prefix_app_some _ _ _ t H1). simpl.
  destruct (span is_space r1) as [ws r2] eqn:H2.
  destruct (is_empty ws) eqn:Hws; [done|].
  destruct r2 as [|q r3]; [done|].
  rewrite (span_app_rest _ _ t _ _ _ H2), Hws, append_cons.
  destruct (negb (q =? dquote)%char); [done|].
  destruct (span (λ x, negb (x =? dquote)%char) r3) as [nm r4] eqn:H3.
  destruct (is_empty nm) eqn:Hnm; [done|].
  destruct r4 as [|q' r5]; [done|].
  rewrite (span_app_rest _ _ t _ _ _ H3), Hnm, append_cons.
  destruct (span is_space r5) as [ws' r6] eqn:H5.
  destruct r6 as [|b r7]; [done|].
  rewrite (span_app_rest _ _ t _ _ _ H5), append_cons.
  destruct (negb (b =? "{")%char); [done|].
  destruct (before_last "}" r7) as [bd|] eqn:H7; simpl in Hp; [|done].
  by rewrite (before_last_app _ _ _ _ H7 Ht).
Qed.

Lemma rstrip_app_keep s u :
  s ≠ "" → (∀ c, last_char s = Some c → is_space c = false) →
  rstrip (s +:+ u) = s +:+ rstrip u.
Proof.
  induction s as [|a s IH]; [done|]. intros _ Hlast. rewrite append_cons. simpl.
  destruct s as [|b s].
  - rewrite !append_nil_l. rewrite (Hlast a eq_refl). by destruct (rstrip u).
  - rewrite IH; [|done|done]. by rewrite append_cons.
Qed.

Lemma all_chars_rstrip p s : all_chars p s = true → all_chars p (rstrip s) = true.
Proof.
  induction s as [|a s IH]; [done|]. simpl. intros [Ha Hs]%andb_true_iff.
  specialize (IH Hs). destruct (rstrip s) as [|b r].
  - destruct (is_space a); simpl; [done | by rewrite Ha].
  - simpl in *. by rewrite Ha.
Qed.

Lemma space_not_brace c : is_space c = true → negb (c =? "}")%char = true.
Proof. destruct c as [[] [] [] [] [] [] [] []]; vm_compute; congruence. Qed.

Lemma strip_app_tail command t :
  strip command ≠ "" → all_chars (λ x, negb (x =? "}")%char) t = true →
  ∃ t', strip (command +:+ t) = strip command +:+ t'
        ∧ all_chars (λ x, negb (x =? "}")%char) t' = true.
Proof.
  intros Hne Ht. destruct (strip_cut command) as (ws1 & ws2 & Hcut & Hws1 & Hws2).
  destruct (strip_trimmed command) as [Hhead Hlast].
  exists (rstrip (ws2 +:+ t)). split.
  - rewrite Hcut at 1. rewrite !append_assoc. unfold strip at 1.
    rewrite lstrip_app_space by done. rewrite lstrip_id.
    + by apply rstrip_app_keep.
    + rewrite head_is_app. by rewrite (proj2 (is_empty_false _) Hne).
  - apply all_chars_rstrip. rewrite all_chars_app, Ht.
    by rewrite (all_chars_impl _ _ _ space_not_brace Hws2).
Qed.

(** Whatever follows the last closing brace of a leading persona wrapper is
    dropped. *)
Lemma parse_wrapped_tail command t name body :
  persona_block (strip command) = Some (name, body) →
  all_chars (λ x, negb (x =? "}")%char) t = true →
  parse (command +:+ t) = parse command.
Proof.
  intros Hwrap Ht. rewrite (parse_unfold (command +:+ t)), (parse_unfold command).
  assert (unwrap_persona (command +:+ t) = unwrap_persona command) as ->; [|done].
  unfold unwrap_persona.
  destruct (strip_app_tail command t) as (t' & -> & Ht'); [|done|].
  - intros Hempty. by rewrite Hempty in Hwrap.
  - by rewrite (persona_block_app _ _ _ _ Hwrap Ht'), Hwrap.
Qed.

End Persona.

Section Chains.

Implicit Types (s t command : string) (c : ascii) (l : list string).

(** Splitting joined segments gives them back, but for a last empty one. *)
Lemma split_chain_joined l :
  chainable l → _split_chain (join " > " l) = rejoined l.
Proof.
  intros Hl. destruct l as [|s l]; [done|].
  rewrite finish_scan. by rewrite (rejoin_scan (s :: l) None scan_start).
Qed.

Lemma split_join_split command :
  _split_chain (join " > " (_split_chain command)) = rejoined (_split_chain command).
Proof. apply split_chain_joined, split_chain_chainable. Qed.

Lemma rejoined_id l : last l ≠ Some "" → rejoined l = l.
Proof. unfold rejoined. by destruct (last l) as [[|]|]. Qed.

Lemma last_head_word l :
  Forall (λ seg, head_is is_word seg = true) l → last l ≠ Some "".
Proof.
  intros Hl Hlast. apply last_Some_elem_of in Hlast.
  by apply (proj1 (Forall_forall _ _) Hl) in Hlast.
Qed.

Lemma head_word_no_wrapper s : head_is is_word s = true → strip_prefix "@as" s = None.
Proof.
  destruct s as [|c s]; [done|]. intros Hc.
  change (strip_prefix "@as" (String c s))
    with (if Ascii.eqb "@" c then strip_prefix "as" s else None).
  destruct (Ascii.eqb_spec "@" c) as [<-|Hne]; [|done].
  by vm_compute in Hc.
Qed.

Lemma parsed_from_single seg single who next :
  _parse_single seg = Ok single →
  parsed_from (set_chain next (set_persona who single)) seg.
Proof.
  intros Hs. unfold parsed_from. rewrite Hs. f_equal.
  destruct (parse_single_fresh _ _ Hs) as [Hc Hp]. destruct single. simpl in *.
  by subst.
Qed.

(** Joined segments that each start with a word character are parsed to a
    chain of their nodes, in order. *)
Lemma parse_joined s l :
  chainable (s :: l) →
  Forall (λ seg, strip seg = seg) (s :: l) →
  Forall (λ seg, head_is is_word seg = true) (s :: l) →
  ∃ ast, parse (join " > " (s :: l)) = Some (Ok ast)
         ∧ persona ast = None
         ∧ Forall (λ node, persona node = None) (chained ast)
         ∧ Forall2 parsed_from (ast :: chained ast) (s :: l).
Proof.
  revert s. induction l as [|s' l IH]; intros s Hchain Htrim Hword.
  - apply Forall_cons in Htrim as [Hstrip _]. apply Forall_cons in Hword as [Hs _].
    rewrite parse_unfold. unfold unwrap_persona.
    rewrite (no_wrapper_joined s []) by (done || by apply head_word_no_wrapper).
    simpl join. rewrite Hstrip.
    change s with (join " > " [s]) at 1. rewrite split_chain_joined by done.
    rewrite rejoined_id by (destruct s; done).
    destruct (parse_single_good _ Hs) as (single & Hsingle & _). rewrite Hsingle.
    eexists. split; [done|]. split; [done|].
    destruct (parse_single_fresh _ _ Hsingle) as [Hc Hp].
    rewrite chained_unfold. simpl. rewrite Hc. split; [done|].
    constructor; [|done]. by apply (parsed_from_single _ _ None (chain single)) in Hsingle.
  - pose proof Hchain as Hchain'. apply chainable_tail in Hchain'.
    pose proof Htrim as [Hstrip Htrim']%Forall_cons.
    pose proof Hword as [Hs Hword']%Forall_cons.
    destruct (IH s' Hchain' Htrim' Hword') as (next & Hnext & Hp & Hps & Hnodes).
    rewrite parse_unfold. unfold unwrap_persona.
    rewrite (no_wrapper_joined s (s' :: l)) by (done || by apply head_word_no_wrapper).
    rewrite split_chain_strip, split_chain_joined by done.
    rewrite rejoined_id by by apply last_head_word.
    destruct (parse_single_good _ Hs) as (single & Hsingle & _). rewrite Hsingle, Hnext.
    eexists. split; [done|]. split; [done|].
    rewrite chained_unfold. simpl. split; [by constructor|].
    constructor; [|done]. by apply (parsed_from_single _ _ None (Some next)) in Hsingle.
Qed.

(** The chain that [parse] builds for a command of two or more segments
    that each start with a word character. *)
Lemma parse_chain command first second rest :
  _split_chain (unwrap_persona command).2 = first :: second :: rest →
  Forall (λ seg, head_is is_word seg = true) (first :: second :: rest) →
  ∃ ast, parse command = Some (Ok ast)
         ∧ persona ast = (unwrap_persona command).1
         ∧ Forall (λ node, persona node = None) (chained ast)
         ∧ Forall2 parsed_from (ast :: chained ast) (first :: second :: rest).
Proof.
  intros Hsplit Hword. rewrite parse_unfold.
  pose proof (split_chain_chainable (unwrap_persona command).2) as Hchain.
  pose proof (split_chain_trimmed (unwrap_persona command).2) as Htrim.
  destruct (unwrap_persona command) as [who body]. cbn [fst snd] in *.
  rewrite Hsplit in *.
  apply chainable_tail in Hchain. apply Forall_cons in Htrim as [_ Htrim].
  apply Forall_cons in Hword as [Hfirst Hword].
  destruct (parse_joined _ _ Hchain Htrim Hword) as (next & Hnext & Hp & Hps & Hnodes).
  destruct (parse_single_good _ Hfirst) as (single & Hsingle & _). rewrite Hsingle, Hnext.
  eexists. split; [done|]. split; [done|].
  rewrite chained_unfold. simpl. split; [by constructor|].
  constructor; [|done]. by apply (parsed_from_single _ _ who (Some next)) in Hsingle.
Qed.

End Chains.

Section Nodes.

Implicit Types (s t command : string) (c : ascii) (m : matcher).

Lemma findall_from_matches fuel m s x :
  x ∈ findall_from fuel m s → ∃ t rest, m t = Some (x, rest).
Proof.
  revert s. induction fuel as [|fuel IH]; intros s; simpl; [by intros ?%elem_of_nil|].
  destruct (m s) as [[group rest]|] eqn:Hm.
  - intros [->|Hin]%elem_of_cons; [eauto | by apply IH in Hin].
  - destruct s as [|c s]; [by intros ?%elem_of_nil | apply IH].
Qed.

Lemma findall_matches m s (P : string → Prop) :
  (∀ t x rest, m t = Some (x, rest) → P x) → Forall P (findall m s).
Proof.
  intros Hm. apply Forall_forall. intros x Hx.
  apply findall_from_matches in Hx as (t & rest & Ht). by apply (Hm _ _ _ Ht).
Qed.

Lemma search_matches m s found : search m s = Some found → ∃ t, m t = Some found.
Proof.
  induction s as [|c s IH]; simpl.
  - destruct (m "") eqn:Hm; [intros [= <-]; eauto | done].
  - destruct (m (String c s)) eqn:Hm; [intros [= <-]; eauto | done].
Qed.

Lemma span_word_ok s : is_empty (span is_word s).1 = false → name_ok (span is_word s).1.
Proof.
  intros Hne. split; [by apply is_empty_false|]. by destruct (span_spec is_word s) as (_ & ? & _).
Qed.

Lemma sigil_word_ok sigil t x rest : sigil_word sigil t = Some (x, rest) → name_ok x.
Proof.
  destruct t as [|c t]; [done|]. simpl. destruct (c =? sigil)%char; [|done].
  pose proof (span_word_ok t) as Hok. destruct (span is_word t) as [w r]. simpl in Hok.
  destruct (is_empty w); [done|]. intros [= <- _]. by apply Hok.
Qed.

Lemma placeholder_ok t x rest : placeholder t = Some (x, rest) → name_ok x.
Proof.
  destruct t as [|c t]; [done|]. simpl. destruct (c =? "{")%char; [|done].
  pose proof (span_word_ok t) as Hok. destruct (span is_word t) as [w r]. simpl in Hok.
  destruct r as [|d r]; [done|].
  destruct (is_empty w); [by rewrite andb_false_r|].
  destruct (d =? "}")%char; [|done]. intros [= <- _]. by apply Hok.
Qed.

Lemma bracketed_ok t x rest : bracketed t = Some (x, rest) → x ≠ "" ∧ without "]" x.
Proof.
  destruct t as [|c t]; [done|]. simpl. destruct (c =? "[")%char; [|done].
  destruct (span_spec (λ x, negb (x =? "]")%char) t) as (_ & Hall & _).
  destruct (span _ t) as [body r]. simpl in Hall.
  destruct r as [|d r]; [done|].
  destruct (is_empty body) eqn:Hb; [done|]. intros [= <- _].
  split; [by apply is_empty_false | done].
Qed.

Lemma quoted_ok t x rest : quoted t = Some (x, rest) → without dquote x.
Proof.
  destruct t as [|c t]; [done|]. simpl. destruct (c =? dquote)%char; [|done].
  destruct (span_spec (λ x, negb (x =? dquote)%char) t) as (_ & Hall & _).
  destruct (span _ t) as [body r]. simpl in Hall.
  destruct r as [|d r]; [done|]. by intros [= <- _].
Qed.

Lemma word_not_quote c : is_word c = true → negb (c =? dquote)%char = true.
Proof. destruct c as [[] [] [] [] [] [] [] []]; vm_compute; congruence. Qed.

Lemma take_subject_ok rest : without dquote (take_subject rest).1.
Proof.
  unfold take_subject. destruct (quoted rest) as [[text after]|] eqn:Hq.
  - by apply quoted_ok in Hq.
  - destruct (placeholder rest) as [[name after]|] eqn:Hp; [|done].
    apply placeholder_ok in Hp as [_ Hw]. unfold without. cbn [fst].
    change ("{" +:+ name +:+ "}") with (String "{" (name +:+ "}")).
    cbn [all_chars]. rewrite all_chars_app, (all_chars_impl _ _ _ word_not_quote Hw). done.
Qed.

(** What the repetition of the parallel pattern consumes is a run of
    items. *)
Lemma parallel_more_items fuel s text rest :
  parallel_more fuel s = (text, rest) →
  ∃ items, Forall item_ok items ∧ text = run_text items.
Proof.
  revert s text rest. induction fuel as [|fuel IH]; intros s text rest; simpl.
  - intros [= <- _]. by exists [].
  - destruct (span_spec is_space s) as (_ & Hws1 & _).
    destruct (span is_space s) as [ws1 s1]. simpl in Hws1.
    destruct s1 as [|c s2]; [intros [= <- _]; by exists []|].
    destruct (c =? "&")%char; [|intros [= <- _]; by exists []].
    destruct (span_spec is_space s2) as (_ & Hws2 & _).
    destruct (span is_space s2) as [ws2 s3]. simpl in Hws2.
    pose proof (span_word_ok s3) as Hw.
    destruct (span is_word s3) as [w s4]. simpl in Hw.
    destruct (is_empty w); [intros [= <- _]; by exists []|].
    destruct (parallel_more fuel s4) as [more rest'] eqn:Hmore.
    intros [= <- _]. destruct (IH _ _ _ Hmore) as (items & Hitems & ->).
    exists ((ws1, ws2, w) :: items). split; [|done].
    constructor; [|done]. destruct Hw as [Hne Hw]; [done|]. by repeat split.
Qed.

Lemma find_parallel_ok rest : Forall name_ok (find_parallel rest).
Proof.
  unfold find_parallel. destruct (search parallel_run rest) as [[group0 after]|] eqn:Hs; [|done].
  apply search_matches in Hs as [t Ht].
  destruct t as [|c s1]; [done|]. simpl in Ht.
  destruct (c =? "&")%char; [|done].
  destruct (span_spec is_space s1) as (_ & Hws & _).
  destruct (span is_space s1) as [ws s2]. simpl in Hws.
  pose proof (span_word_ok s2) as Hw.
  destruct (span is_word s2) as [w s3]. simpl in Hw.
  destruct (is_empty w); [done|]. destruct Hw as [Hne Hw]; [done|].
  destruct (parallel_more (String.length s3) s3) as [more rest'] eqn:Hmore.
  inversion Ht; subst group0 after.
  destruct (parallel_more_items _ _ _ _ Hmore) as (items & Hitems & ->).
  unfold parallel_items. rewrite append_cons, append_nil_l. simpl split_where.
  rewrite fmap_cons. change (strip "") with "".
  rewrite filter_cons_False by (by intros ?).
  rewrite parallel_items_run by done.
  constructor; [done|]. apply Forall_fmap.
  eapply Forall_impl; [exact Hitems|]. intros [[a b] x] (_ & _ & Hx & Hxne). done.
Qed.

Lemma variables_ok (names : list string) (vars : gmap string string) name value :
  Forall name_ok names →
  foldl (λ vars var, <[var := ""]> vars) vars names !! name = Some value →
  vars !! name = Some value ∨ (name_ok name ∧ value = "").
Proof.
  intros Hnames. revert vars. induction Hnames as [|n names Hn _ IH]; intros vars; [by left|].
  simpl. intros [Hin|?]%IH; [|by right].
  destruct (decide (n = name)) as [->|Hne].
  - rewrite lookup_insert_eq in Hin. inversion Hin. by right.
  - rewrite lookup_insert_ne in Hin by done. by left.
Qed.

Lemma parse_single_ok command ast : _parse_single command = Ok ast → node_ok ast.
Proof.
  unfold _parse_single. pose proof (span_word_ok command) as Hact.
  destruct (span is_word command) as [w after]. simpl in Hact.
  destruct (is_empty w); [done|].
  pose proof (take_subject_ok (strip after)) as Hsubj.
  destruct (take_subject (strip after)) as [subj rest]. simpl in Hsubj.
  intros [= <-]. unfold node_ok. simpl.
  split; [by apply Hact|]. split; [done|].
  split; [apply findall_matches, bracketed_ok|].
  split; [apply findall_matches, sigil_word_ok|].
  split; [apply findall_matches, sigil_word_ok|].
  split; [apply findall_matches, sigil_word_ok|].
  split; [apply findall_matches, sigil_word_ok|].
  split; [apply find_parallel_ok|]. split; [done|].
  intros name value Hv. apply variables_ok in Hv as [Hv|?]; [done|done|].
  apply findall_matches, placeholder_ok.
Qed.

Lemma persona_block_ok command name body :
  persona_block command = Some (name, body) → name ≠ "" ∧ without dquote name.
Proof.
  unfold persona_block. intros Hp.
  destruct (strip_prefix "@as" command) as [r1|]; simpl in Hp; [|done].
  destruct (span is_space r1) as [ws r2].
  destruct (is_empty ws); [done|].
  destruct r2 as [|q r3]; [done|].
  destruct (negb (q =? dquote)%char); [done|].
  destruct (span_spec (λ x, negb (x =? dquote)%char) r3) as (_ & Hall & _).
  destruct (span _ r3) as [nm r4]. simpl in Hall.
  destruct (is_empty nm) eqn:Hnm; [done|].
  destruct r4 as [|q' r5]; [done|].
  destruct (span is_space r5) as [ws' r6].
  destruct r6 as [|b r7]; [done|].
  destruct (negb (b =? "{")%char); [done|].
  destruct (before_last "}" r7) as [bd|]; simpl in Hp; [|done].
  destruct (is_empty bd); [done|]. inversion Hp; subst.
  split; [by apply is_empty_false | done].
Qed.

Lemma unwrap_persona_ok command who :
  (unwrap_persona command).1 = Some who → who ≠ "" ∧ without dquote who.
Proof.
  unfold unwrap_persona.
  destruct (persona_block (strip command)) as [[name body]|] eqn:Hp; [|done].
  simpl. intros [= <-]. by apply persona_block_ok in Hp.
Qed.

Lemma node_ok_set ast who next :
  node_ok ast → (∀ w, who = Some w → w ≠ "" ∧ without dquote w) →
  node_ok (set_chain next (set_persona who ast)).
Proof.
  intros (?&?&?&?&?&?&?&?&_&Hvars) Hwho. unfold node_ok. simpl.
  do 8 (split; [assumption|]). split; [exact Hwho | exact Hvars].
Qed.

(** Every node of the tree that [parse] returns is well formed. *)
Lemma parse_ok command ast :
  parse command = Some (Ok ast) → Forall node_ok (ast :: chained ast).
Proof.
  revert ast. induction command as [command IH] using parse_rec. intros ast.
  rewrite parse_unfold. pose proof (unwrap_persona_ok command) as Hwho.
  destruct (unwrap_persona command) as [who body]. cbn [fst snd] in IH, Hwho.
  assert (∀ seg, Some (set_persona who <$> _parse_single seg) = Some (Ok ast) →
            Forall node_ok (ast :: chained ast)) as Hsingle.
  { intros seg Hseg. destruct (_parse_single seg) as [single|] eqn:Hs; [|done].
    simpl in Hseg. inversion Hseg; subst ast.
    destruct (parse_single_fresh _ _ Hs) as [Hc _].
    rewrite chained_unfold. simpl. rewrite Hc. constructor; [|done].
    pose proof (node_ok_set single who (chain single) (parse_single_ok _ _ Hs) Hwho) as Hok.
    destruct single. simpl in *. by subst. }
  destruct (_split_chain body) as [|first [|second rest]]; [apply Hsingle..|].
  destruct (_parse_single first) as [single|] eqn:Hs; [|done].
  destruct (parse (join " > " (second :: rest))) as [[next|]|] eqn:Hnext; [|done..].
  intros [= <-]. rewrite chained_unfold. simpl. constructor.
  - apply node_ok_set; [by apply (parse_single_ok first) | done].
  - by apply (IH _ _ _ eq_refl).
Qed.

End Nodes.

Section Warnings.

Lemma validate_clean ast :
  validate ast = []
  ↔ action ast ∈ valid_actions
    ∧ (subject ast ≠ "" ∨ action ast ∈ ["list"; "brainstorm"]).
Proof.
  unfold validate.
  destruct (bool_decide_reflect (action ast ∈ valid_actions)) as [Hin|Hout].
  - destruct (subject ast) as [|c s] eqn:Hs; simpl.
    + destruct (bool_decide_reflect (action ast ∈ ["list"; "brainstorm"])) as [Hl|Hl]; simpl.
      * split; [|done]. intros _. split; [done | by right].
      * split; [done|]. by intros [_ [?|?]].
    + split; [|done]. intros _. split; [done | by left].
  - split.
    + intros Hw. by destruct (is_empty _ && _).
    + by intros [? _].
Qed.

Lemma validate_length ast : length (validate ast) ≤ 2.
Proof.
  unfold validate. repeat case_match; cbn [app length]; lia.
Qed.

End Warnings.

Section Sigils.

Implicit Types (s t w : string) (c sigil : ascii).

Lemma findall_from_end fuel (m : matcher) : m "" = None → findall_from fuel m "" = [].
Proof. intros Hm. destruct fuel; simpl; [done | by rewrite Hm]. Qed.

Lemma findall_from_hit fuel (m : matcher) s group rest :
  m s = Some (group, rest) →
  findall_from (S fuel) m s = group :: findall_from fuel m rest.
Proof. intros Hm. simpl. by rewrite Hm. Qed.

Lemma findall_from_skip sigil s t fuel :
  all_chars (λ c, negb (c =? sigil)%char) s = true →
  findall_from (String.length s + fuel) (sigil_word sigil) (s +:+ t)
  = findall_from fuel (sigil_word sigil) t.
Proof.
  induction s as [|c s IH]; [done|]. intros Hall. simpl in Hall.
  apply andb_true_iff in Hall as [Hc Hs]. apply negb_true_iff in Hc.
  rewrite append_cons. simpl. rewrite Hc. by apply IH.
Qed.

Lemma sigil_word_at sigil w rest :
  all_chars is_word w = true → w ≠ "" → head_is is_word rest = false →
  sigil_word sigil (String sigil (w +:+ rest)) = Some (w, rest).
Proof.
  intros Hw Hne Hrest. simpl. rewrite Ascii.eqb_refl, (span_app is_word w) by done.
  by rewrite (proj2 (is_empty_false w) Hne).
Qed.

Lemma sigil_word_end sigil w :
  all_chars is_word w = true → w ≠ "" → sigil_word sigil (String sigil w) = Some (w, "").
Proof.
  intros Hw Hne. rewrite <- (append_nil_r w) at 1. by apply sigil_word_at.
Qed.

Lemma last_char_app s t : t ≠ "" → last_char (s +:+ t) = last_char t.
Proof.
  intros Ht. induction s as [|c s IH]; [done|]. rewrite append_cons.
  destruct (s +:+ t) as [|d u] eqn:Hst.
  - destruct s, t; done.
  - by rewrite <- IH.
Qed.

(** A [!] modifier that contains an underscore is read a second time, from
    the underscore on, as an [_] modifier. *)
Lemma parse_single_underscore act a b :
  name_ok act →
  all_chars (λ c, is_word c && negb (c =? "_")%char) a = true →
  name_ok b →
  ∃ ast, _parse_single (act +:+ " !" +:+ a +:+ "_" +:+ b) = Ok ast
         ∧ action ast = act
         ∧ must ast = [a +:+ "_" +:+ b]
         ∧ avoid ast = [b].
Proof.
  intros [Hact_ne Hact] Ha [Hb_ne Hb].
  assert (all_chars is_word a = true) as Haw.
  { eapply all_chars_impl; [|exact Ha]. by intros c [? _]%andb_true_iff. }
  assert (all_chars (λ c, negb (c =? "_")%char) a = true) as Hau.
  { eapply all_chars_impl; [|exact Ha]. by intros c [_ ?]%andb_true_iff. }
  set (rest := "!" +:+ a +:+ "_" +:+ b).
  assert (strip (String " " rest) = rest) as Hstrip.
  { change (strip (String " " rest)) with (strip rest). apply strip_id; [done|].
    intros c Hc. unfold rest in Hc. rewrite !last_char_app in Hc by (done || by destruct a).
    destruct (is_space c) eqn:Hs; [|done]. apply space_not_word in Hs.
    by rewrite (all_last _ _ _ Hb Hc) in Hs. }
  unfold _parse_single.
  change (act +:+ " !" +:+ a +:+ "_" +:+ b) with (act +:+ String " " rest).
  rewrite (span_app is_word act) by done.
  rewrite (proj2 (is_empty_false act) Hact_ne), Hstrip.
  change (take_subject rest) with ("", rest).
  eexists. split; [done|]. split; [done|]. simpl must. simpl avoid. split.
  - unfold findall, rest. rewrite append_cons, append_nil_l.
    rewrite (findall_from_hit _ _ _ (a +:+ "_" +:+ b) "").
    + by rewrite findall_from_end.
    + apply sigil_word_end; [by rewrite !all_chars_app, Haw, Hb | by destruct a].
  - unfold findall.
    replace rest with (("!" +:+ a) +:+ String "_" b).
    2:{ unfold rest. by rewrite append_assoc. }
    replace (S (String.length (("!" +:+ a) +:+ String "_" b)))
      with (String.length ("!" +:+ a) + S (S (String.length b))).
    2:{ rewrite !length_append. simpl. lia. }
    rewrite findall_from_skip by (by rewrite append_cons, append_nil_l; simpl; rewrite Hau).
    rewrite (findall_from_hit _ _ _ b "") by by apply sigil_word_end.
    by rewrite findall_from_end.
Qed.

End Sigils.


(** X2.  A command made of white space only, the empty command included, is
    refused: [parse] raises the [ParseError] whose message ends with an empty
    segment. *)
Theorem parse_blank_command (command : string) :
  all_chars is_space command = true →
  parse command = Some (Raise (ParseError "Could not find action in: ")).
Proof. apply parse_blank. Qed.

(** Three spaces. *)
Lemma parse_blank_command_witness :
  parse "   " = Some (Raise (ParseError "Could not find action in: ")).
Proof. apply (parse_blank_command "   "). reflexivity. Defined.

(** X3.  The white space around a command is not seen: [parse] and
    [_split_chain] answer on the stripped command as on the command. *)
Theorem outer_space_is_ignored (command : string) :
  parse (strip command) = parse command
  ∧ _split_chain (strip command) = _split_chain command.
Proof. split; [apply parse_strip | apply split_chain_strip]. Qed.

(** X4.  A leading persona wrapper changes nothing but the persona of the
    head node: when the stripped command matches the persona pattern with the
    name [name] and the body [body], and the body does not itself start with
    a wrapper, [parse] answers on the command what it answers on the body,
    with the persona of the head set to [name]. *)
Theorem persona_wrapper_sets_head_persona (command name body : string) :
  persona_block (strip command) = Some (name, body) →
  persona_block (strip body) = None →
  parse command
  = (λ r : result AILangAST, set_persona (Some name) <$> r) <$> parse body.
Proof. apply parse_wrapped. Qed.

(** The wrapped command of the tests of the parser. *)
Lemma persona_wrapper_sets_head_persona_witness :
  parse ("@as " +:+ quote "expert" +:+ " { review {code} }")
  = (λ r : result AILangAST, set_persona (Some "expert") <$> r)
      <$> parse " review {code} ".
Proof.
  apply (persona_wrapper_sets_head_persona
           ("@as " +:+ quote "expert" +:+ " { review {code} }") "expert" " review {code} ");
    reflexivity.
Defined.

(** X5.  What follows the last closing brace of a leading persona wrapper is
    dropped: the pattern is matched at the start of the command and need not
    reach its end, and only the body of the wrapper is parsed.  A text
    without a closing brace appended to a wrapped command does not change
    what [parse] answers; a chain written after the wrapper is lost. *)
Theorem text_after_persona_wrapper_is_dropped (command tail name body : string) :
  persona_block (strip command) = Some (name, body) →
  without "}" tail →
  parse (command +:+ tail) = parse command.
Proof. intros Hwrap Htail. by apply (parse_wrapped_tail _ _ _ _ Hwrap). Qed.

(** The chain after the wrapper is not parsed. *)
Lemma text_after_persona_wrapper_is_dropped_witness :
  parse (("@as " +:+ quote "expert" +:+ " { review }") +:+ " > summarize")
  = parse ("@as " +:+ quote "expert" +:+ " { review }").
Proof.
  apply (text_after_persona_wrapper_is_dropped
           ("@as " +:+ quote "expert" +:+ " { review }") " > summarize" "expert" " review ");
    reflexivity.
Defined.

(** X6.  Every node of a tree that [parse] returns, the head and the nodes
    reachable through [chain], is well formed: its action and each of its
    [!], [~], [^] and [_] modifiers and parallel outputs is a non-empty run
    of word characters; its specifiers are not empty and hold no closing
    bracket; its subject holds no double quote; its persona, if any, is not
    empty and holds no double quote; the keys of its variables are non-empty
    runs of word characters and their values are empty. *)
Theorem parsed_nodes_are_well_formed (command : string) (ast : AILangAST) :
  parse command = Some (Ok ast) → Forall node_ok (ast :: chained ast).
Proof. apply parse_ok. Qed.

(** The command with mixed modifiers of the tests of the parser. *)
Lemma parsed_nodes_are_well_formed_witness :
  ∃ ast,
    parse ("code " +:+ quote "sort" +:+ " [python] !typed ^fast _verbose ~elegant")
    = Some (Ok ast)
    ∧ Forall node_ok (ast :: chained ast).
Proof.
  destruct (parse ("code " +:+ quote "sort" +:+ " [python] !typed ^fast _verbose ~elegant"))
    as [[ast|e]|] eqn:Hparse; [|by vm_compute in Hparse..].
  exists ast. split; [reflexivity|].
  exact (parsed_nodes_are_well_formed _ ast Hparse).
Defined.

(** X7.  A command of two or more segments that each start with a word
    character is accepted, and the tree has one node for each segment, in
    order: the head and the nodes reachable through [chain] are what
    [_parse_single] builds for the first, the second, ... segment, linked by
    [chain]; the head carries the persona of the leading wrapper, if any, and
    the other nodes none. *)
Theorem chain_has_one_node_per_segment (command first second : string)
    (rest : list string) :
  _split_chain (unwrap_persona command).2 = first :: second :: rest →
  Forall (λ seg, head_is is_word seg = true) (first :: second :: rest) →
  ∃ ast, parse command = Some (Ok ast)
         ∧ persona ast = (unwrap_persona command).1
         ∧ Forall (λ node, persona node = None) (chained ast)
         ∧ Forall2 parsed_from (ast :: chained ast) (first :: second :: rest).
Proof. apply parse_chain. Qed.

(** The pipeline of three segments of the tests of the parser. *)
Lemma chain_has_one_node_per_segment_witness :
  ∃ ast,
    parse "summarize {doc} > translate[es] > format[json]" = Some (Ok ast)
    ∧ persona ast = None
    ∧ Forall (λ node, persona node = None) (chained ast)
    ∧ Forall2 parsed_from (ast :: chained ast)
        ["summarize {doc}"; "translate[es]"; "format[json]"].
Proof.
  apply (chain_has_one_node_per_segment "summarize {doc} > translate[es] > format[json]"
           "summarize {doc}" "translate[es]" ["format[json]"]).
  - reflexivity.
  - repeat constructor.
Defined.

(** X8.  Joining the segments of a command with the chain operator and
    splitting again gives the same segments, but for a last empty segment,
    which is lost; when the last segment is not empty the segments come back
    unchanged. *)
Theorem split_join_round_trip (command : string) :
  _split_chain (join " > " (_split_chain command)) = rejoined (_split_chain command)
  ∧ (last (_split_chain command) ≠ Some "" →
     _split_chain (join " > " (_split_chain command)) = _split_chain command).
Proof.
  split; [apply split_join_split|].
  intros Hlast. rewrite split_join_split. by apply rejoined_id.
Qed.

(** X9.  The [_] pattern is searched in the whole remainder of a segment, so
    a [!] modifier that contains an underscore is read a second time from its
    first underscore on: the segment [act !a_b], where [a] holds no
    underscore, has the [must] modifier [a_b] and the [avoid] modifier
    [b]. *)
Theorem must_modifier_with_underscore_is_also_avoid (act a b : string) :
  name_ok act →
  all_chars (λ c, is_word c && negb (c =? "_")%char) a = true →
  name_ok b →
  ∃ ast, _parse_single (act +:+ " !" +:+ a +:+ "_" +:+ b) = Ok ast
         ∧ action ast = act
         ∧ must ast = [a +:+ "_" +:+ b]
         ∧ avoid ast = [b].
Proof. apply parse_single_underscore. Qed.

(** The modifier [under_100], which the transpiler reads as a length
    limit. *)
Lemma must_modifier_with_underscore_is_also_avoid_witness :
  ∃ ast, _parse_single "write !under_100" = Ok ast
         ∧ action ast = "write"
         ∧ must ast = ["under_100"]
         ∧ avoid ast = ["100"].
Proof.
  apply (must_modifier_with_underscore_is_also_avoid "write" "under" "100").
  - split; [discriminate | reflexivity].
  - reflexivity.
  - split; [discriminate | reflexivity].
Defined.

(** X10.  [validate] gives no warning exactly when the action of the head is
    one of [valid_actions] and either the subject is not empty or the action
    is [list] or [brainstorm].  It gives at most two warnings, and it does
    not look at the chain: the nodes after the head are not validated. *)
Theorem validate_warnings (ast : AILangAST) :
  (validate ast = []
   ↔ action ast ∈ valid_actions
     ∧ (subject ast ≠ "" ∨ action ast ∈ ["list"; "brainstorm"]))
  ∧ length (validate ast) ≤ 2
  ∧ ∀ next, validate (set_chain next ast) = validate ast.
Proof. split; [apply validate_clean | split; [apply validate_length | done]]. Qed.

End ParserFacts.

(** ** The contract engine *)

Module ContractFacts.

Import Contracts TextFacts.

Section Fields.

Context `{Runtime}.

Implicit Types (s : string) (v : value) (t : TypeConstraint)
  (schema : list (string * TypeConstraint)) (data res : gmap string value).

Lemma set_and_zero test : set_and (Some 0%Z) test = false.
Proof. reflexivity. Qed.

(** [Str.parse]: the text of the value, cut to [max - 3] characters and an
    ellipsis when it is longer than a truthy [max]. *)
Lemma Str_parse_spec (mx : Z) v :
  (mx ≠ 0)%Z →
  Str_parse (Some mx) v
  = Ok (VStr (if (len (py_str v) >? mx)%Z
              then slice_to (py_str v) (mx - 3) +:+ "..."
              else py_str v)).
Proof.
  intros Hmx. unfold Str_parse, set_and. simpl.
  apply Z.eqb_neq in Hmx. rewrite Hmx. simpl.
  by destruct (len (py_str v) >? mx)%Z.
Qed.

Lemma parse_fields_agree schema data data' res :
  (∀ name, name ∈ schema.*1 → data !! name = data' !! name) →
  parse_fields schema data res = parse_fields schema data' res.
Proof.
  revert res. induction schema as [|[name t] later IH]; intros res Hagree; [done|].
  simpl. rewrite <- (Hagree name) by (simpl; left).
  assert (∀ res', parse_fields later data res' = parse_fields later data' res') as IH'.
  { intros res'. apply IH. intros n Hn. apply Hagree. simpl. by right. }
  destruct (data !! name) as [v|].
  - destruct (validate t v) as [[]|e]; simpl; [|done..].
    destruct (parse t v) as [parsed|e]; simpl; [apply IH'|done].
  - destruct (is_Optional t); [apply IH'|done].
Qed.

Lemma parse_fields_dom schema data res out :
  parse_fields schema data res = Ok out →
  dom out = dom res ∪ list_to_set schema.*1.
Proof.
  revert res. induction schema as [|[name t] later IH]; intros res Hout.
  - simpl in *. inversion Hout. by rewrite union_empty_r_L.
  - assert (∀ parsed, dom (<[name := parsed]> res) ∪ list_to_set later.*1
                      = dom res ∪ list_to_set ((name, t) :: later).*1) as Hdom.
    { intros parsed. rewrite dom_insert_L. simpl.
      by rewrite (comm_L (∪) {[name]} (dom res)), (assoc_L (∪)). }
    simpl in Hout. destruct (data !! name) as [v|].
    + destruct (validate t v) as [[]|e]; simpl in Hout; [|done..].
      destruct (parse t v) as [parsed|e]; simpl in Hout; [|done].
      apply IH in Hout. by rewrite Hout, Hdom.
    + destruct (is_Optional t); [|done].
      apply IH in Hout. by rewrite Hout, Hdom.
Qed.

(** A field absent from the data is, on success, an [Optional_] one and is
    mapped to [None]. *)
Lemma parse_fields_absent schema data res out name t :
  parse_fields schema data res = Ok out →
  (name, t) ∈ schema → data !! name = None →
  is_Optional t = true ∧ out !! name = Some VNone.
Proof.
  revert res. induction schema as [|[name' t'] later IH]; intros res Hout Hin Hno.
  - by apply elem_of_nil in Hin.
  - simpl in Hout.
    assert (∀ res', parse_fields later data res' = Ok out →
                    res' !! name = Some VNone → out !! name = Some VNone) as Hkeep.
    { clear -Hno. revert out. induction later as [|[n u] later IHl]; intros out res' Ho Hr.
      - simpl in Ho. by inversion Ho; subst.
      - simpl in Ho. destruct (data !! n) as [v|] eqn:Hn.
        + destruct (validate u v) as [[]|e]; simpl in Ho; [|done..].
          destruct (parse u v) as [parsed|e]; simpl in Ho; [|done].
          apply (IHl _ _ Ho). rewrite lookup_insert_ne; [done|]. congruence.
        + destruct (is_Optional u); [|done].
          apply (IHl _ _ Ho). destruct (decide (n = name)) as [->|Hne].
          * by rewrite lookup_insert_eq.
          * by rewrite lookup_insert_ne. }
    apply elem_of_cons in Hin as [Heq | Hin].
    + inversion Heq; subst name' t'. rewrite Hno in Hout.
      destruct (is_Optional t); [|done]. split; [done|].
      apply (Hkeep _ Hout). by rewrite lookup_insert_eq.
    + destruct (data !! name') as [v|].
      * destruct (validate t' v) as [[]|e]; simpl in Hout; [|done..].
        destruct (parse t' v) as [parsed|e]; simpl in Hout; [|done].
        by apply (IH _ Hout).
      * destruct (is_Optional t'); [|done]. by apply (IH _ Hout).
Qed.


(** The first field that is absent and not optional stops the loop. *)
Lemma parse_fields_first_missing before name t after data res :
  Forall (field_passes data) before →
  data !! name = None → is_Optional t = false →
  parse_fields (before ++ (name, t) :: after) data res
  = Raise (ContractError ("Missing required field: " +:+ name)).
Proof.
  intros Hbefore Hno Hopt. revert res.
  induction Hbefore as [|[n u] before Hf Hbefore IH]; intros res.
  - simpl. by rewrite Hno, Hopt.
  - simpl. unfold field_passes in Hf. simpl in Hf.
    destruct (data !! n) as [v|].
    + destruct Hf as [-> [parsed ->]]. simpl. apply IH.
    + rewrite Hf. apply IH.
Qed.

Lemma parse_response_decoded schema response data :
  json_loads (unfence response) = inr (VDict data) →
  parse_response schema response = parse_fields schema data ∅.
Proof. unfold parse_response. by intros ->. Qed.

End Fields.

(** C1.  [parse_response] processes the fields of the schema in schema order
    against the decoded object.  At a field absent from the object the loop
    either goes on with the field mapped to [None], when its constraint is an
    [Optional_], or raises the [ContractError] whose message is
    [Missing required field: ] followed by the name.  Hence the first absent
    field that is not optional, reached when every earlier field is processed
    without error, decides the outcome; and on success every absent field of
    the schema is optional and mapped to [None].  Keys of the object that the
    schema does not name are ignored: two objects that agree on the names of
    the schema give the same outcome, and the keys of a result are exactly
    the names of the schema. *)
Theorem parse_response_missing_and_extra_fields `{Runtime}
    (schema : list (string * TypeConstraint)) (data : gmap string value) :
  (∀ name t later res,
     data !! name = None →
     parse_fields ((name, t) :: later) data res
     = if is_Optional t
       then parse_fields later data (<[name := VNone]> res)
       else Raise (ContractError ("Missing required field: " +:+ name)))
  ∧ (∀ before name t after,
       schema = before ++ (name, t) :: after →
       Forall (field_passes data) before →
       data !! name = None → is_Optional t = false →
       parse_fields schema data ∅
       = Raise (ContractError ("Missing required field: " +:+ name)))
  ∧ (∀ out name t,
       parse_fields schema data ∅ = Ok out →
       (name, t) ∈ schema → data !! name = None →
       is_Optional t = true ∧ out !! name = Some VNone)
  ∧ (∀ data',
       (∀ name, name ∈ schema.*1 → data' !! name = data !! name) →
       parse_fields schema data' ∅ = parse_fields schema data ∅)
  ∧ (∀ out, parse_fields schema data ∅ = Ok out → dom out = list_to_set schema.*1)
  ∧ (∀ response,
       json_loads (unfence response) = inr (VDict data) →
       parse_response schema response = parse_fields schema data ∅).
Proof.
  split; [|split; [|split; [|split; [|split]]]].
  - intros name t later res Hno. simpl. by rewrite Hno.
  - intros before name t after -> Hb Hno Hopt. by apply parse_fields_first_missing.
  - intros out name t. apply parse_fields_absent.
  - intros data' Hagree. by apply parse_fields_agree.
  - intros out Hout. apply parse_fields_dom in Hout.
    by rewrite Hout, dom_empty_L, union_empty_l_L.
  - intros response. apply parse_response_decoded.
Qed.

(** The contract of the test with an optional field: the empty object misses
    [required]; with [required] and a key outside the schema, [optional] is
    mapped to [None] and the extra key is not in the result. *)
Lemma parse_response_missing_and_extra_fields_witness :
  let schema :=
    [("required", Str None None None); ("optional", Optional_ (Str None None None))] in
  let data : gmap string value := <["extra" := VInt 1]> {["required" := VStr "yes"]} in
  @parse_fields bare_runtime schema ∅ ∅
  = Raise (ContractError "Missing required field: required")
  ∧ ∃ out, @parse_fields bare_runtime schema data ∅ = Ok out
           ∧ out !! "optional" = Some VNone
           ∧ out !! "extra" = None.
Proof.
  intros schema data. split.
  - apply (proj1 (proj2 (@parse_response_missing_and_extra_fields bare_runtime schema ∅))
             [] "required" (Str None None None)
             [("optional", Optional_ (Str None None None))]);
      [reflexivity | constructor | reflexivity | reflexivity].
  - destruct (@parse_fields bare_runtime schema data ∅) as [out|e] eqn:Hout;
      [|by vm_compute in Hout].
    exists out. split; [reflexivity|]. split.
    + apply (proj1 (proj2 (proj2
               (@parse_response_missing_and_extra_fields bare_runtime schema data)))
               out "optional" (Optional_ (Str None None None)) Hout);
        [right; left | reflexivity].
    + vm_compute in Hout. inversion Hout. reflexivity.
Defined.

(** C4.  [Float.validate] only attempts the coercion: it never reads [min] or
    [max], so a [Float] validates like the unconstrained one.  With [min] 0
    and [max] 1 it accepts 5, which is above [max], whereas [Int.validate]
    with the same bounds rejects 5. *)
Theorem float_validate_ignores_range `{Runtime} :
  (∀ lo hi precision v,
     validate (Float lo hi precision) v = validate (Float None None None) v)
  ∧ validate (Float (Some 0%float) (Some 1%float) None) (VFloat 5%float) = Ok true
  ∧ PrimFloat.ltb 1%float 5%float = true
  ∧ validate (Int (Some 0%Z) (Some 1%Z)) (VInt 5) = Ok false.
Proof. by repeat split. Qed.

(** C7.  [Optional_.parse] maps [None], the string [null] and the empty
    string to [None], and passes every other value to the [parse] of the
    inner type; over a [Str] without [max] every other string parses to
    itself. *)
Theorem optional_parse `{Runtime} (inner : TypeConstraint) :
  parse (Optional_ inner) VNone = Ok VNone
  ∧ parse (Optional_ inner) (VStr "null") = Ok VNone
  ∧ parse (Optional_ inner) (VStr "") = Ok VNone
  ∧ (∀ v, v ≠ VNone → v ≠ VStr "null" → v ≠ VStr "" →
       parse (Optional_ inner) v = parse inner v)
  ∧ (∀ s mn pattern, s ≠ "null" → s ≠ "" →
       parse (Optional_ (Str None mn pattern)) (VStr s) = Ok (VStr s)).
Proof.
  split; [done|]. split; [done|]. split; [done|]. split.
  - intros v Hnone Hnull Hempty. simpl.
    destruct v as [| | | |s| |]; try done. simpl.
    destruct (String.eqb_spec s "null") as [->|_]; [done|].
    destruct (String.eqb_spec s "") as [->|_]; [done|]. done.
  - intros s mn pattern Hnull Hempty. simpl.
    destruct (String.eqb_spec s "null") as [->|_]; [done|].
    destruct (String.eqb_spec s "") as [->|_]; [done|]. done.
Qed.

(** The string [maybe] of the test of optional fields parses to itself. *)
Lemma optional_parse_witness :
  @parse bare_runtime (Optional_ (Str None None None)) (VStr "maybe") = Ok (VStr "maybe").
Proof.
  apply (proj2 (proj2 (proj2 (proj2 (@optional_parse bare_runtime (Str None None None)))))
           "maybe" None None); discriminate.
Defined.

(** C9.  For a [Str] whose [max] is at least 3 and for every value,
    [Str.parse] returns a string of length at most [max]: the text of the
    value when it is not longer than [max], and otherwise its first [max - 3]
    characters followed by three dots.  The value need not have passed
    [validate]. *)
Theorem str_parse_bounded `{Runtime} (mx : Z) (mn : option Z)
    (pattern : option string) (v : value) :
  (3 ≤ mx)%Z →
  ∃ s, parse (Str (Some mx) mn pattern) v = Ok (VStr s)
       ∧ (len s ≤ mx)%Z
       ∧ s = if (len (py_str v) >? mx)%Z
             then str_take (Z.to_nat (mx - 3)) (py_str v) +:+ "..."
             else py_str v.
Proof.
  intros Hmx. simpl. rewrite Str_parse_spec by lia.
  eexists. split; [done|].
  assert (slice_to (py_str v) (mx - 3) = str_take (Z.to_nat (mx - 3)) (py_str v)) as ->.
  { unfold slice_to. destruct (mx - 3 <? 0)%Z eqn:Hneg; [lia | done]. }
  split; [|done].
  destruct (len (py_str v) >? mx)%Z eqn:Hlong; [|lia].
  unfold len in *. rewrite length_append, length_str_take. simpl. lia.
Qed.

(** The truncation of the test of [max]: 20 characters cut to 10. *)
Lemma str_parse_bounded_witness :
  ∃ s, @parse bare_runtime (Str (Some 10%Z) None None) (VStr "this is way too long")
       = Ok (VStr s)
       ∧ (len s ≤ 10)%Z
       ∧ s = "this is...".
Proof.
  destruct (@str_parse_bounded bare_runtime 10 None None (VStr "this is way too long"))
    as (s & Hs & Hlen & Heq); [lia|].
  exists s. split; [exact Hs|]. split; [exact Hlen|]. exact Heq.
Defined.

Section ZeroBounds.

Context `{Runtime}.

Lemma set_and_unset_zero b test : set_and (unset_zero b) test = set_and b test.
Proof. by destruct b as [[]|]. Qed.

Lemma py_all_ext f g items : (∀ v, f v = g v) → py_all f items = py_all g items.
Proof.
  intros Hfg. induction items as [|v items IH]; [done|].
  simpl. rewrite Hfg. destruct (g v) as [[]|]; simpl; [apply IH | done..].
Qed.

Lemma py_map_ext f g items : (∀ v, f v = g v) → py_map f items = py_map g items.
Proof.
  intros Hfg. induction items as [|v items IH]; [done|].
  simpl. rewrite Hfg, IH. done.
Qed.

(** Induction on a constraint, through the item type of a [List_] and the
    inner type of an [Optional_]. *)
Lemma TypeConstraint_nested_ind (P : TypeConstraint → Prop) :
  (∀ max min pattern, P (Str max min pattern)) →
  (∀ min max, P (Int min max)) →
  (∀ min max precision, P (Float min max precision)) →
  P Bool →
  (∀ language, P (Code language)) →
  (∀ lo hi exact, P (List_ None lo hi exact)) →
  (∀ item lo hi exact, P item → P (List_ (Some item) lo hi exact)) →
  (∀ inner, P inner → P (Optional_ inner)) →
  (∀ choices, P (Enum_ choices)) →
  ∀ t, P t.
Proof.
  intros HStr HInt HFloat HBool HCode HList0 HList HOpt HEnum.
  fix IH 1. intros [max min pattern|min max|min max precision| |language
                    |[item|] lo hi exact|inner|choices].
  - apply HStr.
  - apply HInt.
  - apply HFloat.
  - apply HBool.
  - apply HCode.
  - apply HList, IH.
  - apply HList0.
  - apply HOpt, IH.
  - apply HEnum.
Qed.

(** [validate] and [parse] do not see the zero bounds of [Str] and [List_]. *)
Lemma relax_sound t : ∀ v,
  validate t v = validate (relax t) v ∧ parse t v = parse (relax t) v.
Proof.
  induction t as [max min pattern|min max|min max precision| |language
                  |lo hi exact|item lo hi exact IH|inner IH|choices]
    using TypeConstraint_nested_ind; intros v; try done.
  - split.
    + simpl. unfold Str_validate. destruct v; try done.
      by rewrite !set_and_unset_zero.
    + simpl. unfold Str_parse. rewrite set_and_unset_zero.
      by destruct max as [[]|].
  - split; [|done]. simpl. destruct v; try done.
    by rewrite !set_and_unset_zero.
  - split.
    + simpl. destruct v; try done. rewrite !set_and_unset_zero.
      by rewrite (py_all_ext (validate item) (validate (relax item)))
        by (intros; apply IH).
    + simpl. destruct (py_iter (List_decode v)) as [items|e]; simpl; [|done].
      by rewrite (py_map_ext (parse item) (parse (relax item)))
        by (intros; apply IH).
  - destruct (IH v) as [Hv Hp]. split; simpl; [by rewrite Hv | by rewrite Hp].
Qed.

End ZeroBounds.

(** C10, as the code has it.  The bounds of [List_] and of [Str] are tested
    for truthiness, so one set to 0 behaves as if unset: [validate] and
    [parse] answer the same on a constraint and on the constraint in which
    every zero bound of a [Str] or a [List_] is unset.  In particular
    [List_.validate] with [exact_items], [min_items] or [max_items] at 0
    answers as without that bound, and with no other attribute accepts lists
    of every length; [Str.validate] with [max] or [min] at 0 answers as
    without that bound, and with no other attribute accepts every string;
    [Str.parse] with [max] at 0 never truncates.  The bounds of [Int] are
    tested with [is not None] instead: at 0 they are enforced, [min] 0
    rejects -1 and [max] 0 rejects 1. *)
Theorem zero_bounds_of_str_and_list_unenforced `{Runtime} :
  (∀ t v, validate t v = validate (relax t) v ∧ parse t v = parse (relax t) v)
  ∧ (∀ item lo hi v,
     validate (List_ item lo hi (Some 0%Z)) v = validate (List_ item lo hi None) v)
  ∧ (∀ item hi exact v,
       validate (List_ item (Some 0%Z) hi exact) v = validate (List_ item None hi exact) v)
  ∧ (∀ item lo exact v,
       validate (List_ item lo (Some 0%Z) exact) v = validate (List_ item lo None exact) v)
  ∧ (∀ items,
       validate (List_ None None None (Some 0%Z)) (VList items) = Ok true
       ∧ validate (List_ None (Some 0%Z) None None) (VList items) = Ok true
       ∧ validate (List_ None None (Some 0%Z) None) (VList items) = Ok true)
  ∧ (∀ lo pattern v,
       validate (Str (Some 0%Z) lo pattern) v = validate (Str None lo pattern) v)
  ∧ (∀ hi pattern v,
       validate (Str hi (Some 0%Z) pattern) v = validate (Str hi None pattern) v)
  ∧ (∀ s,
       validate (Str (Some 0%Z) None None) (VStr s) = Ok true
       ∧ validate (Str None (Some 0%Z) None) (VStr s) = Ok true)
  ∧ (∀ lo pattern v, parse (Str (Some 0%Z) lo pattern) v = Ok (VStr (py_str v)))
  ∧ validate (Int (Some 0%Z) None) (VInt (-1)) = Ok false
  ∧ validate (Int None (Some 0%Z)) (VInt 1) = Ok false.
Proof.
  split; [apply relax_sound|]. by repeat split.
Qed.

(** C10 as stated fails: the zero bounds of an [Int] do not behave as if
    unset, so unsetting every zero bound of a constraint can change what
    [validate] answers.  [Int] with [min] 0 rejects -1 and [Int] without
    bounds accepts it. *)
Lemma zero_bounds_counterexample :
  ¬ (∀ (R : Runtime) (t : TypeConstraint) (v : value),
       @validate R t v = @validate R (relax_all t) v).
Proof.
  intros Hclaim.
  specialize (Hclaim bare_runtime (Int (Some 0%Z) None) (VInt (-1))).
  vm_compute in Hclaim. discriminate Hclaim.
Qed.

Section Guarantees.

Context `{Runtime}.

Implicit Types (s : string) (v w : value) (t : TypeConstraint)
  (schema : list (string * TypeConstraint)) (data res : gmap string value).

Lemma py_all_true f items :
  py_all f items = Ok true ↔ Forall (λ v, f v = Ok true) items.
Proof.
  induction items as [|v items IH]; simpl; [by split|].
  destruct (f v) as [[]|e] eqn:Hv; simpl.
  - rewrite IH. split; [by constructor | by intros [_ ?]%Forall_cons].
  - split; [done | intros [? _]%Forall_cons; congruence].
  - split; [done | intros [? _]%Forall_cons; congruence].
Qed.

Lemma py_map_ok f items ws :
  py_map f items = Ok ws ↔ Forall2 (λ v w, f v = Ok w) items ws.
Proof.
  revert ws. induction items as [|v items IH]; intros ws; simpl.
  - split; [intros [= <-]; constructor | by intros ->%Forall2_nil_inv_l].
  - destruct (f v) as [w|e] eqn:Hv; simpl.
    + destruct (py_map f items) as [ws'|e] eqn:Hm; simpl.
      * split.
        -- intros [= <-]. constructor; [done | by apply IH].
        -- intros (w' & ws'' & Hw & Hws & ->)%Forall2_cons_inv_l.
           apply IH in Hws. congruence.
      * split; [done|].
        intros (w' & ws'' & Hw & Hws & ->)%Forall2_cons_inv_l.
        apply IH in Hws. congruence.
    + split; [done|].
      intros (w' & ws'' & Hw & Hws & ->)%Forall2_cons_inv_l. congruence.
Qed.

Lemma Int_validate_true lo hi v :
  Int_validate lo hi v = Ok true →
  ∃ n, py_int v = Ok n
       ∧ (∀ m, lo = Some m → m ≤ n)%Z ∧ (∀ m, hi = Some m → n ≤ m)%Z.
Proof.
  unfold Int_validate. destruct (py_int v) as [n|e]; [|by destruct (caught e)].
  intros Hv. exists n. split; [done|].
  destruct lo as [l|], hi as [h|]; simpl in Hv;
    repeat match type of Hv with context [if ?b then _ else _] =>
      destruct b eqn:?; try done end;
    split; intros m [= <-] || intros m [=]; lia.
Qed.

Lemma Float_validate_true lo hi p v :
  Float_validate lo hi p v = Ok true → ∃ x, py_float v = Ok x.
Proof.
  unfold Float_validate. destruct (py_float v) as [x|e]; [eauto | by destruct (caught e)].
Qed.


Lemma forallb_Forall2_r {A B} (f : A → B → Prop) (g : B → bool) l k :
  Forall2 f l k → (∀ a b, a ∈ l → f a b → g b = true) → forallb g k = true.
Proof.
  induction 1 as [|a b l k Hab _ IH]; intros Hg; [done|]. simpl.
  rewrite (Hg a b) by (done || left). simpl. apply IH.
  intros a' b' Ha'. apply Hg. by right.
Qed.

(** Whatever [parse] returns has the Python type that the constraint stands
    for. *)
Lemma parse_shaped t : ∀ v w, parse t v = Ok w → shaped t w = true.
Proof.
  induction t as [max min pattern|min max|min max precision| |language
                  |lo hi exact|item lo hi exact IH|inner IH|choices]
    using TypeConstraint_nested_ind; intros v w Hw; simpl in Hw.
  - unfold Str_parse in Hw. by destruct (set_and max _); inversion Hw.
  - unfold Int_parse in Hw. by destruct (py_int v); inversion Hw.
  - unfold Float_parse in Hw. destruct (py_float v); [|done]. simpl in Hw.
    by destruct (truthy precision); inversion Hw.
  - unfold Bool_parse in Hw. by destruct v; inversion Hw.
  - unfold Code_parse in Hw. by inversion Hw.
  - destruct (py_iter (List_decode v)); [|done]. by inversion Hw.
  - destruct (py_iter (List_decode v)) as [items|]; [|done]. simpl in Hw.
    destruct (py_map (parse item) items) as [ws|] eqn:Hm; [|done].
    inversion Hw; subst w. simpl. apply py_map_ok in Hm.
    apply (forallb_Forall2_r _ _ _ _ Hm). intros a b _. apply IH.
  - simpl. destruct (is_None v || eq_str v "null" || eq_str v "").
    + by inversion Hw.
    + rewrite (IH _ _ Hw). apply orb_true_r.
  - by inversion Hw.
Qed.

(** On the constraints made of [Str] and of lists, a validated value is
    parsed to itself. *)
Lemma textual_parse_id t : textual t = true →
  ∀ v, validate t v = Ok true → parse t v = Ok v.
Proof.
  induction t as [max min pattern|min max|min max precision| |language
                  |lo hi exact|item lo hi exact IH|inner IH|choices]
    using TypeConstraint_nested_ind; intros Ht v Hv; simpl in *; try done.
  - unfold Str_validate in Hv. destruct v as [| | | |s| |]; try done.
    unfold Str_parse. simpl. destruct (set_and max _); [done|]. done.
  - by destruct v.
  - destruct v as [| | | | |items|]; try done. simpl.
    repeat match type of Hv with context [if ?b then _ else _] =>
      destruct b; try done end.
    apply py_all_true in Hv.
    assert (py_map (parse item) items = Ok items) as ->; [|done].
    induction Hv as [|v items Hv _ IHitems]; [done|].
    simpl. rewrite (IH Ht _ Hv). simpl. by rewrite IHitems.
Qed.

Lemma set_and_false b test :
  set_and b test = false ↔ ∀ m, b = Some m → m ≠ 0%Z → test m = false.
Proof.
  destruct b as [n|]; simpl; [|by split].
  destruct (Z.eqb_spec n 0) as [->|Hn]; simpl.
  - split; [|done]. by intros _ m [= <-].
  - split; [by intros Ht m [= <-] | intros Ht; by apply Ht].
Qed.

Lemma Str_validate_true max min pattern v :
  Str_validate max min pattern v = Ok true ↔
  ∃ s, v = VStr s
       ∧ (∀ m, max = Some m → m ≠ 0 → len s ≤ m)%Z
       ∧ (∀ m, min = Some m → m ≠ 0 → m ≤ len s)%Z
       ∧ (∀ p, pattern = Some p → p ≠ "" → re_match p s = Ok true).
Proof.
  unfold Str_validate. split.
  - destruct v as [| | | |s| |]; try done. intros Hv. exists s. split; [done|].
    destruct (set_and max _) eqn:Hmax; [done|].
    destruct (set_and min _) eqn:Hmin; [done|].
    rewrite set_and_false in Hmax. rewrite set_and_false in Hmin.
    split; [|split].
    + intros m Hm Hm0. specialize (Hmax m Hm Hm0). lia.
    + intros m Hm Hm0. specialize (Hmin m Hm Hm0). lia.
    + intros p -> Hp. by rewrite (proj2 (is_empty_false p) Hp) in Hv.
  - intros (s & -> & Hmax & Hmin & Hpat).
    assert (set_and max (λ m, len s >? m)%Z = false) as ->.
    { apply set_and_false. intros m Hm Hm0. specialize (Hmax m Hm Hm0). lia. }
    assert (set_and min (λ m, len s <? m)%Z = false) as ->.
    { apply set_and_false. intros m Hm Hm0. specialize (Hmin m Hm Hm0). lia. }
    destruct pattern as [p|]; [|done].
    destruct (is_empty p) eqn:Hp; [done|]. apply Hpat; [done|]. by apply is_empty_false.
Qed.

Lemma py_map_length f items ws : py_map f items = Ok ws → length ws = length items.
Proof. intros Hm%py_map_ok. symmetry. by eapply Forall2_length. Qed.

(** A value that passes [validate] is parsed without error, and what it is
    parsed to meets the constraint. *)
Lemma validated_conforms t : ∀ v,
  validate t v = Ok true → ∃ w, parse t v = Ok w ∧ conforms t w.
Proof.
  induction t as [max min pattern|min max|min max precision| |language
                  |lo hi exact|item lo hi exact IH|inner IH|choices]
    using TypeConstraint_nested_ind; intros v Hv; simpl in Hv.
  - exists v. split; [by apply textual_parse_id|]. by apply Str_validate_true.
  - apply Int_validate_true in Hv as (n & Hn & Hlo & Hhi). exists (VInt n).
    split; [simpl; unfold Int_parse; by rewrite Hn|]. by exists n.
  - apply Float_validate_true in Hv as (x & Hx). simpl. unfold Float_parse. rewrite Hx.
    simpl. destruct (truthy precision); eexists; (split; [done|]); by eexists.
  - simpl. unfold Bool_parse. destruct v; eexists; (split; [done|]); by eexists.
  - simpl. unfold Code_parse. eexists. split; [done|]. eexists. split; [done|].
    apply strip_idemp.
  - destruct v as [| | | | |items|]; try done. exists (VList items). split; [done|].
    destruct (set_and exact _) eqn:Hex; [done|].
    destruct (set_and lo _) eqn:Hlo; [done|].
    destruct (set_and hi _) eqn:Hhi; [done|].
    rewrite set_and_false in Hex. rewrite set_and_false in Hlo. rewrite set_and_false in Hhi.
    exists items. split; [done|]. repeat split.
    + intros k Hk Hk0. specialize (Hex k Hk Hk0). apply negb_false_iff in Hex. lia.
    + intros k Hk Hk0. specialize (Hlo k Hk Hk0). lia.
    + intros k Hk Hk0. specialize (Hhi k Hk Hk0). lia.
  - destruct v as [| | | | |items|]; try done.
    destruct (set_and exact _) eqn:Hex; [done|].
    destruct (set_and lo _) eqn:Hlo; [done|].
    destruct (set_and hi _) eqn:Hhi; [done|].
    rewrite set_and_false in Hex. rewrite set_and_false in Hlo. rewrite set_and_false in Hhi.
    apply py_all_true in Hv.
    assert (∃ ws, py_map (parse item) items = Ok ws ∧ Forall (conforms item) ws)
      as (ws & Hws & Hconf).
    { clear -IH Hv. induction Hv as [|v items Hv _ (ws & Hws & Hconf)]; [by exists []|].
      destruct (IH _ Hv) as (w & Hw & Hc). exists (w :: ws). simpl.
      rewrite Hw, Hws. split; [done | by constructor]. }
    exists (VList ws). simpl. rewrite Hws. split; [done|].
    pose proof (py_map_length _ _ _ Hws) as Hlen.
    exists ws. split; [done|]. rewrite Hlen. repeat split; try done.
    + intros k Hk Hk0. specialize (Hex k Hk Hk0). apply negb_false_iff in Hex. lia.
    + intros k Hk Hk0. specialize (Hlo k Hk Hk0). lia.
    + intros k Hk Hk0. specialize (Hhi k Hk Hk0). lia.
  - destruct v; [exists VNone; split; [done | by left]|..];
      (destruct (IH _ Hv) as (w & Hw & Hc); cbn [parse];
       destruct (_ || _ || _); [exists VNone; split; [done | by left]
                               | exists w; split; [done | by right]]).
  - inversion Hv as [Hin]. apply bool_decide_eq_true in Hin.
    simpl. eexists. split; [done|]. by eexists.
Qed.






End Guarantees.

Section Prompting.

Context `{Runtime}.

Lemma split_where_none sep s :
  all_chars (λ c, negb (sep c)) s = true → split_where sep s = [s].
Proof.
  induction s as [|c s IH]; [done|]. simpl. intros [Hc Hs]%andb_true_iff.
  apply negb_true_iff in Hc. by rewrite Hc, IH.
Qed.

Lemma split_where_at sep s c t :
  all_chars (λ c, negb (sep c)) s = true → sep c = true →
  split_where sep (s +:+ String c t) = s :: split_where sep t.
Proof.
  intros Hs Hc. induction s as [|a s IH].
  - rewrite append_nil_l. simpl. by rewrite Hc.
  - simpl in Hs. apply andb_true_iff in Hs as [Ha Hs]. apply negb_true_iff in Ha.
    rewrite append_cons. simpl. by rewrite Ha, IH.
Qed.

Lemma strip_lead_space p : strip (String " " p) = strip p.
Proof. reflexivity. Qed.

Lemma list_pieces_spaced items :
  Forall list_item items → items ≠ [] →
  filter (λ p, is_empty p = false)
    (strip <$> split_where list_sep (String " " (join ", " items))) = items.
Proof.
  induction 1 as [|p items (Hne & Hstrip & Hsep) Hitems IH]; intros _; [done|].
  destruct items as [|q items].
  - simpl join. assert (split_where list_sep (String " " p) = [String " " p]) as ->.
    { apply split_where_none. simpl. by rewrite Hsep. }
    simpl. rewrite strip_lead_space, Hstrip.
    by rewrite filter_cons_True by by apply is_empty_false.
  - change (join ", " (p :: q :: items))
      with (p +:+ String "," (String " " (join ", " (q :: items)))).
    change (String " " (p +:+ String "," (String " " (join ", " (q :: items)))))
      with (String " " p +:+ String "," (String " " (join ", " (q :: items)))).
    rewrite split_where_at; [|simpl; by rewrite Hsep|done].
    rewrite fmap_cons, strip_lead_space, Hstrip.
    rewrite filter_cons_True by by apply is_empty_false.
    f_equal. by apply IH.
Qed.

Lemma list_pieces_joined items :
  Forall list_item items →
  filter (λ p, is_empty p = false)
    (strip <$> split_where (λ c, (c =? newline)%char || (c =? ",")%char) (join ", " items))
  = items.
Proof.
  intros Hitems. change (λ c, (c =? newline)%char || (c =? ",")%char) with list_sep.
  destruct items as [|p items]; [done|].
  apply Forall_cons in Hitems as [(Hne & Hstrip & Hsep) Hitems].
  destruct items as [|q items].
  - simpl join in *. rewrite split_where_none by done. simpl. rewrite Hstrip.
    by rewrite filter_cons_True by by apply is_empty_false.
  - change (join ", " (p :: q :: items))
      with (p +:+ String "," (String " " (join ", " (q :: items)))).
    rewrite split_where_at; [|done..].
    rewrite fmap_cons, Hstrip.
    rewrite filter_cons_True by by apply is_empty_false.
    f_equal. by apply list_pieces_spaced.
Qed.

Lemma truthy_unset_zero b : truthy (unset_zero b) = truthy b.
Proof. by destruct b as [[]|]. Qed.

Lemma default_unset_zero b : truthy b = true → default 0%Z (unset_zero b) = default 0%Z b.
Proof. by destruct b as [[]|]. Qed.

Lemma to_prompt_relax t : to_prompt (relax t) = to_prompt t.
Proof.
  induction t as [max min pattern|min max|min max precision| |language
                  |lo hi exact|item lo hi exact IH|inner IH|choices]
    using TypeConstraint_nested_ind; try done.
  - cbn [to_prompt relax]. rewrite !truthy_unset_zero.
    destruct (truthy max) eqn:Hmax, (truthy min) eqn:Hmin;
      rewrite ?(default_unset_zero max), ?(default_unset_zero min) by done; done.
  - cbn [to_prompt relax]. rewrite !truthy_unset_zero.
    destruct (truthy exact) eqn:Hex, (truthy lo) eqn:Hlo, (truthy hi) eqn:Hhi;
      rewrite ?(default_unset_zero exact), ?(default_unset_zero lo),
        ?(default_unset_zero hi) by done; done.
  - cbn [to_prompt relax]. rewrite !truthy_unset_zero, IH.
    destruct (truthy exact) eqn:Hex, (truthy lo) eqn:Hlo, (truthy hi) eqn:Hhi;
      rewrite ?(default_unset_zero exact), ?(default_unset_zero lo),
        ?(default_unset_zero hi) by done; done.
  - cbn [to_prompt relax]. by rewrite IH.
Qed.

Lemma to_prompt_instructions_relax (schema : list (string * TypeConstraint)) :
  to_prompt_instructions (prod_map id relax <$> schema) = to_prompt_instructions schema.
Proof.
  unfold to_prompt_instructions. do 3 f_equal. rewrite <- list_fmap_compose.
  apply list_fmap_ext. intros _ [name t] _. simpl. by rewrite to_prompt_relax.
Qed.

Lemma list_parse_joined items lo hi exact e :
  Forall list_item items →
  json_loads (join ", " items) = inl e →
  parse (List_ None lo hi exact) (VStr (join ", " items)) = Ok (VList (VStr <$> items)).
Proof.
  intros Hitems Hjson. simpl. rewrite Hjson. simpl. by rewrite list_pieces_joined.
Qed.



End Prompting.

(** X11.  A value that passes [validate] is parsed without error, and what
    it is parsed to meets the constraint: a string within the non-zero
    bounds of a [Str] that matches its pattern; an integer within the bounds
    of an [Int]; a float for a [Float]; a boolean for a [Bool]; a trimmed
    string for a [Code]; for a [List_], a list whose length is within the
    non-zero bounds and whose items meet the item type; [None] or a value
    that meets the inner type for an [Optional_]; one of the choices for an
    [Enum_]. *)
Theorem validated_value_parses_and_conforms `{Runtime}
    (t : TypeConstraint) (v : value) :
  validate t v = Ok true → ∃ w, parse t v = Ok w ∧ conforms t w.
Proof. apply validated_conforms. Qed.

(** The score of the tests of the contracts: 50 between 0 and 100. *)
Lemma validated_value_parses_and_conforms_witness :
  ∃ w, @parse bare_runtime (Int (Some 0%Z) (Some 100%Z)) (VInt 50) = Ok w
       ∧ @conforms bare_runtime (Int (Some 0%Z) (Some 100%Z)) w.
Proof.
  apply (@validated_value_parses_and_conforms bare_runtime
           (Int (Some 0%Z) (Some 100%Z)) (VInt 50)).
  reflexivity.
Defined.

(** X12.  Whatever [parse] returns, for a value that need not have passed
    [validate], has the Python type that the constraint stands for: a string
    for [Str], [Code] and [Enum_], an integer for [Int], a float for
    [Float], a boolean for [Bool], a list for [List_], of items of the type
    of the item type if there is one, and [None] or a value of the inner
    type for [Optional_]. *)
Theorem parse_returns_the_type_of_the_constraint `{Runtime}
    (t : TypeConstraint) (v w : value) :
  parse t v = Ok w → shaped t w = true.
Proof. apply parse_shaped. Qed.

(** A list of strings given as a text. *)
Lemma parse_returns_the_type_of_the_constraint_witness :
  shaped (List_ (Some (Str None None None)) None None None)
         (VList [VStr "a"; VStr "b"]) = true.
Proof.
  apply (@parse_returns_the_type_of_the_constraint bare_runtime
           (List_ (Some (Str None None None)) None None None) (VStr "a, b")).
  reflexivity.
Defined.

(** X13.  On a [Str], and on a [List_] without item type or whose items are
    such constraints, a value that passes [validate] is parsed to itself: the
    cut of [Str.parse] never applies to a validated string, and so never
    inside [parse_response], which validates before it parses. *)
Theorem validated_text_is_parsed_to_itself `{Runtime}
    (t : TypeConstraint) (v : value) :
  textual t = true → validate t v = Ok true → parse t v = Ok v.
Proof. intros Ht. by apply textual_parse_id. Qed.

(** A string of five characters under a maximum of ten. *)
Lemma validated_text_is_parsed_to_itself_witness :
  @parse bare_runtime (Str (Some 10%Z) None None) (VStr "short") = Ok (VStr "short").
Proof.
  apply (@validated_text_is_parsed_to_itself bare_runtime
           (Str (Some 10%Z) None None) (VStr "short")); reflexivity.
Defined.





(** X16.  [List_.parse] reads back a list written as text: for items that
    are not empty, are trimmed and hold neither a comma nor a newline, the
    items joined with a comma and a space, when that text is not JSON, are
    parsed by a [List_] without item type to the list of the items. *)
Theorem list_parse_reads_joined_items `{Runtime}
    (items : list string) (lo hi exact : option Z) (e : string) :
  Forall list_item items →
  json_loads (join ", " items) = inl e →
  parse (List_ None lo hi exact) (VStr (join ", " items)) = Ok (VList (VStr <$> items)).
Proof. apply list_parse_joined. Qed.

(** Three items. *)
Lemma list_parse_reads_joined_items_witness :
  @parse bare_runtime (List_ None None None None) (VStr "a, b, c")
  = Ok (VList [VStr "a"; VStr "b"; VStr "c"]).
Proof.
  apply (@list_parse_reads_joined_items bare_runtime ["a"; "b"; "c"] None None None
           "no decoder").
  - repeat constructor; discriminate.
  - reflexivity.
Defined.

(** X17.  The zero bounds of [Str] and [List_], which [validate] does not
    enforce, are not announced either: [to_prompt] gives the same text for a
    constraint and for the constraint in which every zero bound of a [Str] or
    a [List_] is unset, at any depth, and so does
    [to_prompt_instructions] for a schema. *)
Theorem to_prompt_omits_zero_bounds :
  (∀ t, to_prompt (relax t) = to_prompt t)
  ∧ ∀ schema : list (string * TypeConstraint),
      to_prompt_instructions (prod_map id relax <$> schema)
      = to_prompt_instructions schema.
Proof. split; [apply to_prompt_relax | apply to_prompt_instructions_relax]. Qed.

End ContractFacts.

(** ** The transpiler *)

Module TranspilerFacts.

Import Parser Transpiler TextFacts ParserFacts.

Section Prompts.

Implicit Types (s t : string) (c : ascii) (ast : AILangAST) (vars : list (string * string)).

Lemma ast_chain_ind (P : AILangAST → Prop) :
  (∀ ast, (∀ next, chain ast = Some next → P next) → P ast) → ∀ ast, P ast.
Proof.
  intros Hstep. fix IH 1. intros ast. apply Hstep.
  destruct ast as [a s sp m my p av [next'|] par per v]; simpl.
  - intros next [= <-]. apply IH.
  - intros next [=].
Qed.




Lemma join_snoc sep l x : l ≠ [] → join sep (l ++ [x]) = join sep l +:+ sep +:+ x.
Proof.
  induction l as [|y l IH]; [done|]. intros _. destruct l as [|z l]; [done|].
  change (join sep ((y :: z :: l) ++ [x])) with (y +:+ sep +:+ join sep ((z :: l) ++ [x])).
  rewrite IH by done.
  change (join sep (y :: z :: l)) with (y +:+ sep +:+ join sep (z :: l)).
  by rewrite !append_assoc.
Qed.











Lemma replace_from_end fuel old new : old ≠ "" → replace_from fuel old new "" = "".
Proof. intros Hold. destruct fuel; [done|]. simpl. by destruct old. Qed.




Lemma transpile_ast_unfold ast vars :
  _transpile_ast ast vars
  = (template ← template_of (action ast);
     base ← base_of template (substitute vars (subject ast));
     let parts := introduction ast ++ [base] ++ sentences ast in
     match chain ast with
     | Some next =>
         chain_prompt ← _transpile_ast next vars;
         rest ← lower_first chain_prompt;
         Some (join " " (parts ++ ["Then, " +:+ rest]))
     | None => Some (join " " parts)
     end).
Proof. by destruct ast. Qed.


(** The prompt of a node with a chain, from the prompt of the node alone and
    the prompt of what follows. *)
Lemma transpile_ast_then ast next vars :
  chain ast = Some next →
  _transpile_ast ast vars
  = (head ← _transpile_ast (set_chain None ast) vars;
     chain_prompt ← _transpile_ast next vars;
     rest ← lower_first chain_prompt;
     Some (head +:+ " Then, " +:+ rest)).
Proof.
  intros Hchain. rewrite (transpile_ast_unfold ast), (transpile_ast_unfold (set_chain None ast)).
  rewrite Hchain. cbn [action subject chain set_chain].
  destruct (template_of (action ast)) as [template|]; [|done]. simpl.
  destruct (base_of template (substitute vars (subject ast))) as [base|]; [|done]. simpl.
  destruct (_transpile_ast next vars) as [chain_prompt|]; [|done]. simpl.
  destruct (lower_first chain_prompt) as [rest|]; [|done]. simpl.
  change (introduction (set_chain None ast)) with (introduction ast).
  change (sentences (set_chain None ast)) with (sentences ast).
  rewrite join_snoc by (by destruct (introduction ast)). done.
Qed.

Lemma set_chain_none ast : chain ast = None → set_chain None ast = ast.
Proof. destruct ast. simpl. by intros ->. Qed.

Lemma set_persona_none ast : persona ast = None → set_persona None ast = ast.
Proof. destruct ast. simpl. by intros ->. Qed.

Lemma lower_first_app s t : s ≠ "" → lower_first (s +:+ t) = (λ r, r +:+ t) <$> lower_first s.
Proof. by destruct s. Qed.

(** The prompt of a tree is the prompts of its nodes linked together. *)
Lemma transpile_ast_link vars ast :
  ∀ prompts,
    Forall2 (λ node prompt, _transpile_ast (set_chain None node) vars = Some prompt)
            (ast :: chained ast) prompts →
    _transpile_ast ast vars = then_link prompts.
Proof.
  induction ast as [ast IH] using ast_chain_ind. intros prompts Hprompts.
  apply Forall2_cons_inv_l in Hprompts as (prompt & later & Hhead & Hlater & ->).
  rewrite chained_unfold in Hlater. destruct (chain ast) as [next|] eqn:Hchain.
  - rewrite (transpile_ast_then _ _ _ Hchain), Hhead. simpl.
    rewrite (IH next eq_refl later Hlater).
    apply Forall2_cons_inv_l in Hlater as (p2 & later' & _ & _ & ->). done.
  - apply Forall2_nil_inv_l in Hlater as ->. simpl.
    by rewrite <- Hhead, set_chain_none.
Qed.

Lemma then_link_opening who prompt later :
  then_link ((opening who +:+ prompt) :: later)
  = (λ linked, opening who +:+ linked) <$> then_link (prompt :: later).
Proof.
  destruct later as [|p2 later]; [done|].
  change (then_link ((opening who +:+ prompt) :: p2 :: later))
    with (rest ← then_link (p2 :: later); rest ← lower_first rest;
          Some ((opening who +:+ prompt) +:+ " Then, " +:+ rest)).
  change (then_link (prompt :: p2 :: later))
    with (rest ← then_link (p2 :: later); rest ← lower_first rest;
          Some (prompt +:+ " Then, " +:+ rest)).
  destruct (then_link (p2 :: later)) as [rest|]; [|done]. simpl.
  destruct (lower_first rest) as [rest'|]; [|done]. simpl. by rewrite append_assoc.
Qed.

(** A persona only puts its sentence before the prompt of a node. *)
Lemma transpile_ast_persona vars ast who :
  chain ast = None → persona ast = None →
  _transpile_ast (set_persona who ast) vars
  = (λ prompt, opening who +:+ prompt) <$> _transpile_ast ast vars.
Proof.
  intros Hchain Hpersona.
  rewrite (transpile_ast_unfold ast), (transpile_ast_unfold (set_persona who ast)).
  cbn [action subject chain set_persona]. rewrite Hchain.
  destruct (template_of (action ast)) as [template|]; [|done]. simpl.
  destruct (base_of template (substitute vars (subject ast))) as [base|]; [|done]. simpl.
  change (sentences (set_persona who ast)) with (sentences ast).
  unfold introduction. cbn [persona set_persona]. rewrite Hpersona.
  destruct who as [name|]; [|done]. unfold opening.
  destruct (is_empty name); [done|].
  change (join " " (["You are " +:+ name +:+ "."] ++ [base] ++ sentences ast))
    with (("You are " +:+ name +:+ ".") +:+ " " +:+ join " " ([base] ++ sentences ast)).
  simpl. f_equal. by rewrite !append_assoc.
Qed.

Lemma chainable_quiet l : chainable l → Forall (λ seg, ∃ f, quiet seg f) l.
Proof.
  induction l as [|s l IH]; [done|]. intros Hl.
  constructor; [|by apply IH, (chainable_tail s)].
  destruct l; [done|]. destruct Hl as [Hs _]. by exists clean.
Qed.

(** A segment on its own is parsed to its node. *)
Lemma parse_segment seg :
  (∃ f, quiet seg f) → head_is is_word seg = true →
  ∃ single, _parse_single seg = Ok single ∧ parse seg = Some (Ok single).
Proof.
  intros Hquiet Hword.
  destruct (parse_joined seg []) as (ast & Hparse & Hp & _ & Hnodes).
  - done.
  - constructor; [|done]. by destruct Hquiet as (f & Hstrip & _).
  - by constructor.
  - apply Forall2_cons_inv_l in Hnodes as (s' & l' & Hfrom & Hrest & [= <- <-]).
    apply Forall2_nil_inv_r in Hrest.
    assert (chain ast = None) as Hc.
    { rewrite chained_unfold in Hrest. by destruct (chain ast). }
    unfold parsed_from in Hfrom. rewrite set_persona_none, set_chain_none in Hfrom by done.
    by exists ast.
Qed.

Lemma transpile_segment seg vars single :
  _parse_single seg = Ok single → parse seg = Some (Ok single) →
  transpile seg vars = Ok <$> _transpile_ast single vars.
Proof. intros _ Hparse. unfold transpile. by rewrite Hparse. Qed.

(** The prompt of a chain of two or more segments that each start with a
    word character. *)
Lemma transpile_chain_link command vars first second rest prompts :
  _split_chain (unwrap_persona command).2 = first :: second :: rest →
  Forall (λ seg, head_is is_word seg = true) (first :: second :: rest) →
  Forall2 (λ seg prompt, transpile seg vars = Some (Ok prompt))
          (first :: second :: rest) prompts →
  transpile command vars
  = (λ linked, Ok (opening (unwrap_persona command).1 +:+ linked)) <$> then_link prompts.
Proof.
  intros Hsplit Hword Hprompts.
  destruct (parse_chain _ _ _ _ Hsplit Hword) as (ast & Hparse & Hwho & Hnone & Hnodes).
  pose proof (split_chain_chainable (unwrap_persona command).2) as Hquiet.
  rewrite Hsplit in Hquiet. apply chainable_quiet in Hquiet.
  unfold transpile. rewrite Hparse. simpl.
  (* the prompt of each node alone is the prompt of its segment *)
  assert (∀ nodes segs prompts,
            Forall2 parsed_from nodes segs →
            Forall (λ node, persona node = None) nodes →
            Forall (λ seg, ∃ f, quiet seg f) segs →
            Forall (λ seg, head_is is_word seg = true) segs →
            Forall2 (λ seg prompt, transpile seg vars = Some (Ok prompt)) segs prompts →
            Forall2 (λ node prompt, _transpile_ast (set_chain None node) vars = Some prompt)
                    nodes prompts) as Hplain.
  { clear. intros nodes segs prompts Hnodes. revert prompts.
    induction Hnodes as [|node seg nodes segs Hfrom _ IH]; intros prompts Hp Hq Hw Hprompts.
    - apply Forall2_nil_inv_l in Hprompts as ->. constructor.
    - apply Forall2_cons_inv_l in Hprompts as (prompt & later & Hprompt & Hlater & ->).
      apply Forall_cons in Hp as [Hp Hps]. apply Forall_cons in Hq as [Hq Hqs].
      apply Forall_cons in Hw as [Hw Hws].
      constructor; [|by apply IH].
      destruct (parse_segment seg Hq Hw) as (single & Hsingle & Hparse).
      unfold parsed_from in Hfrom. rewrite set_persona_none in Hfrom by done.
      assert (set_chain None node = single) as -> by congruence.
      rewrite (transpile_segment _ _ _ Hsingle Hparse) in Hprompt.
      by destruct (_transpile_ast single vars); inversion Hprompt. }
  apply Forall2_cons_inv_l in Hprompts as (prompt & later & Hprompt & Hlater & ->).
  apply Forall2_cons_inv_l in Hnodes as (seg' & segs' & Hfrom & Hnodes & [= <- <-]).
  apply Forall_cons in Hquiet as [Hq Hqs]. apply Forall_cons in Hword as [Hw Hws].
  specialize (Hplain _ _ _ Hnodes Hnone Hqs Hws Hlater).
  destruct (parse_segment first Hq Hw) as (single & Hsingle & Hparse1).
  rewrite (transpile_segment _ _ _ Hsingle Hparse1) in Hprompt.
  destruct (_transpile_ast single vars) as [p1|] eqn:Hp1; [|done].
  inversion Hprompt; subst p1.
  destruct (parse_single_fresh _ _ Hsingle) as [Hc1 Hpers1].
  assert (set_chain None ast = set_persona (persona ast) single) as Hhead.
  { unfold parsed_from in Hfrom.
    assert (single = set_chain None (set_persona None ast)) as Heq by congruence.
    rewrite Heq. by destruct ast. }
  rewrite (transpile_ast_link vars ast ((opening (persona ast) +:+ prompt) :: later)).
  - rewrite then_link_opening, Hwho. by destruct (then_link (prompt :: later)).
  - constructor; [|done].
    rewrite Hhead, transpile_ast_persona by done. by rewrite Hp1.
Qed.

(** A persona only puts its sentence before the prompt. *)
Lemma transpile_ast_opening vars ast who :
  _transpile_ast (set_persona who ast) vars
  = (λ prompt, opening who +:+ prompt) <$> _transpile_ast (set_persona None ast) vars.
Proof.
  rewrite (transpile_ast_unfold (set_persona who ast)),
    (transpile_ast_unfold (set_persona None ast)).
  cbn [action subject chain set_persona].
  destruct (template_of (action ast)) as [template|]; [|done]. simpl.
  destruct (base_of template (substitute vars (subject ast))) as [base|]; [|done]. simpl.
  change (sentences (set_persona who ast)) with (sentences ast).
  change (sentences (set_persona None ast)) with (sentences ast).
  unfold introduction. cbn [persona set_persona].
  assert (∀ parts, parts ≠ [] →
            join " " (match who with
                      | Some name => if is_empty name then [] else ["You are " +:+ name +:+ "."]
                      | None => []
                      end ++ parts)
            = opening who +:+ join " " parts) as Hjoin.
  { intros parts Hparts. destruct who as [name|]; [|done]. unfold opening.
    destruct (is_empty name); [done|]. destruct parts as [|p parts]; [done|].
    change (join " " (["You are " +:+ name +:+ "."] ++ p :: parts))
      with (("You are " +:+ name +:+ ".") +:+ " " +:+ join " " (p :: parts)).
    by rewrite !append_assoc. }
  destruct (chain ast) as [next|].
  - destruct (_transpile_ast next vars) as [chain_prompt|]; [|done]. simpl.
    destruct (lower_first chain_prompt) as [rest|]; [|done]. simpl.
    by rewrite <- app_assoc, Hjoin.
  - simpl. by rewrite Hjoin.
Qed.

(** The prompt of a command in a persona wrapper is the prompt of what the
    wrapper holds after the sentence of the persona. *)
Lemma transpile_wrapped command name body vars :
  persona_block (strip command) = Some (name, body) →
  persona_block (strip body) = None →
  transpile command vars
  = (λ r : result string, (λ prompt, "You are " +:+ name +:+ ". " +:+ prompt) <$> r)
      <$> transpile body vars.
Proof.
  intros Hwrap Hbody. unfold transpile. rewrite (parse_wrapped _ _ _ Hwrap Hbody).
  destruct (parse body) as [[ast|e]|] eqn:Hparse; [|done..]. cbn -[_transpile_ast].
  pose proof (parse_persona _ _ Hparse) as Hnone.
  unfold unwrap_persona in Hnone. rewrite Hbody in Hnone. simpl in Hnone.
  rewrite transpile_ast_opening, set_persona_none by done.
  destruct (persona_block_ok _ _ _ Hwrap) as [Hne _].
  unfold opening. rewrite (proj2 (is_empty_false name) Hne).
  destruct (_transpile_ast ast vars) as [prompt|]; [|done].
  cbn. by rewrite !append_assoc.
Qed.


End Prompts.



(** X19.  The prompt of a chain is the prompts of its segments linked
    together: for a command of two or more segments that each start with a
    word character, [transpile] returns the prompt of the first segment, then
    for each later segment the text [Then, ] and the prompt of that segment
    with its first character in lower case, the whole after the sentence of
    the persona of the leading wrapper, if any. *)
Theorem transpile_links_segment_prompts (command : string)
    (vars : list (string * string)) (first second : string) (rest prompts : list string) :
  _split_chain (unwrap_persona command).2 = first :: second :: rest →
  Forall (λ seg, head_is is_word seg = true) (first :: second :: rest) →
  Forall2 (λ seg prompt, transpile seg vars = Some (Ok prompt))
          (first :: second :: rest) prompts →
  transpile command vars
  = (λ linked, Ok (opening (unwrap_persona command).1 +:+ linked)) <$> then_link prompts.
Proof. apply transpile_chain_link. Qed.

(** The chain of the tests of the transpiler. *)
Lemma transpile_links_segment_prompts_witness :
  transpile ("write " +:+ quote "text" +:+ " > translate[es]") []
  = Some (Ok "Write text Then, translate Translate to es.").
Proof.
  apply (transpile_links_segment_prompts
           ("write " +:+ quote "text" +:+ " > translate[es]") []
           ("write " +:+ quote "text") "translate[es]" []
           ["Write text"; "Translate Translate to es."]).
  - reflexivity.
  - repeat constructor.
  - repeat constructor.
Defined.

(** X20.  The prompt of a tree, whatever made it, is the prompts of its
    nodes linked together: when each node of the tree, taken without its
    chain, has a prompt, [_transpile_ast] returns on the tree those prompts
    linked with [Then, ], each after the first with its first character in
    lower case; it returns no prompt when a linked prompt is empty. *)
Theorem transpile_ast_links_node_prompts (ast : AILangAST)
    (vars : list (string * string)) (prompts : list string) :
  Forall2 (λ node prompt, _transpile_ast (set_chain None node) vars = Some prompt)
          (ast :: chained ast) prompts →
  _transpile_ast ast vars = then_link prompts.
Proof. intros Hprompts. by apply transpile_ast_link. Qed.

(** A tree of two nodes: [fix] chained to [analyze], with a subject. *)
Lemma transpile_ast_links_node_prompts_witness :
  let node action subject next :=
    {| action := action; subject := subject; specifiers := []; must := [];
       maybe := []; priority := []; avoid := []; chain := next; parallel := [];
       persona := None; variables := ∅ |} in
  _transpile_ast (node "analyze" "logs" (Some (node "fix" "" None))) []
  = Some "Analyze logs Then, fix the following code:".
Proof.
  intros node.
  apply (transpile_ast_links_node_prompts
           (node "analyze" "logs" (Some (node "fix" "" None))) []
           ["Analyze logs"; "Fix the following code:"]).
  repeat constructor.
Defined.

(** X21.  The prompt of a command in a persona wrapper is the sentence of
    the persona followed by the prompt of what the wrapper holds: when the
    stripped command matches the persona pattern with the name [name] and the
    body [body], and the body does not itself start with a wrapper,
    [transpile] returns on the command [You are name. ] followed by what it
    returns on the body, and raises what it raises on the body. *)
Theorem transpile_persona_wrapper (command name body : string)
    (vars : list (string * string)) :
  persona_block (strip command) = Some (name, body) →
  persona_block (strip body) = None →
  transpile command vars
  = (λ r : result string, (λ prompt, "You are " +:+ name +:+ ". " +:+ prompt) <$> r)
      <$> transpile body vars.
Proof. apply transpile_wrapped. Qed.

(** The wrapped command of the tests of the transpiler. *)
Lemma transpile_persona_wrapper_witness :
  transpile ("@as " +:+ quote "expert" +:+ " { review {code} }") []
  = (λ r : result string, (λ prompt, "You are expert. " +:+ prompt) <$> r)
      <$> transpile " review {code} " [].
Proof.
  apply (transpile_persona_wrapper
           ("@as " +:+ quote "expert" +:+ " { review {code} }") "expert" " review {code} " []);
    reflexivity.
Defined.

End TranspilerFacts.

(** ** [ask_async] *)

Module CoreFacts.

Import Contracts Core TextFacts ContractFacts.

Section Asking.

Context `{Runtime} {Provider : Type} (complete : string → Provider → result string * Provider).


End Asking.



End CoreFacts.
